(** * nanobot: message bus, provider adapter and agent loop

  A shallow embedding of the parts of
  [nanobot/bus/queue.py], [nanobot/providers/litellm_provider.py],
  [nanobot/agent/loop.py] and [nanobot/agent/memory.py] that the
  specification's testable properties talk about, with the properties
  proved over the embedding; and of further functions of these files, of
  [nanobot/agent/tools/message.py] and of [nanobot/channels/telegram.py],
  with properties read off the code. *)

From Stdlib Require Import NArith ZArith Lia Bool Ascii DecimalString.
From stdpp Require Import base option list strings gmap sorting.

Set Default Proof Using "Type".
Set Warnings "-register-all".

(* ===================================================================== *)
(** ** Python text *)
(* ===================================================================== *)

(** A Python [str] is a sequence of Unicode code points. *)
Module Py.

Abbreviation pystr := (list N).

(** ASCII literals. *)
Definition py (s : string) : pystr :=
  (fun a => N_of_ascii a) <$> String.list_ascii_of_string s.

Arguments py : simpl never.

(** The double quote. *)
Definition dq : pystr := [34%N].

Definition NL : N := 10%N.

(** [str.isspace] for one code point; this is also the set matched by
    [\s] in a [str] pattern and the set removed by [str.strip()]. *)
Definition isspace (c : N) : bool :=
  ((9 <=? c) && (c <=? 13) || (28 <=? c) && (c <=? 32)
   || (c =? 133) || (c =? 160) || (c =? 5760)
   || (8192 <=? c) && (c <=? 8202)
   || (c =? 8232) || (c =? 8233) || (c =? 8239) || (c =? 8287)
   || (c =? 12288))%N.

Fixpoint drop_while {A} (p : A → bool) (l : list A) : list A :=
  match l with
  | [] => []
  | x :: t => if p x then drop_while p t else l
  end.

Fixpoint take_while {A} (p : A → bool) (l : list A) : list A :=
  match l with
  | [] => []
  | x :: t => if p x then x :: take_while p t else []
  end.

Definition lstrip (s : pystr) : pystr := drop_while isspace s.
Definition rstrip (s : pystr) : pystr := rev (drop_while isspace (rev s)).
(** [s.strip()] *)
Definition strip (s : pystr) : pystr := rstrip (lstrip s).

(** The replacement a run of [r] newlines is turned into by
    [re.sub(r"\n{3,}", "\n\n", _)]. *)
Definition flush_newlines (r : nat) : pystr :=
  replicate (if 3 <=? r then 2 else r)%nat NL.

(** [re.sub(r"\n{3,}", "\n\n", s)], scanning left to right with the
    length [r] of the run of newlines read so far. *)
Fixpoint collapse_newlines_from (r : nat) (s : pystr) : pystr :=
  match s with
  | [] => flush_newlines r
  | c :: t =>
      if (c =? NL)%N then collapse_newlines_from (S r) t
      else flush_newlines r ++ c :: collapse_newlines_from 0 t
  end.

Definition collapse_newlines (s : pystr) : pystr :=
  collapse_newlines_from 0 s.

(** [s.startswith(lit)], giving the rest of [s] after [lit]. *)
Fixpoint strip_prefix (lit s : pystr) : option pystr :=
  match lit, s with
  | [], _ => Some s
  | a :: lit', b :: s' => if (a =? b)%N then strip_prefix lit' s' else None
  | _ :: _, [] => None
  end.

(** [sep.join(parts)] *)
Fixpoint join (sep : pystr) (parts : list pystr) : pystr :=
  match parts with
  | [] => []
  | [p] => p
  | p :: rest => p ++ sep ++ join sep rest
  end.

(** A [float]: [mantissa * 2 ^ exponent] with its sign, an infinity or
    a NaN. *)
Inductive pyfloat :=
| FNum (negative : bool) (mantissa : N) (exponent : Z)
| FInf (negative : bool)
| FNan.

(** Python values held in free-form mappings and decoded from JSON. *)
Inductive pyval :=
| VNone
| VBool (b : bool)
| VInt (z : Z)
| VFloat (f : pyfloat)
| VStr (s : pystr)
| VList (l : list pyval)
| VDict (d : gmap pystr pyval).

(** [bool(v)] *)
Definition truthy_val (v : pyval) : bool :=
  match v with
  | VNone => false
  | VBool b => b
  | VInt z => negb (z =? 0)%Z
  | VFloat (FNum _ m _) => negb (m =? 0)%N
  | VFloat _ => true
  | VStr s => match s with [] => false | _ => true end
  | VList l => match l with [] => false | _ => true end
  | VDict d => negb (size d =? 0)%nat
  end.

(** [s.split(sep, 1)[-1]]: what follows the first [sep], or all of [s]. *)
Fixpoint after_first (sep s : pystr) : option pystr :=
  match strip_prefix sep s with
  | Some rest => Some rest
  | None =>
      match s with
      | [] => None
      | _ :: t => after_first sep t
      end
  end.

Definition split1_last (sep s : pystr) : pystr :=
  default s (after_first sep s).

(** [s.rsplit(sep, 1)[0]]: what precedes the last [sep], or all of [s]. *)
Fixpoint before_last (sep s : pystr) : option pystr :=
  match s with
  | [] => None
  | c :: t =>
      match before_last sep t with
      | Some p => Some (c :: p)
      | None =>
          match strip_prefix sep s with
          | Some _ => Some []
          | None => None
          end
      end
  end.

Definition rsplit1_first (sep s : pystr) : pystr :=
  default s (before_last sep s).

(** [s.upper()] on ASCII letters; other code points are kept. *)
Definition upper (s : pystr) : pystr :=
  (λ c, if (97 <=? c) && (c <=? 122) then c - 32 else c)%N <$> s.

(** Truthiness of a [str | None]. *)
Definition truthy (s : option pystr) : bool :=
  match s with Some (_ :: _) => true | _ => false end.

(** [str(n)] for an [int]. *)
Definition str_of_int (n : Z) : pystr :=
  py (NilZero.string_of_int (Z.to_int n)).

End Py.

Import Py.

(* ===================================================================== *)
(** ** The [SILENT] sentinel ([AgentLoop._SILENT_TRAILING_RE]) *)
(* ===================================================================== *)

Module Silent.

Definition SILENT : pystr := Eval vm_compute in py "[SILENT]".

(** The punctuation of the character class of [_SILENT_TRAILING_RE], as
    the code points the source file holds after [\s]:
    [. , ! ? ; :], then U+00EF U+00BC U+0152 U+00E3 U+20AC U+201A U+0178
    U+203A U+0161 U+00E2 U+00A6, and [~]. *)
Definition trailing_punct : list N :=
  [46; 44; 33; 63; 59; 58;
   239; 188; 338; 227; 8364; 8218; 239; 188; 239; 188; 376;
   239; 188; 8250; 239; 188; 353; 227; 8364; 226; 8364; 166; 126]%N.

Definition trailing_class (c : N) : bool :=
  isspace c || existsb (N.eqb c) trailing_punct.

(** [$] without [re.MULTILINE]: the end of the string, or just before a
    newline that ends the string. *)
Definition at_dollar (rest : pystr) : bool :=
  match rest with
  | [] => true
  | [c] => (c =? NL)%N
  | _ => false
  end.

(** [[...]*$] matched at the head of [s], greedy with backtracking:
    the number of code points the star takes. *)
Fixpoint match_trailing (s : pystr) : option nat :=
  match s with
  | [] => Some 0%nat
  | c :: t =>
      if trailing_class c then
        match match_trailing t with
        | Some n => Some (S n)
        | None => if at_dollar s then Some 0%nat else None
        end
      else if at_dollar s then Some 0%nat else None
  end.

(** The whole pattern matched at the head of [s]: length of the match. *)
Definition match_at (s : pystr) : option nat :=
  rest ← strip_prefix SILENT s;
  n ← match_trailing rest;
  Some (length SILENT + n)%nat.

(** [_SILENT_TRAILING_RE.search(s)]: start and length of the leftmost
    match. *)
Fixpoint search (s : pystr) : option (nat * nat) :=
  match match_at s with
  | Some n => Some (0%nat, n)
  | None =>
      match s with
      | [] => None
      | _ :: t => prod_map S id <$> search t
      end
  end.

(** [_SILENT_TRAILING_RE.sub("", s)]: every match, found left to right
    and not overlapping, is deleted; [skip] is what is left of the match
    being deleted. *)
Fixpoint sub_from (skip : nat) (s : pystr) : pystr :=
  match s with
  | [] => []
  | c :: t =>
      match skip with
      | S k => sub_from k t
      | O =>
          match match_at s with
          | Some (S k) => sub_from k t
          | _ => c :: sub_from 0 t
          end
      end
  end.

Definition sub (s : pystr) : pystr := sub_from 0 s.

(** [AgentLoop._contains_silent_marker] *)
Definition _contains_silent_marker (content : option pystr) : bool :=
  truthy content &&
  match content with
  | Some s => bool_decide (is_Some (search s))
  | None => false
  end.

(** The loop [while RE.search(cleaned): cleaned = RE.sub("", cleaned)].
    A match is never empty, so each round shortens [cleaned]; [fuel]
    bounds the number of rounds ([strip_loop_settled] shows that
    [length cleaned] rounds always reach the loop's exit). *)
Fixpoint strip_loop (fuel : nat) (cleaned : pystr) : pystr :=
  match search cleaned, fuel with
  | Some _, S fuel' => strip_loop fuel' (sub cleaned)
  | _, _ => cleaned
  end.

(** [AgentLoop._strip_silent_marker] *)
Definition _strip_silent_marker (content : option pystr) : option pystr :=
  match content with
  | None => None
  | Some s =>
      match search s with
      | None => Some s
      | Some _ =>
          let cleaned := strip_loop (length s) s in
          Some (strip (collapse_newlines cleaned))
      end
  end.

End Silent.

(* ===================================================================== *)
(** ** The message bus ([nanobot/bus/queue.py]) *)
(* ===================================================================== *)

Module Bus.

(** [datetime | str]: a [datetime] is held by its [isoformat()] text. *)
Inductive stamp :=
| Datetime (iso : pystr)
| Text (s : pystr).

(** Modelled from the spec: [InboundMessage] of [nanobot/bus/events.py],
    which is not among the sources: channel, sender_id, chat_id, content,
    timestamp, media (ordered file paths) and free-form metadata. *)
Record InboundMessage := {
  channel : pystr;
  sender_id : pystr;
  chat_id : pystr;
  content : pystr;
  timestamp : stamp;
  media : list pystr;
  metadata : option (gmap pystr pyval);
}.

(** Modelled from the spec: the derived attribute
    [session_key = channel + ":" + chat_id]. *)
Definition session_key (msg : InboundMessage) : pystr :=
  channel msg ++ py ":" ++ chat_id msg.

(** An [asyncio.Future[tuple[bool, str | None]]]. *)
Inductive future :=
| Pending
| Result (success : bool) (error : option pystr)
| Cancelled.

Definition done (f : future) : bool :=
  match f with Pending => false | _ => true end.

(** The bus.  Futures are shared with whoever created them, so they live
    in a store ([futures], addressed by position) and
    [_outbound_waiters] holds their addresses. *)
Record MessageBus := {
  inbound : list InboundMessage;
  _outbound_waiters : gmap pystr nat;
  futures : list future;
  _active_inbound_session : option pystr;
  _inbound_collect_buffer : gmap pystr (list InboundMessage);
}.

(** [MessageBus.__init__] *)
Definition new_bus : MessageBus := {|
  inbound := [];
  _outbound_waiters := ∅;
  futures := [];
  _active_inbound_session := None;
  _inbound_collect_buffer := ∅;
|}.

(** [MessageBus._timestamp_to_text] *)
Definition _timestamp_to_text (value : stamp) : pystr :=
  match value with
  | Datetime iso => iso
  | Text s => s
  end.

(** The dict built per buffered message for [collected_messages]. *)
Definition collected_entry (msg : InboundMessage) : pyval :=
  VDict (list_to_map
    [ (py "sender_id", VStr (sender_id msg));
      (py "content", VStr (content msg));
      (py "timestamp", VStr (_timestamp_to_text (timestamp msg)));
      (py "media", VList (VStr <$> media msg));
      (py "metadata", VDict (default ∅ (metadata msg))) ]).

(** The f-string ["[{msg.sender_id}] {msg.content}"]. *)
Definition prefixed (msg : InboundMessage) : pystr :=
  py "[" ++ sender_id msg ++ py "] " ++ content msg.

(** [MessageBus._merge_buffered_messages]; [None] is the [IndexError] of
    [messages[0]] on an empty list. *)
Definition _merge_buffered_messages
    (messages : list InboundMessage) : option InboundMessage :=
  first ← head messages;
  let merged_content :=
    if (length messages =? 1)%nat then content first
    else join [NL; NL] (prefixed <$> messages) in
  let merged_media := mjoin (media <$> messages) in
  let collected_messages := collected_entry <$> messages in
  let merged_metadata :=
    <[py "collected_count" := VInt (Z.of_nat (length messages))]>
      (<[py "collected_messages" := VList collected_messages]>
         (default ∅ (metadata first))) in
  Some {| channel := channel first;
          sender_id := sender_id first;
          chat_id := chat_id first;
          content := merged_content;
          timestamp := timestamp first;
          media := merged_media;
          metadata := Some merged_metadata |}.

Definition with_inbound (q : list InboundMessage) (bus : MessageBus) :=
  {| inbound := q;
     _outbound_waiters := _outbound_waiters bus;
     futures := futures bus;
     _active_inbound_session := _active_inbound_session bus;
     _inbound_collect_buffer := _inbound_collect_buffer bus |}.

Definition with_active (a : option pystr) (bus : MessageBus) :=
  {| inbound := inbound bus;
     _outbound_waiters := _outbound_waiters bus;
     futures := futures bus;
     _active_inbound_session := a;
     _inbound_collect_buffer := _inbound_collect_buffer bus |}.

Definition with_buffer (b : gmap pystr (list InboundMessage))
    (bus : MessageBus) :=
  {| inbound := inbound bus;
     _outbound_waiters := _outbound_waiters bus;
     futures := futures bus;
     _active_inbound_session := _active_inbound_session bus;
     _inbound_collect_buffer := b |}.

Definition with_waiters (w : gmap pystr nat) (fs : list future)
    (bus : MessageBus) :=
  {| inbound := inbound bus;
     _outbound_waiters := w;
     futures := fs;
     _active_inbound_session := _active_inbound_session bus;
     _inbound_collect_buffer := _inbound_collect_buffer bus |}.

(** The test [self._active_inbound_session and
    msg.session_key == self._active_inbound_session]. *)
Definition is_active (bus : MessageBus) (key : pystr) : bool :=
  match _active_inbound_session bus with
  | Some k => truthy (Some k) && bool_decide (key = k)
  | None => false
  end.

(** [MessageBus.publish_inbound] *)
Definition publish_inbound (msg : InboundMessage) (bus : MessageBus)
    : MessageBus :=
  if is_active bus (session_key msg) then
    let buffer :=
      default [] (_inbound_collect_buffer bus !! session_key msg) in
    with_buffer
      (<[session_key msg := buffer ++ [msg]]> (_inbound_collect_buffer bus))
      bus
  else with_inbound (inbound bus ++ [msg]) bus.

(** [MessageBus.consume_inbound]; [None] when the queue is empty and
    [inbound.get()] would wait. *)
Definition consume_inbound (bus : MessageBus)
    : option (InboundMessage * MessageBus) :=
  match inbound bus with
  | [] => None
  | msg :: q => Some (msg, with_active (Some (session_key msg))
                                       (with_inbound q bus))
  end.

(** [MessageBus.complete_inbound_turn] *)
Definition complete_inbound_turn (msg : InboundMessage) (bus : MessageBus)
    : MessageBus :=
  if bool_decide (_active_inbound_session bus ≠ Some (session_key msg))
  then bus
  else
    let buffered :=
      default [] (_inbound_collect_buffer bus !! session_key msg) in
    let bus1 :=
      with_buffer (delete (session_key msg) (_inbound_collect_buffer bus))
                  bus in
    let bus2 :=
      match _merge_buffered_messages buffered with
      | Some merged => with_inbound (inbound bus1 ++ [merged]) bus1
      | None => bus1
      end in
    with_active None bus2.

Definition superseded : pystr := py "superseded by a newer outbound request".

(** [fut.set_result(r)] on the future stored at [a]. *)
Definition set_result (a : nat) (success : bool) (error : option pystr)
    (fs : list future) : list future :=
  <[a := Result success error]> fs.

Definition pending_at (fs : list future) (a : nat) : bool :=
  match fs !! a with
  | Some f => negb (done f)
  | None => false
  end.

(** [MessageBus.create_outbound_waiter]: the new future (its address) and
    the bus. *)
Definition create_outbound_waiter (request_id : pystr) (bus : MessageBus)
    : nat * MessageBus :=
  let fut := length (futures bus) in
  let fs := futures bus ++ [Pending] in
  let old := _outbound_waiters bus !! request_id in
  let waiters := delete request_id (_outbound_waiters bus) in
  let fs :=
    match old with
    | Some a => if pending_at fs a
                then set_result a false (Some superseded) fs else fs
    | None => fs
    end in
  (fut, with_waiters (<[request_id := fut]> waiters) fs bus).

(** [MessageBus.resolve_outbound_waiter] *)
Definition resolve_outbound_waiter (request_id : option pystr)
    (success : bool) (error : option pystr) (bus : MessageBus) : MessageBus :=
  match request_id with
  | Some (c :: r) =>
      let rid := c :: r in
      let fs :=
        match _outbound_waiters bus !! rid with
        | Some a => if pending_at (futures bus) a
                    then set_result a success error (futures bus)
                    else futures bus
        | None => futures bus
        end in
      with_waiters (delete rid (_outbound_waiters bus)) fs bus
  | _ => bus
  end.

(** [MessageBus.discard_outbound_waiter] *)
Definition discard_outbound_waiter (request_id : option pystr)
    (bus : MessageBus) : MessageBus :=
  match request_id with
  | Some (c :: r) =>
      with_waiters (delete (c :: r) (_outbound_waiters bus)) (futures bus) bus
  | _ => bus
  end.

(** [MessageBus.inbound_size] *)
Definition inbound_size (bus : MessageBus) : nat := length (inbound bus).

End Bus.

(* ===================================================================== *)
(** ** The provider adapter ([nanobot/providers/litellm_provider.py]) *)
(* ===================================================================== *)

Module Provider.

(** What the adapter takes from outside the repository: the Unicode
    table behind [\w], the [json] module and [uuid4]. *)
Class Externals := {
  (** [str.isalnum] of one code point above ASCII; no such code point
      is white space *)
  unicode_isalnum : N → bool;
  alnum_not_space c : unicode_isalnum c = true → isspace c = false;
  (** [json.loads(text)]; [None] is [json.JSONDecodeError] *)
  json_loads : pystr → option pyval;
  (** [json.JSONDecoder().raw_decode(text)]: the value and the index where
      it ends; [None] is [json.JSONDecodeError] *)
  raw_decode : pystr → option (pyval * nat);
  (** [uuid4().hex], for the [k]-th identifier drawn *)
  uuid4_hex : nat → pystr;
}.

(** An exception that was raised: [type(exc).__name__], [str(exc)], and
    whether its class derives from [Exception] (what [except Exception]
    catches). *)
Record exn := {
  exc_type : pystr;
  exc_str : pystr;
  exc_is_Exception : bool;
}.

Inductive outcome (A : Type) :=
| Returns (a : A)
| Raises (e : exn).
Arguments Returns {A} a.
Arguments Raises {A} e.

(** Modelled from the spec: [ToolCallRequest] and [LLMResponse] of
    [nanobot/providers/base.py], which is not among the sources.  A name
    is [None] when a stream never named the call. *)
Record ToolCallRequest := {
  tc_id : pystr;
  tc_name : option pystr;
  tc_arguments : pyval;
}.

Record LLMResponse := {
  content : option pystr;
  tool_calls : list ToolCallRequest;
  finish_reason : pystr;
  usage : gmap pystr Z;
  reasoning_content : option pystr;
}.

(** Modelled from the spec: [LLMResponse.has_tool_calls]. *)
Definition has_tool_calls (r : LLMResponse) : bool :=
  match tool_calls r with [] => false | _ => true end.

(** [LiteLLMProvider._format_exception] *)
Definition _format_exception (exc : exn) : pystr :=
  let name := exc_type exc in
  let msg := strip (exc_str exc) in
  match msg with
  | [] => name
  | _ => name ++ py ": " ++ msg
  end.

(** *** The response summary that is logged *)

(** [text.replace("\n", "\\n")]: a newline becomes a backslash and the
    letter n. *)
Definition escape_newlines (text : pystr) : pystr :=
  text ≫= (λ c, if (c =? NL)%N then [92; 110]%N else [c]).

(** [LiteLLMProvider._preview_text], for a [limit] that is not
    negative. *)
Definition _preview_text (text : option pystr) (limit : nat) : pystr :=
  match text with
  | None => py "<none>"
  | Some text =>
      let compact := escape_newlines text in
      match strip compact with
      | [] => py "<blank>"
      | _ =>
          if (limit <? length compact)%nat
          then take limit compact ++ py "...(truncated)"
          else compact
      end
  end.

(** The position of the first [None] of a list. *)
Fixpoint first_none {A} (l : list (option A)) : option nat :=
  match l with
  | [] => None
  | None :: _ => Some 0%nat
  | Some _ :: t => S <$> first_none t
  end.

(** [", ".join(names)]: [TypeError] at the first item that is not a
    [str]. *)
Definition join_names (names : list (option pystr)) : outcome pystr :=
  match first_none names with
  | Some i =>
      Raises {| exc_type := py "TypeError";
                exc_str := py "sequence item "
                           ++ str_of_int (Z.of_nat i)
                           ++ py ": expected str instance, NoneType found";
                exc_is_Exception := true |}
  | None => Returns (join (py ", ") (default [] <$> names))
  end.

(** [LiteLLMProvider._log_response_summary]: the line that is logged. *)
Definition _log_response_summary (response : LLMResponse) : outcome pystr :=
  let content_preview := _preview_text (content response) 240 in
  if has_tool_calls response then
    match join_names (tc_name <$> take 5 (tool_calls response)) with
    | Raises e => Raises e
    | Returns names =>
        let names :=
          if (5 <? length (tool_calls response))%nat
          then names ++ py ", ..." else names in
        Returns (py "LLM Response: mode=function_call, "
                 ++ py "finish_reason=" ++ finish_reason response ++ py ", "
                 ++ py "tool_calls="
                 ++ str_of_int (Z.of_nat (length (tool_calls response)))
                 ++ py ", "
                 ++ py "tool_names=[" ++ names ++ py "], "
                 ++ py "content=" ++ content_preview)
    end
  else
    Returns (py "LLM Response: mode=text, "
             ++ py "finish_reason=" ++ finish_reason response ++ py ", "
             ++ py "content=" ++ content_preview).

(** The two statements [self._log_response_summary(response)] and
    [return response] that end [_stream_chat] and that follow
    [_parse_response] in [chat]: the response is returned unless writing
    its summary raises. *)
Definition logged (response : LLMResponse) : outcome LLMResponse :=
  match _log_response_summary response with
  | Raises e => Raises e
  | Returns _ => Returns response
  end.

(** *** Streamed chunks *)

Record FunctionDelta := {
  fn_name : option pystr;
  fn_arguments : option pystr;
}.

Record ToolCallDelta := {
  index : Z;
  tcd_id : option pystr;
  function : option FunctionDelta;
}.

Record Delta := {
  d_content : option pystr;
  d_reasoning_content : option pystr;
  d_tool_calls : list ToolCallDelta;
}.

Record Choice := {
  delta : Delta;
  c_finish_reason : option pystr;
}.

Record Usage := {
  prompt_tokens : Z;
  completion_tokens : Z;
  total_tokens : Z;
}.

Record Chunk := {
  choices : list Choice;
  chunk_usage : option Usage;
}.

Definition usage_dict (u : Usage) : gmap pystr Z :=
  list_to_map [ (py "prompt_tokens", prompt_tokens u);
                (py "completion_tokens", completion_tokens u);
                (py "total_tokens", total_tokens u) ].

(** One value of [tool_calls_map]. *)
Record Entry := {
  e_id : pystr;
  e_name : option pystr;
  e_arguments : pystr;
}.

(** The body of [for tc in delta.tool_calls]. *)
Definition merge_fragment (m : gmap Z Entry) (tc : ToolCallDelta)
    : gmap Z Entry :=
  let idx := index tc in
  let m :=
    match m !! idx with
    | Some _ => m
    | None =>
        <[idx := {| e_id := if truthy (tcd_id tc)
                            then default [] (tcd_id tc) else [];
                    e_name := match function tc with
                              | Some f => fn_name f
                              | None => Some []
                              end;
                    e_arguments := [] |}]> m
    end in
  let m :=
    match tcd_id tc with
    | Some (c :: r) =>
        alter (λ e, {| e_id := c :: r; e_name := e_name e;
                       e_arguments := e_arguments e |}) idx m
    | _ => m
    end in
  match function tc with
  | Some f =>
      let m :=
        match fn_name f with
        | Some (c :: r) =>
            alter (λ e, {| e_id := e_id e; e_name := Some (c :: r);
                           e_arguments := e_arguments e |}) idx m
        | _ => m
        end in
      match fn_arguments f with
      | Some (c :: r) =>
          alter (λ e, {| e_id := e_id e; e_name := e_name e;
                         e_arguments := e_arguments e ++ c :: r |}) idx m
      | _ => m
      end
  | None => m
  end.

(** The variables of [_stream_chat] that the loop over the chunks
    updates. *)
Record StreamState := {
  content_parts : list pystr;
  tool_calls_map : gmap Z Entry;
  s_finish_reason : pystr;
  s_usage : gmap pystr Z;
  reasoning_parts : list pystr;
}.

Definition stream_start : StreamState := {|
  content_parts := [];
  tool_calls_map := ∅;
  s_finish_reason := py "stop";
  s_usage := ∅;
  reasoning_parts := [];
|}.

(** The body of [async for chunk in ...]. *)
Definition stream_step (st : StreamState) (chunk : Chunk) : StreamState :=
  match choices chunk with
  | [] => st
  | choice :: _ =>
      let d := delta choice in
      {| content_parts :=
           if truthy (d_content d)
           then content_parts st ++ [default [] (d_content d)]
           else content_parts st;
         reasoning_parts :=
           if truthy (d_reasoning_content d)
           then reasoning_parts st ++ [default [] (d_reasoning_content d)]
           else reasoning_parts st;
         tool_calls_map :=
           foldl merge_fragment (tool_calls_map st) (d_tool_calls d);
         s_finish_reason :=
           if truthy (c_finish_reason choice)
           then default [] (c_finish_reason choice)
           else s_finish_reason st;
         s_usage :=
           match chunk_usage chunk with
           | Some u => usage_dict u
           | None => s_usage st
           end |}
  end.

Section WithExternals.
Context `{Externals}.

(** [json.loads(args)], or [{"raw": args}] on [JSONDecodeError]. *)
Definition parse_arguments (args : pystr) : pyval :=
  match json_loads args with
  | Some v => v
  | None => VDict {[ py "raw" := VStr args ]}
  end.

(** The list built by [for idx in sorted(tool_calls_map.keys())]. *)
Definition build_tool_calls (m : gmap Z Entry) : list ToolCallRequest :=
  omap (λ idx,
          tc_data ← m !! idx;
          Some {| tc_id := e_id tc_data;
                  tc_name := e_name tc_data;
                  tc_arguments := parse_arguments (e_arguments tc_data) |})
       (merge_sort Z.le (elements (dom m))).

(** *** Textual tool calls in streamed text *)

Definition token : pystr := Eval vm_compute in py "[tool_call]".

(** Offset of the first occurrence of [tok] in [s]. *)
Fixpoint find_in (tok s : pystr) : option nat :=
  match strip_prefix tok s with
  | Some _ => Some 0%nat
  | None =>
      match s with
      | [] => None
      | _ :: t => S <$> find_in tok t
      end
  end.

(** [content.find(tok, pos)]; [None] is the result [-1]. *)
Definition find (tok content : pystr) (pos : nat) : option nat :=
  (λ off, pos + off)%nat <$> find_in tok (drop pos content).

(** [content[a:b]] for [0 <= a] and [0 <= b]. *)
Definition slice (a b : nat) (content : pystr) : pystr :=
  take (b - a) (drop a content).

Definition is_name_start (c : N) : bool :=
  ((65 <=? c) && (c <=? 90) || (97 <=? c) && (c <=? 122) || (c =? 95))%N.

(** [\w] of a [str] pattern. *)
Definition is_word (c : N) : bool :=
  is_name_start c || ((48 <=? c) && (c <=? 57))%N
  || ((128 <=? c)%N && unicode_isalnum c).

(** The [re.match] of the header pattern on [s]: optional white space, a
    name (one of [A-Za-z_], then word characters), optional white space
    and an opening parenthesis; group 1 and the end of the match.  Each
    greedy star is followed by something its own class excludes, so giving
    back what a star took never helps. *)
Definition match_header (s : pystr) : option (pystr * nat) :=
  match drop_while isspace s with
  | c :: s2 =>
      if is_name_start c then
        match drop_while isspace (drop_while is_word s2) with
        | p :: s5 =>
            if (p =? 40)%N
            then Some (c :: take_while is_word s2, (length s - length s5)%nat)
            else None
        | [] => None
        end
      else None
  | [] => None
  end.

Definition is_dict (v : pyval) : bool :=
  match v with VDict _ => true | _ => false end.

(** One round of the [while True] loop of
    [_coerce_stream_text_tool_calls] after [start] was found: the name,
    the decoded arguments and [end], or [None] where the round ends in
    [pos = start + len(token); continue]. *)
Definition parse_at (content : pystr) (start : nat)
    : option (pystr * pyval * nat) :=
  let idx := (start + length token)%nat in
  '(name, header_end) ← match_header (drop idx content);
  let idx := (idx + header_end)%nat in
  let tail := lstrip (drop idx content) in
  let idx := (idx + (length (drop idx content) - length tail))%nat in
  match strip_prefix (py "{") tail with
  | None => None
  | Some _ =>
      '(args_obj, consumed) ← raw_decode tail;
      let idx := (idx + consumed)%nat in
      let trailing := lstrip (drop idx content) in
      let idx := (idx + (length (drop idx content) - length trailing))%nat in
      match content !! idx with
      | Some c => if (c =? 41)%N then Some (name, args_obj, S idx) else None
      | None => None
      end
  end.

Definition text_tool_call (k : nat) (name : pystr) (args_obj : pyval)
    : ToolCallRequest :=
  {| tc_id := py "text_toolcall_" ++ take 12 (uuid4_hex k);
     tc_name := Some name;
     tc_arguments :=
       if is_dict args_obj then args_obj
       else VDict {[ py "raw" := args_obj ]} |}.

(** The [while True] loop.  [pos] moves forward in every round, so the
    loop ends within [length content] rounds; [fuel] bounds them
    ([scan_spec] shows that this bound is never what ends the loop). *)
Fixpoint scan (fuel : nat) (content : pystr) (pos : nat)
    (calls : list ToolCallRequest) (spans : list (nat * nat))
    : list ToolCallRequest * list (nat * nat) :=
  match fuel with
  | O => (calls, spans)
  | S fuel' =>
      match find token content pos with
      | None => (calls, spans)
      | Some start =>
          match parse_at content start with
          | None =>
              scan fuel' content (start + length token)%nat calls spans
          | Some (name, args_obj, end_) =>
              scan fuel' content end_
                (calls ++ [text_tool_call (length calls) name args_obj])
                (spans ++ [(start, end_)])
          end
      end
  end.

(** The [parts] collected around the spans. *)
Fixpoint cut_spans (content : pystr) (cursor : nat)
    (spans : list (nat * nat)) : list pystr :=
  match spans with
  | [] => [drop cursor content]
  | (start, end_) :: spans' =>
      slice cursor start content :: cut_spans content end_ spans'
  end.

Definition or_none (s : pystr) : option pystr :=
  match s with [] => None | _ => Some s end.

(** [LiteLLMProvider._coerce_stream_text_tool_calls] *)
Definition _coerce_stream_text_tool_calls (content : option pystr)
    : option pystr * list ToolCallRequest :=
  match content with
  | Some (c :: r) =>
      let text := c :: r in
      match find token text 0 with
      | None => (content, [])
      | Some _ =>
          let '(calls, spans) := scan (length text) text 0 [] [] in
          match calls with
          | [] => (content, [])
          | _ =>
              let cleaned := mjoin (cut_spans text 0 spans) in
              let cleaned := strip (collapse_newlines cleaned) in
              (or_none cleaned, calls)
          end
      end
  | _ => (content, [])
  end.

Definition joined (parts : list pystr) : option pystr :=
  match parts with
  | [] => None
  | _ => Some (mjoin parts)
  end.

(** The [response] that [_stream_chat] builds from the chunks of a
    stream that was delivered to its end: the function up to, and not
    including, its last two statements. *)
Definition stream_response (chunks : list Chunk) : LLMResponse :=
  let st := foldl stream_step stream_start chunks in
  let tool_calls := build_tool_calls (tool_calls_map st) in
  let content := joined (content_parts st) in
  let reasoning_content := joined (reasoning_parts st) in
  let '(content, tool_calls) :=
    match tool_calls with
    | [] =>
        let '(content, parsed_tool_calls) :=
          _coerce_stream_text_tool_calls content in
        match parsed_tool_calls with
        | [] => (content, tool_calls)
        | _ => (content, parsed_tool_calls)
        end
    | _ => (content, tool_calls)
    end in
  {| content := content;
     tool_calls := tool_calls;
     finish_reason := s_finish_reason st;
     usage := s_usage st;
     reasoning_content := reasoning_content |}.

(** [LiteLLMProvider._stream_chat] on the chunks of a stream that was
    delivered to its end: the response is built, its summary is logged,
    and it is returned. *)
Definition _stream_chat (chunks : list Chunk) : outcome LLMResponse :=
  logged (stream_response chunks).

(** *** Plain responses *)

Inductive raw_arguments :=
| ArgText (s : pystr)
| ArgValue (v : pyval).

Record RawToolCall := {
  r_id : pystr;
  r_name : option pystr;
  r_arguments : raw_arguments;
}.

Record RawMessage := {
  m_content : option pystr;
  m_tool_calls : list RawToolCall;
  m_reasoning_content : option pystr;
}.

Record RawChoice := {
  message : RawMessage;
  rc_finish_reason : option pystr;
}.

Record RawResponse := {
  r_choices : list RawChoice;
  r_usage : option Usage;
}.

Definition IndexError : exn :=
  {| exc_type := py "IndexError"; exc_str := py "list index out of range";
     exc_is_Exception := true |}.

(** [LiteLLMProvider._parse_response] *)
Definition _parse_response (response : RawResponse) : outcome LLMResponse :=
  match r_choices response with
  | [] => Raises IndexError
  | choice :: _ =>
      let message := message choice in
      Returns
        {| content := m_content message;
           tool_calls :=
             (λ tc, {| tc_id := r_id tc;
                       tc_name := r_name tc;
                       tc_arguments :=
                         match r_arguments tc with
                         | ArgText args => parse_arguments args
                         | ArgValue v => v
                         end |}) <$> m_tool_calls message;
           finish_reason :=
             if truthy (rc_finish_reason choice)
             then default [] (rc_finish_reason choice) else py "stop";
           usage := match r_usage response with
                    | Some u => usage_dict u
                    | None => ∅
                    end;
           reasoning_content := m_reasoning_content message |}
  end.

(** *** [chat] *)

(** What [acompletion] does with the request of this call: when asked
    without [stream] it returns a response or raises; when asked with
    [stream=True] it delivers the chunks to their end, or raises (at the
    call or while the chunks are read). *)
Record Backend := {
  acompletion_plain : outcome RawResponse;
  acompletion_stream : outcome (list Chunk);
}.

(** One attempt in one mode: the statements of a [try] body of [chat]. *)
Definition attempt (backend : Backend) (stream : bool)
    : outcome LLMResponse :=
  if stream then
    match acompletion_stream backend with
    | Returns chunks => _stream_chat chunks
    | Raises e => Raises e
    end
  else
    match acompletion_plain backend with
    | Returns response =>
        match _parse_response response with
        | Returns parsed => logged parsed
        | Raises e => Raises e
        end
    | Raises e => Raises e
    end.

(** [LiteLLMProvider.chat], from its outer [try] on. *)
Definition chat (default_stream : bool) (backend : Backend)
    : outcome LLMResponse :=
  match attempt backend default_stream with
  | Returns r => Returns r
  | Raises e =>
      if exc_is_Exception e then
        match attempt backend (negb default_stream) with
        | Returns r => Returns r
        | Raises fallback_e =>
            if exc_is_Exception fallback_e then
              let err := _format_exception fallback_e in
              Returns {| content := Some (py "Error calling LLM: " ++ err);
                         tool_calls := [];
                         finish_reason := py "error";
                         usage := ∅;
                         reasoning_content := None |}
            else Raises fallback_e
        end
      else Raises e
  end.

End WithExternals.

End Provider.

(* ===================================================================== *)
(** ** The agent loop ([nanobot/agent/loop.py]) *)
(* ===================================================================== *)

Module Loop.
Import Provider.
Local Open Scope Z_scope.

(** The configuration fields of [AgentLoop] read by the code below. *)
Record AgentLoop := {
  max_iterations : Z;
  memory_window : Z;
  compression_window_size : Z;
}.

(** [AgentLoop.__init__], for those fields. *)
Definition new_agent (max_iterations memory_window compression_window_size : Z)
    : AgentLoop :=
  {| max_iterations := max_iterations;
     memory_window := memory_window;
     compression_window_size := Z.max 1 compression_window_size |}.

(** Seconds. *)
Definition _CONSOLIDATION_COOLDOWN_S : Z := 15 * 60.
Definition _CONSOLIDATION_HARD_LIMIT : Z := 30.

(** A record of [session.messages]: the keys the consolidator reads.
    [timestamp] is [None] when the key is absent. *)
Record Message := {
  role : pystr;
  content : option pystr;
  timestamp : option pystr;
  tools_used : list pystr;
}.

(** Modelled from the spec: [Session] of [nanobot/session/manager.py],
    which is not among the sources: the ordered messages and the two
    consolidation watermarks. *)
Record Session := {
  key : pystr;
  messages : list Message;
  last_consolidated : Z;
  last_consolidated_at : option pystr;
}.

(** [AgentLoop._compression_keep_count]; [//] rounds down, as [Z.div]
    does for a positive divisor. *)
Definition _compression_keep_count (self : AgentLoop) : Z :=
  Z.max 1 (memory_window self / 2).

(** The clock and [datetime.fromisoformat].  A naive [datetime] is held
    as a count of microseconds; [fromisoformat] gives [None] for
    [ValueError]; [now] is [datetime.now()] and [now_isoformat] its
    [isoformat()]. *)
Class Clock := {
  fromisoformat : pystr → option Z;
  now : Z;
  now_isoformat : pystr;
  (** the empty text is not a date *)
  fromisoformat_empty : fromisoformat [] = None;
}.

Section WithClock.
Context `{Clock}.

(** [AgentLoop._parse_iso_datetime] *)
Definition _parse_iso_datetime (value : option pystr) : option Z :=
  match value with
  | Some (c :: r) => fromisoformat (c :: r)
  | _ => None
  end.

(** [AgentLoop._should_schedule_consolidation];
    [(now - last_at).total_seconds() >= 900] is compared in
    microseconds. *)
Definition _should_schedule_consolidation (self : AgentLoop)
    (session : Session) : bool :=
  let keep_count := _compression_keep_count self in
  let total_messages := Z.of_nat (length (messages session)) in
  if total_messages <=? keep_count then false
  else
    let compress_end := total_messages - keep_count in
    let delta := compress_end - last_consolidated session in
    if delta <=? 0 then false
    else if _CONSOLIDATION_HARD_LIMIT <=? delta then true
    else if compression_window_size self <=? delta then true
    else
      match _parse_iso_datetime (last_consolidated_at session) with
      | None => false
      | Some last_at =>
          _CONSOLIDATION_COOLDOWN_S * 1000000 <=? now - last_at
      end.

End WithClock.

(** *** Memory consolidation *)

(** [MemoryStore] of [nanobot/agent/memory.py]: the two files, [None]
    for a file that does not exist. *)
Record MemoryStore := {
  memory_file : option pystr;
  history_file : option pystr;
}.

(** [MemoryStore.read_long_term] *)
Definition read_long_term (memory : MemoryStore) : pystr :=
  default [] (memory_file memory).

(** [MemoryStore.write_long_term] *)
Definition write_long_term (content : pystr) (memory : MemoryStore)
    : MemoryStore :=
  {| memory_file := Some content; history_file := history_file memory |}.

(** [MemoryStore.append_history] *)
Definition append_history (entry : pystr) (memory : MemoryStore)
    : MemoryStore :=
  {| memory_file := memory_file memory;
     history_file :=
       Some (default [] (history_file memory) ++ rstrip entry ++ [NL; NL]) |}.

(** How writing to a file fails: [open] raises and the file is as it
    was, or the file was opened and the write raises when [written], a
    part of the text, has reached the file. *)
Inductive write_failure :=
| OpenRaises (e : exn)
| WriteRaises (e : exn) (written : pystr).

Definition raised (failure : write_failure) : exn :=
  match failure with
  | OpenRaises e => e
  | WriteRaises e _ => e
  end.

(** [open(self.history_file, "a")]: the file exists from then on, and
    what is written goes to its end. *)
Definition append_text (text : pystr) (memory : MemoryStore) : MemoryStore :=
  {| memory_file := memory_file memory;
     history_file := Some (default [] (history_file memory) ++ text) |}.

(** The files after [append_history] failed. *)
Definition append_history_failed (failure : write_failure)
    (memory : MemoryStore) : MemoryStore :=
  match failure with
  | OpenRaises _ => memory
  | WriteRaises _ written => append_text written memory
  end.

(** The files after [write_long_term] failed: [Path.write_text] opens
    the file for writing, which empties it, before it writes. *)
Definition write_long_term_failed (failure : write_failure)
    (memory : MemoryStore) : MemoryStore :=
  match failure with
  | OpenRaises _ => memory
  | WriteRaises _ written =>
      {| memory_file := Some written; history_file := history_file memory |}
  end.

(** What surrounds one run of [_consolidate_memory]: the provider's
    answer to the request, [json_repair.loads], the exception that reading
    [MEMORY.md] or saving the session raises if it fails, and how each of
    the two writes fails if it does. *)
Record Env := {
  provider_chat : pystr → pystr → outcome LLMResponse;
  json_repair_loads : pystr → outcome pyval;
  read_error : option exn;
  append_error : option write_failure;
  write_error : option write_failure;
  save_error : option exn;
}.

(** Where a run stopped. *)
Inductive Step :=
| ReadMemory | LLMCall | JsonParse | HistoryWrite | MemoryWrite | SessionSave.

(** How a run ended: the four early [return]s, the end of the [try]
    body, an exception caught by [except Exception] (with the step that
    raised it), or an exception that left the function. *)
Inductive Ending :=
| NothingToConsolidate
| EmptyResponse
| UnexpectedType
| Done
| Failed (step : Step) (e : exn)
| Propagated (step : Step) (e : exn).

Record Run := {
  run_session : Session;
  run_memory : MemoryStore;
  (** what [self.sessions.save] wrote, if it was called and succeeded *)
  run_saved : option Session;
  run_ending : Ending;
}.

Definition TypeError (msg : string) : exn :=
  {| exc_type := py "TypeError"; exc_str := py msg; exc_is_Exception := true |}.
Definition AttributeError (msg : string) : exn :=
  {| exc_type := py "AttributeError"; exc_str := py msg;
     exc_is_Exception := true |}.

(** One line of [conversation], or [None] for a message without
    content. *)
Definition conversation_line (m : Message) : option pystr :=
  match content m with
  | Some (c :: r) =>
      let tools :=
        match tools_used m with
        | [] => []
        | used => py " [tools: " ++ join (py ", ") used ++ py "]"
        end in
      Some (py "[" ++ take 16 (default (py "?") (timestamp m)) ++ py "] "
            ++ upper (role m) ++ tools ++ py ": " ++ c :: r)
  | _ => None
  end.

Definition consolidation_system : pystr :=
  py "You are a memory consolidation agent. Respond only with valid JSON.".

(** The f-string [prompt]. *)
Definition consolidation_prompt (current_memory conversation : pystr)
    : pystr :=
  py "You are a memory consolidation agent. Process this conversation and return a JSON object with exactly two keys:"
  ++ [NL; NL]
  ++ py "1. " ++ dq ++ py "history_entry" ++ dq
  ++ py ": A paragraph (2-5 sentences) summarizing the key events/decisions/topics. Start with a timestamp like [YYYY-MM-DD HH:MM]. Include enough detail to be useful when found by grep search later."
  ++ [NL; NL]
  ++ py "2. " ++ dq ++ py "memory_update" ++ dq
  ++ py ": The updated long-term memory content. Add any new facts: user location, preferences, personal info, habits, project context, technical decisions, tools/services used. If nothing new, return the existing content unchanged."
  ++ [NL; NL]
  ++ py "## Current Long-term Memory" ++ [NL]
  ++ match current_memory with [] => py "(empty)" | _ => current_memory end
  ++ [NL; NL]
  ++ py "## Conversation to Process" ++ [NL]
  ++ conversation
  ++ [NL; NL]
  ++ py "Respond with ONLY valid JSON, no markdown fences.".

Definition fence : pystr := py "```".

(** The end of a run on an exception raised inside the [try]. *)
Definition on_exception (session : Session) (memory : MemoryStore)
    (saved : option Session) (step : Step) (e : exn) : Run :=
  {| run_session := session; run_memory := memory; run_saved := saved;
     run_ending := if exc_is_Exception e then Failed step e
                   else Propagated step e |}.

(** The body of the [try] from the parsed [result] on. *)
Definition apply_result (env : Env) (session : Session)
    (memory : MemoryStore) (archive_all persist_session : bool)
    (current_memory : pystr) (next_last_consolidated : Z)
    (now_iso : pystr) (result : gmap pystr pyval) : Run :=
  let history_step :=
    match result !! py "history_entry" with
    | Some entry =>
        if truthy_val entry then
          match entry with
          | VStr e =>
              match append_error env with
              | Some failure =>
                  inr (append_history_failed failure memory, raised failure)
              | None => inl (append_history e memory)
              end
          | _ =>
              (* the file is opened before [entry.rstrip()] is evaluated *)
              match append_error env with
              | Some (OpenRaises x) => inr (memory, x)
              | _ => inr (append_text [] memory, AttributeError "rstrip")
              end
          end
        else inl memory
    | None => inl memory
    end in
  match history_step with
  | inr (memory', e) => on_exception session memory' None HistoryWrite e
  | inl memory1 =>
      let memory_step :=
        match result !! py "memory_update" with
        | Some update =>
            if truthy_val update then
              match update with
              | VStr u =>
                  if bool_decide (u ≠ current_memory) then
                    match write_error env with
                    | Some failure =>
                        inr (write_long_term_failed failure memory1,
                             raised failure)
                    | None => inl (write_long_term u memory1)
                    end
                  else inl memory1
              | _ =>
                  (* [Path.write_text] checks the type before it opens *)
                  inr (memory1, TypeError "data must be str")
              end
            else inl memory1
        | None => inl memory1
        end in
      match memory_step with
      | inr (memory', e) => on_exception session memory' None MemoryWrite e
      | inl memory2 =>
          let session' :=
            {| key := key session;
               messages := messages session;
               last_consolidated := next_last_consolidated;
               last_consolidated_at := Some now_iso |} in
          if persist_session && negb archive_all then
            match save_error env with
            | Some x => on_exception session' memory2 None SessionSave x
            | None =>
                {| run_session := session'; run_memory := memory2;
                   run_saved := Some session'; run_ending := Done |}
            end
          else
            {| run_session := session'; run_memory := memory2;
               run_saved := None; run_ending := Done |}
      end
  end.

(** [old_messages[a:b]] of a list, for [a] and [b] that may be negative
    (counted from the end) or out of range. *)
Definition slice_index (len i : Z) : nat :=
  Z.to_nat (Z.min len (if i <? 0 then Z.max 0 (len + i) else i)).

Definition slice_list {A} (a b : Z) (l : list A) : list A :=
  let len := Z.of_nat (length l) in
  take (slice_index len b - slice_index len a)%nat
       (drop (slice_index len a) l).

(** [AgentLoop._consolidate_memory] *)
Definition _consolidate_memory `{Clock} (self : AgentLoop) (env : Env)
    (memory : MemoryStore) (session : Session)
    (archive_all persist_session : bool) : Run :=
  let stop ending :=
    {| run_session := session; run_memory := memory; run_saved := None;
       run_ending := ending |} in
  let total_messages := Z.of_nat (length (messages session)) in
  let selected :=
    if archive_all then Some (messages session, 0)
    else
      let keep_count := _compression_keep_count self in
      if total_messages <=? keep_count then None
      else
        let compress_end := total_messages - keep_count in
        let delta := compress_end - last_consolidated session in
        if delta <=? 0 then None
        else
          let old_messages :=
            slice_list (last_consolidated session) compress_end
                       (messages session) in
          match old_messages with
          | [] => None
          | _ => Some (old_messages, compress_end)
          end in
  match selected with
  | None => stop NothingToConsolidate
  | Some (old_messages, next_last_consolidated) =>
      let lines := omap conversation_line old_messages in
      let conversation := join [NL] lines in
      match read_error env with
      | Some e => stop (Propagated ReadMemory e)
      | None =>
          let current_memory := read_long_term memory in
          let prompt := consolidation_prompt current_memory conversation in
          match provider_chat env consolidation_system prompt with
          | Raises e => on_exception session memory None LLMCall e
          | Returns response =>
              let text := strip (default [] (Provider.content response)) in
              match text with
              | [] => stop EmptyResponse
              | _ =>
                  let text :=
                    match strip_prefix fence text with
                    | Some _ =>
                        strip (rsplit1_first fence (split1_last [NL] text))
                    | None => text
                    end in
                  match json_repair_loads env text with
                  | Raises e => on_exception session memory None JsonParse e
                  | Returns (VDict result) =>
                      apply_result env session memory archive_all
                        persist_session current_memory
                        next_last_consolidated now_isoformat result
                  | Returns _ => stop UnexpectedType
                  end
              end
          end
      end
  end.

(** *** The tool-calling loop *)

(** An entry of [tool_call_dicts]: [id] and, under [function], [name] and
    the arguments as JSON text; [type] is always ["function"]. *)
Record ToolCallDict := {
  d_id : pystr;
  d_name : option pystr;
  d_arguments : pystr;
}.

(** The dicts of the [messages] list. *)
Inductive ChatMessage :=
| Built (role : pystr) (content : pyval)
| Assistant (content : option pystr) (tool_calls : list ToolCallDict)
            (reasoning_content : option pystr)
| ToolResult (tool_call_id : pystr) (name : option pystr) (content : pystr).

(** [ContextBuilder.add_assistant_message]: a key is set only for a
    value that is not empty. *)
Definition add_assistant_message (messages : list ChatMessage)
    (content : option pystr) (tool_calls : list ToolCallDict)
    (reasoning_content : option pystr) : list ChatMessage :=
  messages ++
  [Assistant (if truthy content then content else None) tool_calls
             (if truthy reasoning_content then reasoning_content else None)].

(** [ContextBuilder.add_tool_result] *)
Definition add_tool_result (messages : list ChatMessage)
    (tool_call_id : pystr) (tool_name : option pystr) (result : pystr)
    : list ChatMessage :=
  messages ++ [ToolResult tool_call_id tool_name result].

(** What the loop calls: the provider (its answer in round [iteration]
    to [messages]), the tool registry and [json.dumps]. *)
Class Tools := {
  chat : Z → list ChatMessage → outcome LLMResponse;
  (** Modelled from the spec: [ToolRegistry.execute] of
      [nanobot/agent/tools/registry.py], which is not among the sources;
      it returns a text and does not raise. *)
  execute : list ChatMessage → option pystr → pyval → pystr;
  (** [json.dumps(value, ensure_ascii=flag)] *)
  json_dumps : bool → pyval → pystr;
}.

Section WithTools.
Context `{Tools}.

Definition log_entry : Type := option pystr * pystr * pystr.

(** [response.finish_reason or "unknown"] *)
Definition or_unknown (finish_reason : pystr) : pystr :=
  match finish_reason with
  | [] => py "unknown"
  | fr => fr
  end.

(** The body of [for tool_call in response.tool_calls]. *)
Definition run_tool_call (acc : list ChatMessage * list log_entry)
    (tool_call : ToolCallRequest) : list ChatMessage * list log_entry :=
  let '(messages, tool_use_log) := acc in
  let args_str := json_dumps false (tc_arguments tool_call) in
  let result :=
    execute messages (tc_name tool_call) (tc_arguments tool_call) in
  (add_tool_result messages (tc_id tool_call) (tc_name tool_call) result,
   tool_use_log ++
   [(tc_name tool_call,
     take 100 args_str
       ++ (if (100 <? length args_str)%nat then py "..." else []),
     if (200 <? length result)%nat
     then take 200 result ++ py "...(truncated)" else result)]).

Definition blank (content : option pystr) : bool :=
  match content with
  | None => true
  | Some s => match strip s with [] => true | _ => false end
  end.

Definition empty_response_text (self : AgentLoop)
    (last_finish_reason : pystr) (iteration : Z) : pystr :=
  py "I could not produce a final response because the model returned empty/blank content "
  ++ py "(finish_reason=" ++ last_finish_reason
  ++ py ", iteration=" ++ str_of_int iteration ++ py "/"
  ++ str_of_int (max_iterations self) ++ py "). "
  ++ py "Please retry.".

Definition iteration_limit_text (self : AgentLoop)
    (last_finish_reason : pystr) : pystr :=
  py "I stopped before a final response because the tool-call loop hit the iteration limit "
  ++ py "(" ++ str_of_int (max_iterations self)
  ++ py "). Last finish_reason=" ++ last_finish_reason ++ py ". "
  ++ py "Please retry with a narrower request or increase agents.defaults.max_tool_iterations.".

(** The [while iteration < self.max_iterations] loop, with
    [remaining = max_iterations - iteration] rounds to go; it gives
    [final_content] ([None] if no round broke out of the loop),
    [last_finish_reason] and [tool_use_log]. *)
Fixpoint iterations (self : AgentLoop) (remaining : nat) (iteration : Z)
    (messages : list ChatMessage) (last_finish_reason : pystr)
    (tool_use_log : list log_entry) (stashed_content : option pystr)
    : outcome (option pystr * pystr * list log_entry) :=
  match remaining with
  | O => Returns (None, last_finish_reason, tool_use_log)
  | S remaining' =>
      let iteration := iteration + 1 in
      match chat iteration messages with
      | Raises e => Raises e
      | Returns response =>
          let last_finish_reason := or_unknown (finish_reason response) in
          if has_tool_calls response then
            let tool_call_dicts :=
              (λ tc, {| d_id := tc_id tc; d_name := tc_name tc;
                        d_arguments := json_dumps true (tc_arguments tc) |})
                <$> tool_calls response in
            let messages :=
              add_assistant_message messages (Provider.content response)
                tool_call_dicts (reasoning_content response) in
            let stashed_content :=
              if negb (blank (Provider.content response))
              then Provider.content response else stashed_content in
            let '(messages, tool_use_log) :=
              foldl run_tool_call (messages, tool_use_log)
                    (tool_calls response) in
            iterations self remaining' iteration messages last_finish_reason
                       tool_use_log stashed_content
          else
            let final_content :=
              if blank (Provider.content response) then
                if existsb (λ '(name, _, _),
                              bool_decide (name = Some (py "message")))
                           tool_use_log
                then []
                else if truthy stashed_content
                then default [] stashed_content
                else empty_response_text self last_finish_reason iteration
              else default [] (Provider.content response) in
            Returns (Some final_content, last_finish_reason, tool_use_log)
      end
  end.

(** [AgentLoop._run_agent_loop] *)
Definition _run_agent_loop (self : AgentLoop)
    (initial_messages : list ChatMessage)
    : outcome (pystr * pystr * list log_entry) :=
  match iterations self (Z.to_nat (max_iterations self)) 0 initial_messages
                   (py "unknown") [] None with
  | Raises e => Raises e
  | Returns (final_content, last_finish_reason, tool_use_log) =>
      let final_content :=
        match final_content with
        | Some text => text
        | None => iteration_limit_text self last_finish_reason
        end in
      Returns (final_content, last_finish_reason, tool_use_log)
  end.

End WithTools.

End Loop.

(* ===================================================================== *)
(** ** History clean-up for Gemini proxies ([nanobot/providers/litellm_provider.py]) *)
(* ===================================================================== *)

Module GeminiProxy.
Import Provider.

(** A message of the request: a [dict[str, Any]]. *)
Abbreviation message := (gmap pystr pyval).

Section WithLower.
(** [str.lower] *)
Variable lower : pystr → pystr.

(** [needle in text] *)
Definition contains (needle text : pystr) : bool :=
  match find_in needle text with Some _ => true | None => false end.

(** [LiteLLMProvider._is_custom_gemini_proxy] *)
Definition _is_custom_gemini_proxy (model : pystr) (api_base : option pystr)
    : bool :=
  if negb (contains (py "gemini/") (lower model)) then false
  else if negb (truthy api_base) then false
  else
    let base := lower (default [] api_base) in
    negb (contains (py "generativelanguage.googleapis.com") base).

Definition unhashable (type_name : string) : exn :=
  {| exc_type := py "TypeError";
     exc_str := py "unhashable type: '" ++ py type_name ++ py "'";
     exc_is_Exception := true |}.

Definition text_roles : list pystr := [py "system"; py "user"; py "assistant"].

(** [entry.pop("tool_calls", None)], [entry.pop("tool_call_id", None)] and
    [entry.pop("name", None)] on a copy of [msg]. *)
Definition without_tool_keys (msg : message) : message :=
  delete (py "name") (delete (py "tool_call_id") (delete (py "tool_calls") msg)).

(** The body of [for msg in messages]: the entry appended, [None] where
    the round ends in [continue]; the membership test raises for a role
    that cannot be hashed. *)
Definition normalize_message (msg : message) : outcome (option message) :=
  match msg !! py "role" with
  | Some (VList _) => Raises (unhashable "list")
  | Some (VDict _) => Raises (unhashable "dict")
  | Some (VStr role) =>
      if bool_decide (role ∈ text_roles) then
        let entry := without_tool_keys msg in
        if bool_decide (role = py "assistant") then
          match entry !! py "content" with
          | None | Some VNone => Returns None
          | Some (VStr content) =>
              match strip content with
              | [] => Returns None
              | _ => Returns (Some entry)
              end
          | Some _ => Returns (Some entry)
          end
        else Returns (Some entry)
      else Returns None
  | _ => Returns None
  end.

(** The loop: [normalized]. *)
Fixpoint normalize (messages : list message) : outcome (list message) :=
  match messages with
  | [] => Returns []
  | msg :: rest =>
      match normalize_message msg with
      | Raises e => Raises e
      | Returns entry =>
          match normalize rest with
          | Raises e => Raises e
          | Returns normalized => Returns (option_list entry ++ normalized)
          end
      end
  end.

(** [LiteLLMProvider._prepare_messages_for_gemini_stream_proxy] *)
Definition _prepare_messages_for_gemini_stream_proxy
    (messages : list message) (model : pystr) (api_base : option pystr)
    : outcome (list message) :=
  if negb (_is_custom_gemini_proxy model api_base) then Returns messages
  else
    match normalize messages with
    | Raises e => Raises e
    | Returns [] => Returns messages
    | Returns normalized => Returns normalized
    end.

End WithLower.

End GeminiProxy.

(* ===================================================================== *)
(** ** The reply to an inbound message ([AgentLoop._process_message]) *)
(* ===================================================================== *)

Module Reply.
Import Silent.

(** What [_process_message] returns for a chat message: no
    [OutboundMessage], the one with empty content and [silent=True], or one
    with a content. *)
Inductive reply :=
| NoReply
| SilentReply
| TextReply (content : pystr).

(** The statements of [_process_message] between the return of
    [_run_agent_loop] and its own [return]: the content stored in the
    session, and the reply. *)
Definition process_message_reply (final_content : pystr) : pystr * reply :=
  let silent_requested := _contains_silent_marker (Some final_content) in
  let final_content :=
    default (py "I've completed processing but have no response to give.")
            (_strip_silent_marker (Some final_content)) in
  (final_content,
   if silent_requested then SilentReply
   else if truthy (Some final_content) then TextReply final_content
   else NoReply).

End Reply.

(* ===================================================================== *)
(** ** Scheduling consolidation runs ([AgentLoop._schedule_consolidation]) *)
(* ===================================================================== *)

Module Schedule.

(** The two sets of session keys of [AgentLoop], and the keys of the
    tasks that [asyncio.create_task] started and that have not finished. *)
Record Scheduler := {
  _consolidation_running_keys : gset pystr;
  _consolidation_pending_keys : gset pystr;
  tasks : list pystr;
}.

(** [AgentLoop.__init__], for these fields. *)
Definition new_scheduler : Scheduler :=
  {| _consolidation_running_keys := ∅;
     _consolidation_pending_keys := ∅;
     tasks := [] |}.

(** [AgentLoop._schedule_consolidation] for the session with this key. *)
Definition _schedule_consolidation (key : pystr) (self : Scheduler)
    : Scheduler :=
  if bool_decide (key ∈ _consolidation_running_keys self) then
    {| _consolidation_running_keys := _consolidation_running_keys self;
       _consolidation_pending_keys := {[key]} ∪ _consolidation_pending_keys self;
       tasks := tasks self |}
  else
    {| _consolidation_running_keys := {[key]} ∪ _consolidation_running_keys self;
       _consolidation_pending_keys := _consolidation_pending_keys self;
       tasks := tasks self ++ [key] |}.

(** The list without the first occurrence of [key]. *)
Fixpoint remove_first (key : pystr) (l : list pystr) : list pystr :=
  match l with
  | [] => []
  | k :: t => if bool_decide (k = key) then t else k :: remove_first key t
  end.

(** The [finally] of [_run_for_session], run when the task of [key] ends
    (however [_consolidate_memory] ended); [should] is what
    [_should_schedule_consolidation(session)] gives at that moment. *)
Definition _run_for_session_finally (key : pystr) (should : bool)
    (self : Scheduler) : Scheduler :=
  let self :=
    {| _consolidation_running_keys := _consolidation_running_keys self ∖ {[key]};
       _consolidation_pending_keys := _consolidation_pending_keys self;
       tasks := remove_first key (tasks self) |} in
  if bool_decide (key ∈ _consolidation_pending_keys self) then
    let self :=
      {| _consolidation_running_keys := _consolidation_running_keys self;
         _consolidation_pending_keys :=
           _consolidation_pending_keys self ∖ {[key]};
         tasks := tasks self |} in
    if should then _schedule_consolidation key self else self
  else self.

(** What happens to the scheduler: a request to consolidate a session,
    or the end of a task. *)
Inductive event :=
| Request (key : pystr)
| TaskEnds (key : pystr) (should : bool).

(** One event; only a task that is live can end. *)
Definition step (self : Scheduler) (ev : event) : Scheduler :=
  match ev with
  | Request key => _schedule_consolidation key self
  | TaskEnds key should =>
      if bool_decide (key ∈ tasks self)
      then _run_for_session_finally key should self
      else self
  end.

End Schedule.

(* ===================================================================== *)
(** ** Sending with an acknowledgement ([AgentLoop._publish_outbound_with_ack]) *)
(* ===================================================================== *)

Module Ack.
Import Bus Provider.

(** The operations of the bus. *)
Inductive bus_op :=
| Publish (msg : InboundMessage)
| Consume
| Complete (msg : InboundMessage)
| CreateWaiter (request_id : pystr)
| ResolveWaiter (request_id : option pystr) (success : bool)
                (error : option pystr)
| DiscardWaiter (request_id : option pystr).

(** One operation; a [Consume] on an empty queue waits and changes
    nothing. *)
Definition run_op (bus : MessageBus) (op : bus_op) : MessageBus :=
  match op with
  | Publish msg => publish_inbound msg bus
  | Consume => match consume_inbound bus with
               | Some (_, bus') => bus'
               | None => bus
               end
  | Complete msg => complete_inbound_turn msg bus
  | CreateWaiter request_id => (create_outbound_waiter request_id bus).2
  | ResolveWaiter request_id success error =>
      resolve_outbound_waiter request_id success error bus
  | DiscardWaiter request_id => discard_outbound_waiter request_id bus
  end.

Definition runtime_error (msg : pystr) : exn :=
  {| exc_type := py "RuntimeError"; exc_str := msg; exc_is_Exception := true |}.

(** [asyncio.CancelledError] derives from [BaseException]. *)
Definition CancelledError : exn :=
  {| exc_type := py "CancelledError"; exc_str := [];
     exc_is_Exception := false |}.

(** [fut.cancel()] on the future stored at [a]. *)
Definition cancel (a : nat) (fs : list future) : list future :=
  if pending_at fs a then <[a := Cancelled]> fs else fs.

(** [AgentLoop._publish_outbound_with_ack] for a message whose
    [request_id] is [msg_request_id], with [uuid4_hex] the identifier
    drawn and [during] what the other tasks do on the bus while the call
    waits for its waiter.  [publish_outbound] puts the message on the
    outbound queue and leaves the waiters alone.  The wait ends with the
    result of the waiter, or, if it is still pending, with the timeout of
    [asyncio.wait_for], which cancels the waiter. *)
Definition _publish_outbound_with_ack (msg_request_id : option pystr)
    (uuid4_hex : pystr) (during : list bus_op) (bus : MessageBus)
    : outcome () * MessageBus :=
  let request_id :=
    if truthy msg_request_id then default [] msg_request_id
    else py "out_" ++ take 12 uuid4_hex in
  let '(waiter, bus) := create_outbound_waiter request_id bus in
  let bus := foldl run_op bus during in
  match futures bus !! waiter with
  | Some (Result success error) =>
      if success then (Returns (), bus)
      else
        (Raises (runtime_error (if truthy error then default [] error
                               else py "Message delivery failed")),
         bus)
  | Some Cancelled => (Raises CancelledError, bus)
  | Some Pending | None =>
      let bus :=
        with_waiters (_outbound_waiters bus) (cancel waiter (futures bus))
                     bus in
      let bus := discard_outbound_waiter (Some request_id) bus in
      (Raises (runtime_error
                 (py "Message delivery acknowledgement timeout after 15s")),
       bus)
  end.

End Ack.

(* ===================================================================== *)
(** ** Splitting long Telegram messages ([nanobot/channels/telegram.py]) *)
(* ===================================================================== *)

Module Telegram.

(** [s.rfind(c)] for one character; [None] is the result [-1]. *)
Fixpoint rfind (c : N) (s : pystr) : option nat :=
  match s with
  | [] => None
  | x :: t =>
      match rfind c t with
      | Some i => Some (S i)
      | None => if (x =? c)%N then Some 0%nat else None
      end
  end.

(** Where a text longer than [max_len] is cut: at the last newline of
    its first [max_len] code points, else at their last space, else after
    them. *)
Definition cut_position (max_len : nat) (content : pystr) : nat :=
  let cut := take max_len content in
  match rfind NL cut with
  | Some pos => pos
  | None =>
      match rfind 32 cut with
      | Some pos => pos
      | None => max_len
      end
  end.

(** The [while content] loop of [_split_message].  For [max_len >= 1]
    every round shortens [content], so [length content] rounds are enough;
    [fuel] bounds the rounds ([split_loop_fuel] shows that this bound is
    never what ends the loop). *)
Fixpoint split_loop (fuel : nat) (max_len : nat) (content : pystr)
    (chunks : list pystr) : list pystr :=
  match content with
  | [] => chunks
  | _ :: _ =>
      if (length content <=? max_len)%nat then chunks ++ [content]
      else
        match fuel with
        | O => chunks
        | S fuel' =>
            let pos := cut_position max_len content in
            split_loop fuel' max_len (lstrip (drop pos content))
                       (chunks ++ [take pos content])
        end
  end.

(** [_split_message], for a [max_len] that is not negative. *)
Definition _split_message (content : pystr) (max_len : nat) : list pystr :=
  if (length content <=? max_len)%nat then [content]
  else split_loop (length content) max_len content [].

End Telegram.

(* ===================================================================== *)
(** ** The message tool ([nanobot/agent/tools/message.py]) *)
(* ===================================================================== *)

Module MessageTool.

(** Modelled from the spec: [OutboundMessage] of [nanobot/bus/events.py],
    which is not among the sources, with the fields the tool sets. *)
Record OutboundMessage := {
  channel : pystr;
  chat_id : pystr;
  content : pystr;
  media : list pystr;
  sticker_id : option pystr;
  reaction : option pystr;
  reaction_message_id : option Z;
  metadata : gmap pystr pyval;
}.

(** The tool: the callback ([None] when not configured; it returns or
    raises) and the defaults set by [set_context]. *)
Record MessageTool := {
  _send_callback : option (OutboundMessage → Provider.outcome ());
  _default_channel : pystr;
  _default_chat_id : pystr;
  _default_metadata : gmap pystr pyval;
}.

(** [MessageTool.set_context] *)
Definition set_context (channel chat_id : pystr)
    (metadata : option (gmap pystr pyval)) (self : MessageTool) : MessageTool :=
  {| _send_callback := _send_callback self;
     _default_channel := channel;
     _default_chat_id := chat_id;
     _default_metadata := default ∅ metadata |}.

(** [(value or "").strip() or None] *)
Definition stripped_or_none (value : option pystr) : option pystr :=
  match strip (default [] value) with
  | [] => None
  | s => Some s
  end.

(** [value or fallback] *)
Definition or_else (value : option pystr) (fallback : pystr) : pystr :=
  if truthy value then default [] value else fallback.

(** Truthiness of an [int | None]. *)
Definition truthy_int (z : option Z) : bool :=
  match z with Some z => negb (z =? 0)%Z | None => false end.

Definition truthy_list {A} (l : option (list A)) : bool :=
  match l with Some (_ :: _) => true | _ => false end.

Section WithPaths.
(** [str(Path(p).expanduser())]: the expanded path, or the
    [RuntimeError] raised when the home directory of a [~] or [~user]
    prefix cannot be determined. *)
Variable expanduser : pystr → Provider.outcome pystr.

(** The list comprehension [[str(Path(p).expanduser()) for p in media]]:
    the first exception ends it. *)
Fixpoint expand_all (paths : list pystr) : Provider.outcome (list pystr) :=
  match paths with
  | [] => Provider.Returns []
  | p :: rest =>
      match expanduser p with
      | Provider.Raises e => Provider.Raises e
      | Provider.Returns q =>
          match expand_all rest with
          | Provider.Raises e => Provider.Raises e
          | Provider.Returns qs => Provider.Returns (q :: qs)
          end
      end
  end.

(** [MessageTool.execute]: the message handed to the callback, if the
    callback was called, and the text returned (or the exception that
    leaves the method).  The message is built, and its paths expanded,
    before the [try]. *)
Definition execute (self : MessageTool) (content channel chat_id : option pystr)
    (media : option (list pystr)) (sticker_id reaction : option pystr)
    (message_id : option Z)
    : option OutboundMessage * Provider.outcome pystr :=
  let channel := or_else channel (_default_channel self) in
  let chat_id := or_else chat_id (_default_chat_id self) in
  let text := or_else content [] in
  let sticker_id := stripped_or_none sticker_id in
  let reaction := stripped_or_none reaction in
  if negb (truthy (Some channel)) || negb (truthy (Some chat_id)) then
    (None, Provider.Returns (py "Error: No target channel/chat specified"))
  else
    match _send_callback self with
    | None =>
        (None, Provider.Returns (py "Error: Message sending not configured"))
    | Some send =>
        if negb (truthy (Some text)) && negb (truthy_list media)
           && negb (truthy sticker_id) && negb (truthy reaction)
        then (None, Provider.Returns (py "Error: Provide at least one of content, media, sticker_id, or reaction"))
        else if truthy sticker_id && bool_decide (channel ≠ py "telegram")
        then (None, Provider.Returns (py "Error: sticker_id is only supported on telegram channel"))
        else if truthy reaction && negb (truthy_int message_id)
        then (None, Provider.Returns (py "Error: reaction requires message_id"))
        else if truthy reaction && bool_decide (channel ≠ py "telegram")
        then (None, Provider.Returns (py "Error: reaction is only supported on telegram channel"))
        else
          let metadata :=
            if truthy reaction then
              <[py "reaction_message_id" :=
                  match message_id with Some z => VInt z | None => VNone end]>
                (<[py "reaction" := VStr (default [] reaction)]>
                   (_default_metadata self))
            else _default_metadata self in
          match (if truthy_list media then expand_all (default [] media)
                 else Provider.Returns []) with
          | Provider.Raises e => (None, Provider.Raises e)
          | Provider.Returns paths =>
          let msg :=
            {| channel := channel;
               chat_id := chat_id;
               content := text;
               media := paths;
               sticker_id := sticker_id;
               reaction := reaction;
               reaction_message_id := message_id;
               metadata := metadata |} in
          match send msg with
          | Provider.Returns _ =>
              let parts :=
                [py "Message delivered to " ++ channel ++ py ":" ++ chat_id]
                ++ (if truthy reaction
                    then [py " with reaction " ++ default [] reaction
                          ++ py " on message "
                          ++ match message_id with
                             | Some z => str_of_int z
                             | None => py "None"
                             end]
                    else [])
                ++ (if truthy sticker_id then [py " with 1 sticker"] else [])
                ++ (if truthy_list media
                    then [py " with "
                          ++ str_of_int
                               (Z.of_nat (length (default [] media)))
                          ++ py " attachment(s)"]
                    else []) in
              (Some msg, Provider.Returns (mjoin parts))
          | Provider.Raises e =>
              if Provider.exc_is_Exception e
              then (Some msg,
                    Provider.Returns (py "Error sending message: "
                                      ++ Provider.exc_str e))
              else (Some msg, Provider.Raises e)
          end
          end
    end.

End WithPaths.

End MessageTool.

(* ===================================================================== *)
(** ** The rounds of [AgentLoop.run] on the inbound queue *)
(* ===================================================================== *)

Module RunLoop.
Import Bus.

(** What happens on the inbound side of the bus while [AgentLoop.run]
    runs: someone publishes a message, or the loop goes through one
    round. *)
Inductive inbound_event :=
| Arrives (msg : InboundMessage)
| Round.

(** One round of the [while self._running] loop of [AgentLoop.run], as
    far as the inbound side of the bus goes: [consume_inbound] (the round
    is over when the wait times out on an empty queue), then the message is
    given to [_process_message] and the response goes to the outbound
    side.  The loop calls no other method of the inbound side.
    [processed] collects the messages given to [_process_message]. *)
Definition run_round (state : MessageBus * list InboundMessage)
    : MessageBus * list InboundMessage :=
  let '(bus, processed) := state in
  match consume_inbound bus with
  | Some (msg, bus) => (bus, processed ++ [msg])
  | None => (bus, processed)
  end.

Definition run_step (state : MessageBus * list InboundMessage)
    (ev : inbound_event)
    : MessageBus * list InboundMessage :=
  match ev with
  | Arrives msg => (publish_inbound msg state.1, state.2)
  | Round => run_round state
  end.

End RunLoop.

(* ===================================================================== *)
(** * Properties *)
(* ===================================================================== *)

Module PyFacts.

Lemma strip_prefix_Some lit s r :
  strip_prefix lit s = Some r ↔ s = lit ++ r.
Proof.
  revert s. induction lit as [|a lit IH]; intros s; simpl.
  - split; congruence.
  - destruct s as [|b s]; [split; discriminate|].
    destruct (N.eqb_spec a b) as [->|Hne].
    + rewrite IH. split; congruence.
    + split; [discriminate | congruence].
Qed.

Lemma forallb_Forall {A} (p : A → bool) (l : list A) :
  forallb p l = true ↔ Forall (λ x, p x = true) l.
Proof.
  induction l as [|x l IH]; simpl; [by split|].
  rewrite andb_true_iff, IH. split.
  - intros [??]. by constructor.
  - by inversion 1.
Qed.

Lemma drop_while_split {A} (p : A → bool) (l : list A) :
  ∃ w, l = w ++ drop_while p l ∧ forallb p w = true.
Proof.
  induction l as [|x l [w [Hl Hw]]]; simpl.
  - by exists [].
  - destruct (p x) eqn:Hx.
    + exists (x :: w). simpl. rewrite Hx, Hw. split; [congruence | done].
    + by exists [].
Qed.

Lemma take_drop_while {A} (p : A → bool) (l : list A) :
  take_while p l ++ drop_while p l = l.
Proof.
  induction l as [|x l IH]; simpl; [done|].
  destruct (p x); simpl; [by rewrite IH | done].
Qed.

Lemma forallb_take_while {A} (p : A → bool) (l : list A) :
  forallb p (take_while p l) = true.
Proof.
  induction l as [|x l IH]; simpl; [done|].
  destruct (p x) eqn:Hx; simpl; [by rewrite Hx | done].
Qed.

Lemma drop_while_head {A} (p : A → bool) (l : list A) x r :
  drop_while p l = x :: r → p x = false.
Proof.
  induction l as [|y l IH]; simpl; [done|].
  destruct (p y) eqn:Hy; [done|]. by intros [= <- _].
Qed.

Lemma drop_while_stop {A} (p : A → bool) (w : list A) x r :
  forallb p w = true → p x = false → drop_while p (w ++ x :: r) = x :: r.
Proof.
  intros Hw Hx. induction w as [|y w IH]; simpl in *.
  - by rewrite Hx.
  - apply andb_true_iff in Hw as [-> Hw]. by apply IH.
Qed.

Lemma take_while_stop {A} (p : A → bool) (w : list A) x r :
  forallb p w = true → p x = false → take_while p (w ++ x :: r) = w.
Proof.
  intros Hw Hx. induction w as [|y w IH]; simpl in *.
  - by rewrite Hx.
  - apply andb_true_iff in Hw as [-> Hw]. by rewrite IH.
Qed.

Lemma drop_while_length {A} (p : A → bool) (l : list A) :
  (length (drop_while p l) ≤ length l)%nat.
Proof.
  induction l as [|x l IH]; simpl; [done|]. destruct (p x); simpl; lia.
Qed.

Lemma lstrip_split s : ∃ w, s = w ++ lstrip s ∧ forallb isspace w = true.
Proof. apply drop_while_split. Qed.

Lemma rstrip_split s : ∃ w, s = rstrip s ++ w ∧ forallb isspace w = true.
Proof.
  unfold rstrip.
  destruct (drop_while_split isspace (rev s)) as [w [Hs Hw]].
  exists (rev w). split.
  - rewrite <- rev_app_distr, <- Hs. by rewrite rev_involutive.
  - rewrite forallb_forall in *. intros x Hx. apply Hw. by apply in_rev.
Qed.

Lemma flush_newlines_all r : Forall (λ c, c = NL) (flush_newlines r).
Proof. unfold flush_newlines. apply Forall_replicate. done. Qed.

Lemma flush_newlines_nil r : flush_newlines r = [] → r = 0%nat.
Proof.
  unfold flush_newlines. destruct (3 <=? r)%nat eqn:E; [discriminate|].
  by destruct r.
Qed.

Lemma collapse_from_nil r s :
  collapse_newlines_from r s = [] → r = 0%nat ∧ s = [].
Proof.
  revert r. induction s as [|c t IH]; intros r; simpl.
  - intros H. split; [by apply flush_newlines_nil | done].
  - destruct (c =? NL)%N.
    + intros H. apply IH in H as [? _]. lia.
    + intros H. by apply app_eq_nil in H as [_ ?].
Qed.

(** Splitting an equation between two lists at their first code point
    that is not a newline. *)
Lemma newlines_cons_split (l1 W u v : pystr) c x :
  Forall (λ c, c = NL) l1 → c ≠ NL → x ≠ NL →
  l1 ++ c :: W = u ++ x :: v →
  (u = l1 ∧ x = c ∧ v = W) ∨ (∃ u', u = l1 ++ c :: u' ∧ W = u' ++ x :: v).
Proof.
  intros Hl Hc Hx. revert u. induction Hl as [|n l1 -> Hl IH]; intros u; simpl.
  - destruct u as [|y u]; simpl; intros [= -> ->]; [by left | right; eauto].
  - destruct u as [|y u]; simpl; intros [= E1 E2]; [congruence|]. subst y.
    destruct (IH _ E2) as [(-> & -> & ->)|(u' & -> & ->)]; [by left|right; eauto].
Qed.

(** A code point of the output that is not a newline comes from the same
    code point of the input, and the scan restarts after it. *)
Lemma collapse_from_inv r s u x v :
  x ≠ NL → collapse_newlines_from r s = u ++ x :: v →
  ∃ s1 s2, s = s1 ++ x :: s2
           ∧ collapse_newlines_from r s1 = u
           ∧ collapse_newlines_from 0 s2 = v.
Proof.
  intros Hx. revert r u. induction s as [|c t IH]; intros r u; simpl.
  - intros H. pose proof (flush_newlines_all r) as Hall. rewrite H in Hall.
    apply Forall_app in Hall as [_ Hall]. by inversion Hall.
  - destruct (N.eqb_spec c NL) as [->|Hc].
    + intros H. destruct (IH _ _ H) as (s1 & s2 & -> & <- & <-).
      exists (NL :: s1), s2. by simpl.
    + intros H.
      destruct (newlines_cons_split _ _ _ _ _ _ (flush_newlines_all r) Hc Hx H)
        as [(-> & -> & ->)|(u' & -> & H')].
      * by exists [], t.
      * destruct (IH _ _ H') as (s1 & s2 & -> & <- & <-).
        exists (c :: s1), s2. simpl.
        destruct (N.eqb_spec c NL); [done|]. done.
Qed.

Lemma collapse_inv_literal (L : pystr) s v :
  Forall (λ c, c ≠ NL) L → collapse_newlines_from 0 s = L ++ v →
  ∃ s', s = L ++ s' ∧ collapse_newlines_from 0 s' = v.
Proof.
  intros HL. revert s. induction HL as [|x L Hx HL IH]; intros s; simpl.
  - eauto.
  - intros H. destruct (collapse_from_inv 0 s [] x _ Hx H) as (s1 & s2 & -> & H1 & H2).
    apply collapse_from_nil in H1 as [_ ->].
    destruct (IH _ H2) as (s' & -> & <-). eauto.
Qed.

Lemma collapse_from_Forall (P : N → Prop) r s :
  P NL → Forall P (collapse_newlines_from r s) → Forall P s.
Proof.
  intros HP. revert r. induction s as [|c t IH]; intros r; simpl; [done|].
  destruct (N.eqb_spec c NL) as [->|Hc]; intros H.
  - constructor; eauto.
  - apply Forall_app in H as [_ H]. inversion H; subst. constructor; eauto.
Qed.

(** *** Collapsing newlines, in the words of the specification *)

(** The maximal runs of equal code points of a text, in order: the code
    point of each run and its length. *)
Fixpoint runs (s : pystr) : list (N * nat) :=
  match s with
  | [] => []
  | c :: t =>
      match runs t with
      | (d, n) :: rs =>
          if (c =? d)%N then (c, S n) :: rs else (c, 1%nat) :: (d, n) :: rs
      | [] => [(c, 1%nat)]
      end
  end.

(** A run of three or more newlines becomes two newlines; any other run
    is kept. *)
Definition squeeze_run (run : N * nat) : pystr :=
  if (run.1 =? NL)%N && (3 <=? run.2)%nat then [NL; NL]
  else replicate run.2 run.1.

Definition newline_runs_collapsed (s : pystr) : pystr :=
  mjoin (squeeze_run <$> runs s).

Lemma runs_cons c t : ∃ n rs, runs (c :: t) = (c, S n) :: rs.
Proof.
  simpl. destruct (runs t) as [|[d n] rs]; [by eauto|].
  destruct (N.eqb_spec c d) as [->|Hne]; eauto.
Qed.

Lemma runs_replicate_app r c d u :
  c ≠ d →
  runs (replicate (S r) c ++ d :: u) = (c, S r) :: runs (d :: u).
Proof.
  intros Hne. induction r as [|r IH].
  - destruct (runs_cons d u) as (n & rs & E).
    change (runs (replicate 1 c ++ d :: u))
      with (match runs (d :: u) with
            | (d, n) :: rs =>
                if (c =? d)%N then (c, S n) :: rs
                else (c, 1%nat) :: (d, n) :: rs
            | [] => [(c, 1%nat)]
            end).
    rewrite E. by destruct (N.eqb_spec c d).
  - change (runs (replicate (S (S r)) c ++ d :: u))
      with (match runs (replicate (S r) c ++ d :: u) with
            | (d, n) :: rs =>
                if (c =? d)%N then (c, S n) :: rs
                else (c, 1%nat) :: (d, n) :: rs
            | [] => [(c, 1%nat)]
            end).
    rewrite IH. by rewrite N.eqb_refl.
Qed.

Lemma runs_replicate r c : runs (replicate (S r) c) = [(c, S r)].
Proof.
  induction r as [|r IH]; [done|].
  change (runs (replicate (S (S r)) c))
    with (match runs (replicate (S r) c) with
          | (d, n) :: rs =>
              if (c =? d)%N then (c, S n) :: rs
              else (c, 1%nat) :: (d, n) :: rs
          | [] => [(c, 1%nat)]
          end).
  rewrite IH. by rewrite N.eqb_refl.
Qed.

Lemma squeeze_newlines r : squeeze_run (NL, S r) = flush_newlines (S r).
Proof.
  unfold squeeze_run, flush_newlines. cbn [fst snd]. rewrite N.eqb_refl.
  cbn [andb]. by destruct (3 <=? S r)%nat.
Qed.

Lemma newline_runs_collapsed_cons c t :
  c ≠ NL → newline_runs_collapsed (c :: t) = c :: newline_runs_collapsed t.
Proof.
  intros Hc. unfold newline_runs_collapsed. simpl.
  assert (∀ n, squeeze_run (c, n) = replicate n c) as Hsq.
  { intros n. unfold squeeze_run. cbn [fst snd].
    by destruct (N.eqb_spec c NL). }
  destruct (runs t) as [|[d n] rs]; [by rewrite fmap_cons, Hsq|].
  destruct (N.eqb_spec c d) as [<-|Hne].
  - by rewrite !fmap_cons, !Hsq.
  - by rewrite fmap_cons, Hsq.
Qed.

Lemma newline_runs_collapsed_newlines r d u :
  d ≠ NL →
  newline_runs_collapsed (replicate r NL ++ d :: u)
  = flush_newlines r ++ newline_runs_collapsed (d :: u).
Proof.
  intros Hd. destruct r as [|r]; [done|].
  unfold newline_runs_collapsed.
  rewrite runs_replicate_app by done.
  by rewrite fmap_cons, squeeze_newlines.
Qed.

Lemma collapse_newlines_from_runs r s :
  collapse_newlines_from r s = newline_runs_collapsed (replicate r NL ++ s).
Proof.
  revert r. induction s as [|c t IH]; intros r.
  - rewrite app_nil_r. destruct r as [|r]; [done|].
    unfold newline_runs_collapsed.
    rewrite runs_replicate, fmap_cons, squeeze_newlines.
    cbn [collapse_newlines_from fmap list_fmap mjoin list_join].
    by rewrite app_nil_r.
  - cbn [collapse_newlines_from]. destruct (N.eqb_spec c NL) as [->|Hc].
    + rewrite IH. f_equal.
      rewrite replicate_S_end, <- app_assoc. done.
    + rewrite newline_runs_collapsed_newlines by done.
      rewrite newline_runs_collapsed_cons by done.
      by rewrite (IH 0%nat).
Qed.

(** [re.sub(r"\n{3,}", "\n\n", s)] does what the specification says:
    it collapses every run of three or more newlines to two and keeps the
    rest. *)
Lemma collapse_newlines_runs s :
  collapse_newlines s = newline_runs_collapsed s.
Proof. apply (collapse_newlines_from_runs 0). Qed.

End PyFacts.

(* ===================================================================== *)
(** ** The [SILENT] sentinel *)
(* ===================================================================== *)

Module SilentFacts.
Import PyFacts Silent.

(** [s] ends in the sentinel, followed only by code points of the
    pattern's character class (white space and the listed punctuation). *)
Definition ends_with_sentinel (s : pystr) : Prop :=
  ∃ p c, s = p ++ SILENT ++ c ∧ forallb trailing_class c = true.

Lemma isspace_trailing_class c : isspace c = true → trailing_class c = true.
Proof. unfold trailing_class. by intros ->. Qed.

Lemma match_trailing_eq s :
  match_trailing s =
  if forallb trailing_class s then Some (length s) else None.
Proof.
  induction s as [|c t IH]; simpl; [done|].
  destruct (trailing_class c) eqn:Hc; simpl.
  - rewrite IH. destruct (forallb trailing_class t) eqn:Ht; [done|].
    destruct t; [discriminate | done].
  - destruct t as [|d t]; [|done].
    destruct (N.eqb_spec c NL) as [->|]; [|done].
    by compute in Hc.
Qed.

Lemma match_at_Some s n :
  match_at s = Some n ↔
  ∃ c, s = SILENT ++ c ∧ forallb trailing_class c = true ∧ n = length s.
Proof.
  unfold match_at. split.
  - destruct (strip_prefix SILENT s) as [rest|] eqn:Hp; [|done]. simpl.
    apply strip_prefix_Some in Hp. rewrite match_trailing_eq.
    destruct (forallb trailing_class rest) eqn:Hr; [|done]. simpl.
    intros [= <-]. exists rest. subst s. by rewrite length_app.
  - intros (c & -> & Hc & ->).
    assert (strip_prefix SILENT (SILENT ++ c) = Some c) as ->
      by by apply strip_prefix_Some.
    simpl. rewrite match_trailing_eq, Hc. done.
Qed.

Lemma match_at_length s n : match_at s = Some n → (8 ≤ n)%nat ∧ n = length s.
Proof.
  intros (c & -> & _ & ->)%match_at_Some. rewrite length_app. simpl. lia.
Qed.

Lemma search_Some s i n :
  search s = Some (i, n) →
  ∃ p c, s = p ++ SILENT ++ c ∧ length p = i
         ∧ forallb trailing_class c = true ∧ (i + n)%nat = length s.
Proof.
  revert i. induction s as [|x t IH]; intros i; simpl.
  - destruct (match_at []) eqn:E; [|done].
    apply match_at_length in E. simpl in E. lia.
  - destruct (match_at (x :: t)) as [m|] eqn:E.
    + intros [= <- <-]. pose proof E as (c & Hs & Hc & Hm)%match_at_Some.
      exists [], c. by rewrite Hm.
    + destruct (search t) as [[j m]|] eqn:Et; [|done]. simpl.
      intros [= <- <-]. destruct (IH _ eq_refl) as (p & c & -> & <- & Hc & Hl).
      exists (x :: p), c. simpl. rewrite Hl. done.
Qed.

Lemma search_None s : search s = None → ¬ ends_with_sentinel s.
Proof.
  induction s as [|x t IH]; simpl.
  - intros _ (p & c & H & _). symmetry in H.
    apply app_eq_nil in H as [_ H]. discriminate.
  - destruct (match_at (x :: t)) as [m|] eqn:E; [done|].
    destruct (search t) eqn:Et; [done|]. intros _ (p & c & H & Hc).
    destruct p as [|y p].
    + rewrite app_nil_l in H.
      assert (is_Some (match_at (x :: t))) as [? ?]; [|congruence].
      eexists. apply match_at_Some. exists c. eauto.
    + rewrite <- app_comm_cons in H.
      injection H as -> ->. apply IH; [done|]. by exists p, c.
Qed.

Lemma search_is_Some s : is_Some (search s) ↔ ends_with_sentinel s.
Proof.
  split.
  - intros [[i n] H]. apply search_Some in H as (p & c & ? & _ & ? & _).
    by exists p, c.
  - intros H. destruct (search s) eqn:E; [done|]. by apply search_None in E.
Qed.

Lemma sub_from_all k t : (length t ≤ k)%nat → sub_from k t = [].
Proof.
  revert k. induction t as [|c t IH]; intros k; simpl; [done|].
  destruct k; [lia|]. intros ?. apply IH. lia.
Qed.

(** Deleting the match leaves what stood before it. *)
Lemma sub_search s i n : search s = Some (i, n) → sub s = take i s.
Proof.
  unfold sub. revert i. induction s as [|x t IH]; intros i; simpl.
  - destruct (match_at []); done.
  - destruct (match_at (x :: t)) as [m|] eqn:E.
    + intros [= <- <-]. apply match_at_length in E as [? ->]. simpl.
      by apply sub_from_all.
    + destruct (search t) as [[j m]|] eqn:Et; [|done]. simpl.
      intros [= <- <-]. simpl. f_equal. by apply IH.
Qed.

Lemma sub_shorter s i n :
  search s = Some (i, n) → (length (sub s) < length s)%nat.
Proof.
  intros H. rewrite (sub_search _ _ _ H), length_take.
  apply search_Some in H as (p & c & -> & <- & _ & _).
  rewrite !length_app. simpl. lia.
Qed.

(** The loop leaves through its exit test: [length cleaned] rounds are
    enough, the bound on the rounds is never what stops it. *)
Lemma strip_loop_settled fuel s :
  (length s ≤ fuel)%nat → search (strip_loop fuel s) = None.
Proof.
  revert s. induction fuel as [|fuel IH]; intros s Hlen; simpl.
  - destruct s; [|simpl in Hlen; lia]. reflexivity.
  - destruct (search s) as [[i n]|] eqn:E; [|done].
    apply IH. pose proof (sub_shorter _ _ _ E). lia.
Qed.

Lemma strip_loop_fuel f1 f2 s :
  (length s ≤ f1)%nat → (length s ≤ f2)%nat →
  strip_loop f1 s = strip_loop f2 s.
Proof.
  revert f2 s. induction f1 as [|f1 IH]; intros f2 s H1 H2.
  - destruct s; [|simpl in H1; lia]. by destruct f2.
  - destruct f2 as [|f2].
    { destruct s; [done | simpl in H2; lia]. }
    simpl. destruct (search s) as [[i n]|] eqn:E; [|done].
    pose proof (sub_shorter _ _ _ E). apply IH; lia.
Qed.

Lemma ends_app_l p s : ends_with_sentinel s → ends_with_sentinel (p ++ s).
Proof.
  intros (q & c & -> & Hc). exists (p ++ q), c. by rewrite <- app_assoc.
Qed.

Lemma ends_app_space s w :
  forallb isspace w = true → ends_with_sentinel s → ends_with_sentinel (s ++ w).
Proof.
  intros Hw (q & c & -> & Hc). exists q, (c ++ w). split.
  - by rewrite <- !app_assoc.
  - rewrite forallb_app, Hc. simpl. rewrite forallb_forall in *.
    intros x Hx. by apply isspace_trailing_class, Hw.
Qed.

Lemma ends_strip s : ends_with_sentinel (strip s) → ends_with_sentinel s.
Proof.
  unfold strip. intros H.
  destruct (lstrip_split s) as (w1 & Hs & _).
  destruct (rstrip_split (lstrip s)) as (w2 & Hl & Hw2).
  rewrite Hs. apply ends_app_l. rewrite Hl. by apply ends_app_space.
Qed.

Lemma SILENT_no_newline : Forall (λ c, c ≠ NL) SILENT.
Proof. repeat constructor; by compute. Qed.

Lemma ends_collapse s :
  ends_with_sentinel (collapse_newlines s) → ends_with_sentinel s.
Proof.
  unfold collapse_newlines. intros (p & c & H & Hc).
  change SILENT with ([91%N] ++ tail SILENT) in H. rewrite <- app_assoc in H.
  simpl in H.
  destruct (collapse_from_inv 0 s p 91%N _ ltac:(by compute) H)
    as (s1 & s2 & -> & _ & H2).
  apply (collapse_inv_literal (tail SILENT)) in H2 as (s' & -> & H').
  2:{ pose proof SILENT_no_newline as Hn. by inversion Hn. }
  exists s1, s'. split; [done|].
  apply forallb_Forall.
  apply (collapse_from_Forall (λ x, trailing_class x = true) 0); [done|].
  rewrite H'. by apply forallb_Forall.
Qed.

Lemma strip_no_sentinel s :
  search s = None → _strip_silent_marker (Some s) = Some s.
Proof. unfold _strip_silent_marker. by intros ->. Qed.

Lemma strip_result_no_sentinel s r :
  _strip_silent_marker (Some s) = Some r → search r = None.
Proof.
  unfold _strip_silent_marker. destruct (search s) as [m|] eqn:E.
  - intros [= <-]. destruct (search (strip _)) eqn:E'; [|done]. exfalso.
    assert (ends_with_sentinel (strip_loop (length s) s)) as H.
    { apply ends_collapse, ends_strip, search_is_Some. by rewrite E'. }
    apply search_is_Some in H as [? H].
    by rewrite strip_loop_settled in H.
  - by intros [= <-].
Qed.



Example strip_acknowledged :
  _strip_silent_marker (Some (py "Acknowledged. [SILENT]"))
  = Some (py "Acknowledged.").
Proof. vm_compute. reflexivity. Qed.

End SilentFacts.

(* ===================================================================== *)
(** ** The message bus *)
(* ===================================================================== *)

Module BusFacts.
Import Bus.

(** What is buffered for session [k]. *)
Definition buffer_of (bus : MessageBus) (k : pystr) : list InboundMessage :=
  default [] (_inbound_collect_buffer bus !! k).

Lemma session_key_truthy msg : truthy (Some (session_key msg)) = true.
Proof.
  unfold session_key. destruct (channel msg); [|done].
  by vm_compute.
Qed.

Lemma is_active_iff bus msg k :
  _active_inbound_session bus = Some (session_key msg) →
  is_active bus k = bool_decide (k = session_key msg).
Proof.
  intros H. unfold is_active. rewrite H, session_key_truthy. done.
Qed.

(** One publish while the session of [turn] is the active one. *)
Lemma publish_same_session bus turn msg :
  _active_inbound_session bus = Some (session_key turn) →
  session_key msg = session_key turn →
  publish_inbound msg bus
  = with_buffer (<[session_key turn := buffer_of bus (session_key turn) ++ [msg]]>
                   (_inbound_collect_buffer bus)) bus.
Proof.
  intros Ha Hk. unfold publish_inbound.
  rewrite (is_active_iff _ turn) by done. rewrite Hk.
  by rewrite bool_decide_eq_true_2.
Qed.

Lemma publish_other_session bus turn msg :
  _active_inbound_session bus = Some (session_key turn) →
  session_key msg ≠ session_key turn →
  publish_inbound msg bus = with_inbound (inbound bus ++ [msg]) bus.
Proof.
  intros Ha Hk. unfold publish_inbound.
  rewrite (is_active_iff _ turn) by done.
  by rewrite bool_decide_eq_false_2.
Qed.

Lemma publishes_during_turn bus turn (ms : list InboundMessage) :
  _active_inbound_session bus = Some (session_key turn) →
  let K := session_key turn in
  let bus' := foldl (λ b m, publish_inbound m b) bus ms in
  _active_inbound_session bus' = Some K
  ∧ inbound bus' = inbound bus ++ filter (λ m, session_key m ≠ K) ms
  ∧ buffer_of bus' K = buffer_of bus K ++ filter (λ m, session_key m = K) ms
  ∧ (∀ k, k ≠ K →
       _inbound_collect_buffer bus' !! k = _inbound_collect_buffer bus !! k)
  ∧ _outbound_waiters bus' = _outbound_waiters bus
  ∧ futures bus' = futures bus.
Proof.
  simpl. revert bus. induction ms as [|m ms IH]; intros bus Ha; simpl.
  - rewrite !app_nil_r. done.
  - destruct (decide (session_key m = session_key turn)) as [Hk|Hk].
    + rewrite (publish_same_session _ turn) by done.
      edestruct IH as (-> & -> & -> & Hb & -> & ->); [done|].
      simpl. rewrite filter_cons_False by (by intros ?).
      rewrite filter_cons_True by done.
      unfold buffer_of at 1. simpl. rewrite lookup_insert_eq. simpl.
      rewrite <- app_assoc. repeat split; try done.
      intros k Hne. rewrite Hb by done. simpl. by rewrite lookup_insert_ne.
    + rewrite (publish_other_session _ turn) by done.
      edestruct IH as (-> & -> & -> & Hb & -> & ->); [done|].
      simpl. rewrite filter_cons_True by done.
      rewrite filter_cons_False by done.
      rewrite <- app_assoc. done.
Qed.

Lemma consume_inbound_active bus msg bus' :
  consume_inbound bus = Some (msg, bus') →
  inbound bus = msg :: inbound bus'
  ∧ _active_inbound_session bus' = Some (session_key msg)
  ∧ _inbound_collect_buffer bus' = _inbound_collect_buffer bus.
Proof.
  unfold consume_inbound. destruct (inbound bus) as [|m q]; [done|].
  by intros [= -> <-].
Qed.

Lemma complete_matching bus turn :
  _active_inbound_session bus = Some (session_key turn) →
  complete_inbound_turn turn bus
  = with_active None
      (let bus1 := with_buffer (delete (session_key turn)
                                  (_inbound_collect_buffer bus)) bus in
       match _merge_buffered_messages (buffer_of bus (session_key turn)) with
       | Some merged => with_inbound (inbound bus ++ [merged]) bus1
       | None => bus1
       end).
Proof.
  intros Ha. unfold complete_inbound_turn.
  rewrite bool_decide_eq_false_2 by (by intros ?). done.
Qed.

(** C1.  After [consume_inbound] has returned a message of session [K],
    publishes for [K] go to the buffer of [K] and leave the queue alone,
    publishes for other sessions are enqueued at once; completing the turn
    with [n >= 1] buffered messages enqueues exactly one merged message:
    its content is that of the only buffered message, or the
    ["[sender] content"] forms joined by blank lines, its media is the
    concatenation of theirs, its metadata carries [collected_count] and
    [collected_messages], one record per buffered message in buffer order
    with its sender_id, content, timestamp text, media and metadata, and
    the rest comes from the first one. *)
Theorem buffered_followups_merge
    bus m0 bus1 (ms : list InboundMessage) :
  consume_inbound bus = Some (m0, bus1) →
  let K := session_key m0 in
  let bus2 := foldl (λ b m, publish_inbound m b) bus1 ms in
  inbound bus2 = inbound bus1 ++ filter (λ m, session_key m ≠ K) ms
  ∧ buffer_of bus2 K = buffer_of bus1 K ++ filter (λ m, session_key m = K) ms
  ∧ ∀ turn m1 rest,
      session_key turn = K →
      buffer_of bus2 K = m1 :: rest →
      ∃ merged md,
        inbound (complete_inbound_turn turn bus2) = inbound bus2 ++ [merged]
        ∧ content merged =
            match rest with
            | [] => content m1
            | _ =>
                join [NL; NL]
                  ((λ m, py "[" ++ sender_id m ++ py "] " ++ content m)
                   <$> m1 :: rest)
            end
        ∧ media merged = mjoin (media <$> m1 :: rest)
        ∧ metadata merged = Some md
        ∧ md !! py "collected_messages"
          = Some (VList
              ((λ m, VDict (list_to_map
                  [ (py "sender_id", VStr (sender_id m));
                    (py "content", VStr (content m));
                    (py "timestamp",
                     VStr match timestamp m with
                          | Datetime iso => iso
                          | Text s => s
                          end);
                    (py "media", VList (VStr <$> media m));
                    (py "metadata", VDict (default ∅ (metadata m))) ]))
               <$> m1 :: rest))
        ∧ md !! py "collected_count"
          = Some (VInt (Z.of_nat (length (m1 :: rest))))
        ∧ (∀ k, k ≠ py "collected_messages" → k ≠ py "collected_count" →
             md !! k = default ∅ (metadata m1) !! k)
        ∧ channel merged = channel m1
        ∧ sender_id merged = sender_id m1
        ∧ chat_id merged = chat_id m1
        ∧ timestamp merged = timestamp m1.
Proof.
  intros Hc K bus2.
  apply consume_inbound_active in Hc as (_ & Ha & _).
  destruct (publishes_during_turn bus1 m0 ms Ha) as (Ha2 & Hq & Hb & _).
  fold K in Ha2, Hq, Hb. fold bus2 in Ha2, Hq, Hb.
  split; [done|]. split; [done|].
  intros turn m1 rest Hk Hbuf.
  rewrite complete_matching by (by rewrite Hk).
  rewrite Hk, Hbuf. simpl.
  eexists _, _. split; [reflexivity|]. simpl.
  split; [by destruct rest|].
  split; [done|]. split; [done|].
  split; [by rewrite lookup_insert_ne, lookup_insert_eq|].
  split; [by rewrite lookup_insert_eq|].
  split; [|done].
  intros k H1 H2. by rewrite !lookup_insert_ne.
Qed.

(** The scenario of [tests/test_message_buffer.py]. *)
Definition telegram (sender chat text : string) : InboundMessage :=
  {| channel := py "telegram"; sender_id := py sender; chat_id := py chat;
     content := py text; timestamp := Text (py "2026-02-18T10:00:00");
     media := []; metadata := None |}.

Lemma buffered_followups_merge_witness :
  let current := telegram "u0" "c1" "current" in
  let alice := telegram "alice" "c1" "one" in
  let bob := telegram "bob" "c1" "two" in
  let bus := publish_inbound current new_bus in
  ∃ bus1 merged,
    consume_inbound bus = Some (current, bus1)
    ∧ inbound (foldl (λ b m, publish_inbound m b) bus1 [alice; bob]) = []
    ∧ inbound (complete_inbound_turn current
                 (foldl (λ b m, publish_inbound m b) bus1 [alice; bob]))
      = [merged]
    ∧ content merged = py "[alice] one" ++ [NL; NL] ++ py "[bob] two"
    ∧ sender_id merged = py "alice"
    ∧ ∃ md,
        metadata merged = Some md
        ∧ md !! py "collected_count" = Some (VInt 2)
        ∧ md !! py "collected_messages"
          = Some (VList
              [ VDict (list_to_map
                  [ (py "sender_id", VStr (py "alice"));
                    (py "content", VStr (py "one"));
                    (py "timestamp", VStr (py "2026-02-18T10:00:00"));
                    (py "media", VList []);
                    (py "metadata", VDict ∅) ]);
                VDict (list_to_map
                  [ (py "sender_id", VStr (py "bob"));
                    (py "content", VStr (py "two"));
                    (py "timestamp", VStr (py "2026-02-18T10:00:00"));
                    (py "media", VList []);
                    (py "metadata", VDict ∅) ]) ]).
Proof.
  intros current alice bob bus.
  set (bus1 := with_active (Some (session_key current)) new_bus).
  assert (consume_inbound bus = Some (current, bus1)) as Hc by reflexivity.
  destruct (buffered_followups_merge bus current bus1 [alice; bob] Hc)
    as (Hq & Hb & Hturn).
  destruct (Hturn current alice [bob] eq_refl) as (merged & md & H).
  { rewrite Hb. vm_compute. reflexivity. }
  destruct H as (Hin & Hcontent & _ & Hmd & Hrecords & Hcount & _ & _
                 & Hsender & _).
  exists bus1, merged. split; [done|].
  rewrite Hin, Hcontent, Hsender, Hq.
  split; [vm_compute; reflexivity|]. split; [reflexivity|].
  split; [vm_compute; reflexivity|]. split; [vm_compute; reflexivity|].
  exists md. split; [exact Hmd|]. split; [exact Hcount|].
  rewrite Hrecords. vm_compute. reflexivity.
Defined.

(** C10.  A completion for a session that is not the active one changes
    nothing; a completion for the active session clears the marker; no
    completion touches the buffer of a session other than its own. *)
Theorem complete_inbound_turn_mismatch_noop bus msg :
  (_active_inbound_session bus ≠ Some (session_key msg) →
     complete_inbound_turn msg bus = bus)
  ∧ (_active_inbound_session bus = Some (session_key msg) →
       _active_inbound_session (complete_inbound_turn msg bus) = None)
  ∧ (∀ k, k ≠ session_key msg →
       _inbound_collect_buffer (complete_inbound_turn msg bus) !! k
       = _inbound_collect_buffer bus !! k).
Proof.
  split; [|split].
  - intros H. unfold complete_inbound_turn. by rewrite bool_decide_eq_true_2.
  - intros H. rewrite complete_matching by done. done.
  - intros k Hk. unfold complete_inbound_turn. case_bool_decide; [done|].
    simpl. destruct (_merge_buffered_messages _); simpl;
      by rewrite lookup_delete_ne.
Qed.

Lemma complete_inbound_turn_mismatch_noop_witness :
  let current := telegram "u0" "c1" "current" in
  let other := telegram "u2" "c2" "other" in
  let bus :=
    publish_inbound (telegram "u1" "c1" "follow")
      (with_active (Some (session_key current)) new_bus) in
  _active_inbound_session bus ≠ Some (session_key other)
  ∧ complete_inbound_turn other bus = bus
  ∧ buffer_of (complete_inbound_turn other bus) (session_key current)
    = [telegram "u1" "c1" "follow"].
Proof.
  intros current other bus.
  assert (_active_inbound_session bus ≠ Some (session_key other)) as H
    by (vm_compute; discriminate).
  destruct (complete_inbound_turn_mismatch_noop bus other) as (Hnoop & _ & _).
  split; [exact H|]. rewrite (Hnoop H). split; [reflexivity|].
  vm_compute. reflexivity.
Defined.

(** C9.  [create_outbound_waiter] for an id that already has a waiter:
    the new future is pending and is the one registered for the id; the old
    one, if it was still pending, now holds
    [(False, "superseded by a newer outbound request")], and is left as it
    was if it was already done. *)
Theorem create_outbound_waiter_supersedes bus request_id old st :
  _outbound_waiters bus !! request_id = Some old →
  futures bus !! old = Some st →
  let fut := (create_outbound_waiter request_id bus).1 in
  let bus' := (create_outbound_waiter request_id bus).2 in
  _outbound_waiters bus' !! request_id = Some fut
  ∧ fut ≠ old
  ∧ futures bus' !! fut = Some Pending
  ∧ (st = Pending →
       futures bus' !! old
       = Some (Result false
                 (Some (py "superseded by a newer outbound request"))))
  ∧ (st ≠ Pending → futures bus' !! old = Some st)
  ∧ (∀ a, a ≠ old → a ≠ fut → futures bus' !! a = futures bus !! a)
  ∧ (∀ r, r ≠ request_id →
       _outbound_waiters bus' !! r = _outbound_waiters bus !! r).
Proof.
  intros Hw Hf. simpl. unfold create_outbound_waiter. rewrite Hw. simpl.
  pose proof (lookup_lt_Some _ _ _ Hf) as Hlt.
  assert (pending_at (futures bus ++ [Pending]) old = negb (done st)) as Hp.
  { unfold pending_at. by rewrite lookup_app_l, Hf. }
  rewrite Hp. unfold set_result.
  split; [by rewrite lookup_insert_eq|].
  split; [lia|].
  split.
  { destruct (done st).
    - simpl. by rewrite lookup_app_r, Nat.sub_diag.
    - simpl. rewrite list_lookup_insert_ne by lia.
      by rewrite lookup_app_r, Nat.sub_diag. }
  split.
  { intros ->. simpl. apply list_lookup_insert_eq. rewrite length_app. lia. }
  split.
  { intros Hst. destruct st; [done| |]; simpl; by rewrite lookup_app_l. }
  split.
  { intros a Ha1 Ha2.
    assert ((futures bus ++ [Pending]) !! a = futures bus !! a) as Happ.
    { destruct (decide (a < length (futures bus))%nat).
      - by rewrite lookup_app_l.
      - rewrite !lookup_ge_None_2; [done|lia|rewrite length_app; simpl; lia]. }
    destruct (done st); simpl; [done|].
    by rewrite list_lookup_insert_ne. }
  intros r Hr. rewrite lookup_insert_ne by done. by rewrite lookup_delete_ne.
Qed.

Lemma create_outbound_waiter_supersedes_witness :
  let bus := (create_outbound_waiter (py "out_1") new_bus).2 in
  _outbound_waiters bus !! py "out_1" = Some 0%nat
  ∧ futures bus !! 0%nat = Some Pending
  ∧ futures (create_outbound_waiter (py "out_1") bus).2 !! 0%nat
    = Some (Result false (Some (py "superseded by a newer outbound request")))
  ∧ _outbound_waiters (create_outbound_waiter (py "out_1") bus).2
      !! py "out_1" = Some 1%nat.
Proof.
  intros bus.
  assert (_outbound_waiters bus !! py "out_1" = Some 0%nat) as Hw
    by (vm_compute; reflexivity).
  assert (futures bus !! 0%nat = Some Pending) as Hf
    by (vm_compute; reflexivity).
  destruct (create_outbound_waiter_supersedes bus (py "out_1") 0 Pending Hw Hf)
    as (Hnew & _ & _ & Hold & _).
  split; [exact Hw|]. split; [exact Hf|]. split; [exact (Hold eq_refl)|].
  rewrite Hnew. vm_compute. reflexivity.
Defined.

End BusFacts.

(* ===================================================================== *)
(** ** The consolidation trigger *)
(* ===================================================================== *)

Module TriggerFacts.
Import Provider Loop.
Local Open Scope Z_scope.

(** The trigger without any assumption on the session. *)
Lemma should_schedule_consolidation_eq `{Clock} self session :
  let total := Z.of_nat (length (messages session)) in
  let keep := _compression_keep_count self in
  let delta := total - keep - last_consolidated session in
  _should_schedule_consolidation self session = true ↔
    keep < total ∧ 0 < delta ∧
    (30 ≤ delta ∨ compression_window_size self ≤ delta ∨
     ∃ last_at,
       _parse_iso_datetime (last_consolidated_at session) = Some last_at
       ∧ 15 * 60 * 1000000 ≤ now - last_at).
Proof.
  simpl. unfold _should_schedule_consolidation.
  unfold _CONSOLIDATION_HARD_LIMIT, _CONSOLIDATION_COOLDOWN_S.
  set (total := Z.of_nat (length (messages session))).
  set (keep := _compression_keep_count self).
  destruct (Z.leb_spec total keep); [split; [done | lia]|].
  destruct (Z.leb_spec (total - keep - last_consolidated session) 0);
    [split; [done | lia]|].
  destruct (Z.leb_spec 30 (total - keep - last_consolidated session));
    [split; [intros _; auto with lia | done]|].
  destruct (Z.leb_spec (compression_window_size self)
                       (total - keep - last_consolidated session));
    [split; [intros _; auto with lia | done]|].
  destruct (_parse_iso_datetime (last_consolidated_at session)) as [last_at|].
  - rewrite Z.leb_le. split.
    + intros ?. repeat split; try lia. right; right. exists last_at.
      split; [done | lia].
    + intros (_ & _ & [?|[?|(? & [= <-] & ?)]]); lia.
  - split; [done|]. intros (_ & _ & [?|[?|(? & ? & ?)]]); [lia|lia|done].
Qed.

Lemma parse_iso_datetime_Some `{Clock} value last_at :
  _parse_iso_datetime value = Some last_at ↔
  ∃ text, value = Some text ∧ fromisoformat text = Some last_at.
Proof.
  unfold _parse_iso_datetime. split.
  - destruct value as [[|c r]|]; [done| |done]. eauto.
  - intros ([|c r] & -> & Hf); [|done]. by rewrite fromisoformat_empty in Hf.
Qed.

(** C2.  With [keep = max(1, memory_window / 2)],
    [compress_end = total - keep] and
    [delta = compress_end - last_consolidated], consolidation is to be
    scheduled exactly when [delta > 0] and [delta >= 30], or
    [delta >= compression_window_size], or [last_consolidated_at] holds a
    date that lies at least 15 minutes back. *)
Theorem should_schedule_consolidation_iff `{Clock} self session :
  0 ≤ last_consolidated session →
  let total := Z.of_nat (length (messages session)) in
  let keep := Z.max 1 (memory_window self / 2) in
  let compress_end := total - keep in
  let delta := compress_end - last_consolidated session in
  _should_schedule_consolidation self session = true ↔
    0 < delta ∧
    (30 ≤ delta ∨ compression_window_size self ≤ delta ∨
     ∃ text last_at,
       last_consolidated_at session = Some text
       ∧ fromisoformat text = Some last_at
       ∧ 15 * 60 * 1000000 ≤ now - last_at).
Proof.
  intros Hlc. simpl. rewrite should_schedule_consolidation_eq.
  unfold _compression_keep_count. split.
  - intros (_ & Hd & [?|[?|(last_at & Hp & ?)]]); split; auto.
    apply parse_iso_datetime_Some in Hp as (text & ? & ?). eauto 10.
  - intros (Hd & Hor). split; [lia|]. split; [done|].
    destruct Hor as [?|[?|(text & last_at & ? & ? & ?)]]; auto.
    right; right. exists last_at. split; [|done].
    apply parse_iso_datetime_Some. eauto.
Qed.

(** A clock that reads 10:30, for a session consolidated at 10:00. *)
#[local] Instance half_past_ten : Clock := {|
  fromisoformat text :=
    if bool_decide (text = py "2026-02-18T10:00:00")
    then Some (36000 * 1000000) else None;
  now := 37800 * 1000000;
  now_isoformat := py "2026-02-18T10:30:00";
  fromisoformat_empty := eq_refl;
|}.

Definition user_message : Message :=
  {| role := py "user"; content := Some (py "hi"); timestamp := None;
     tools_used := [] |}.

Lemma should_schedule_consolidation_witness :
  let self := new_agent 50 50 12 in
  let session :=
    {| key := py "telegram:c1"; messages := replicate 28 user_message;
       last_consolidated := 0;
       last_consolidated_at := Some (py "2026-02-18T10:00:00") |} in
  0 ≤ last_consolidated session
  ∧ _should_schedule_consolidation self session = true.
Proof.
  intros self session.
  assert (0 ≤ last_consolidated session) as Hlc by (simpl; lia).
  split; [exact Hlc|].
  apply (should_schedule_consolidation_iff self session Hlc).
  split; [vm_compute; reflexivity|].
  right; right. exists (py "2026-02-18T10:00:00"), (36000 * 1000000).
  repeat split; vm_compute; congruence.
Defined.

End TriggerFacts.

(* ===================================================================== *)
(** ** [chat]: the two modes and the error response *)
(* ===================================================================== *)

Module ChatFacts.
Import Provider.

Section WithExternals.
Context `{Externals}.

Lemma attempt_raises backend stream e_plain e_stream :
  acompletion_plain backend = Raises e_plain →
  acompletion_stream backend = Raises e_stream →
  attempt backend stream = Raises (if stream then e_stream else e_plain).
Proof. intros Hp Hs. unfold attempt. rewrite Hp, Hs. by destruct stream. Qed.

(** C6.  When the call in the default mode and the retry in the other
    mode both raise an exception, [chat] returns a response with
    [finish_reason = "error"], no tool calls, and the content
    ["Error calling LLM: <type>: <message>"] of the exception of the
    retry, where the message is [str(exc)] without surrounding white
    space, or ["Error calling LLM: <type>"] when that message is empty. *)
Theorem chat_double_failure (default_stream : bool) backend e_plain e_stream :
  acompletion_plain backend = Raises e_plain →
  acompletion_stream backend = Raises e_stream →
  exc_is_Exception e_plain = true →
  exc_is_Exception e_stream = true →
  let fallback_e := if default_stream then e_plain else e_stream in
  ∃ r, chat default_stream backend = Returns r
       ∧ finish_reason r = py "error"
       ∧ tool_calls r = []
       ∧ content r =
           Some (py "Error calling LLM: " ++ exc_type fallback_e ++
                 match strip (exc_str fallback_e) with
                 | [] => []
                 | message => py ": " ++ message
                 end).
Proof.
  intros Hp Hs Hep Hes fallback_e. unfold chat.
  rewrite !(attempt_raises _ _ _ _ Hp Hs).
  assert (exc_is_Exception fallback_e = true) as Hfe
    by (unfold fallback_e; by destruct default_stream).
  assert ((if negb default_stream then e_stream else e_plain) = fallback_e)
    as -> by (unfold fallback_e; by destruct default_stream).
  assert (exc_is_Exception (if default_stream then e_stream else e_plain)
          = true) as -> by by destruct default_stream.
  rewrite Hfe. eexists. split; [reflexivity|].
  cbn [finish_reason tool_calls content]. repeat split.
  unfold _format_exception.
  by destruct (strip (exc_str fallback_e)); rewrite ?app_nil_r.
Qed.

End WithExternals.

(** An instance for the examples: ASCII only, no JSON decoder, and
    identifiers drawn as [00000000...]. *)
#[local] Instance no_json : Externals := {|
  unicode_isalnum _ := false;
  alnum_not_space := ltac:(discriminate);
  json_loads _ := None;
  raw_decode _ := None;
  uuid4_hex _ := replicate 32 48%N;
|}.

(** The scenario of [tests/test_litellm_provider.py]. *)
Definition RuntimeError (msg : string) : exn :=
  {| exc_type := py "RuntimeError"; exc_str := py msg;
     exc_is_Exception := true |}.
Definition ValueError (msg : string) : exn :=
  {| exc_type := py "ValueError"; exc_str := py msg;
     exc_is_Exception := true |}.

Lemma chat_double_failure_witness :
  let backend :=
    {| acompletion_plain := Raises (RuntimeError "primary request failed");
       acompletion_stream := Raises (ValueError "stream broken") |} in
  ∃ r, chat false backend = Returns r
       ∧ finish_reason r = py "error"
       ∧ tool_calls r = []
       ∧ content r = Some (py "Error calling LLM: ValueError: stream broken").
Proof.
  intros backend.
  destruct (chat_double_failure false backend
              (RuntimeError "primary request failed")
              (ValueError "stream broken")
              eq_refl eq_refl eq_refl eq_refl) as (r & Hr & Hf & Ht & Hc).
  exists r. repeat split; [exact Hr | exact Hf | exact Ht |].
  rewrite Hc. vm_compute. reflexivity.
Defined.

Example format_exception_without_message :
  _format_exception
    {| exc_type := py "NoMessageError"; exc_str := [];
       exc_is_Exception := true |}
  = py "NoMessageError".
Proof. reflexivity. Qed.

End ChatFacts.

(* ===================================================================== *)
(** ** The tool-calling loop *)
(* ===================================================================== *)

Module AgentLoopFacts.
Import Provider Loop.
Local Open Scope Z_scope.

Section WithTools.
Context `{Tools}.

(** Rounds that all carry tool calls run to the end of the loop without a
    final content. *)
Lemma iterations_all_tool_calls self remaining iteration messages
    last_finish_reason tool_use_log stashed_content :
  (∀ i msgs, iteration < i ≤ iteration + Z.of_nat remaining →
     ∃ r, chat i msgs = Returns r ∧ has_tool_calls r = true) →
  ∃ last log,
    iterations self remaining iteration messages last_finish_reason
               tool_use_log stashed_content
    = Returns (None, last, log)
    ∧ (remaining = 0%nat → last = last_finish_reason)
    ∧ (remaining ≠ 0%nat →
       ∃ msgs r, chat (iteration + Z.of_nat remaining) msgs = Returns r
                 ∧ last = or_unknown (finish_reason r)).
Proof.
  revert iteration messages last_finish_reason tool_use_log stashed_content.
  induction remaining as [|remaining IH];
    intros iteration messages last_finish_reason tool_use_log stashed_content
           Hall.
  - eexists _, _. simpl. split; [reflexivity|]. split; [done|done].
  - cbn [iterations].
    destruct (Hall (iteration + 1) messages ltac:(lia)) as (r & Hr & Htc).
    rewrite Hr, Htc.
    destruct (foldl run_tool_call _ _) as [messages' log'] eqn:Hfold.
    edestruct (IH (iteration + 1) messages' (or_unknown (finish_reason r))
                  log') as (last & log & Hrun & H0 & HS).
    { intros i msgs Hi. apply Hall. lia. }
    rewrite Hrun.
    eexists _, _. split; [reflexivity|]. split; [done|]. intros _.
    destruct remaining as [|remaining'].
    + exists messages, r. rewrite H0 by done. split; [|done].
      by replace (iteration + Z.of_nat 1) with (iteration + 1) by lia.
    + destruct HS as (msgs & r' & Hr' & ->); [done|].
      exists msgs, r'. split; [|done]. rewrite <- Hr'. f_equal. lia.
Qed.

(** C8.  When each of the [max_iterations] rounds gets a response that
    carries tool calls, [_run_agent_loop] returns, and its final content
    is the text that names the iteration limit and the last finish reason
    seen (["unknown"] if there was no round or the reason was empty). *)
Theorem run_agent_loop_iteration_cap self initial_messages :
  (∀ i messages, 1 ≤ i ≤ max_iterations self →
     ∃ r, chat i messages = Returns r ∧ has_tool_calls r = true) →
  ∃ last_finish_reason tool_use_log,
    _run_agent_loop self initial_messages
    = Returns
        (py "I stopped before a final response because the tool-call loop hit the iteration limit "
         ++ py "(" ++ str_of_int (max_iterations self)
         ++ py "). Last finish_reason=" ++ last_finish_reason ++ py ". "
         ++ py "Please retry with a narrower request or increase agents.defaults.max_tool_iterations.",
         last_finish_reason, tool_use_log)
    ∧ (max_iterations self ≤ 0 ∧ last_finish_reason = py "unknown"
       ∨ ∃ messages r,
           chat (max_iterations self) messages = Returns r
           ∧ last_finish_reason = or_unknown (finish_reason r)).
Proof.
  intros Hall. unfold _run_agent_loop.
  destruct (iterations_all_tool_calls self (Z.to_nat (max_iterations self)) 0
              initial_messages (py "unknown") [] None)
    as (last & log & Hrun & H0 & HS).
  { intros i msgs Hi. apply Hall. lia. }
  rewrite Hrun. exists last, log. split; [reflexivity|].
  destruct (Z.to_nat (max_iterations self)) as [|n] eqn:Hn.
  - left. split; [lia | by apply H0].
  - right. destruct HS as (msgs & r & Hr & ->); [done|].
    exists msgs, r. split; [|done]. rewrite <- Hr. f_equal. lia.
Qed.

End WithTools.

(** The scenario of an LLM that always asks for the same tool, with
    [max_iterations = 2]. *)
Definition always_a_tool_call : LLMResponse :=
  {| Provider.content := None;
     tool_calls := [ {| tc_id := py "call_1"; tc_name := Some (py "exec");
                        tc_arguments := VDict ∅ |} ];
     finish_reason := py "tool_calls";
     usage := ∅;
     reasoning_content := None |}.

#[local] Instance stubborn_tools : Tools := {|
  chat _ _ := Returns always_a_tool_call;
  execute _ _ _ := py "ok";
  json_dumps _ _ := py "{}";
|}.

Lemma run_agent_loop_iteration_cap_witness :
  ∃ tool_use_log,
    _run_agent_loop (new_agent 2 50 12) []
    = Returns
        (py "I stopped before a final response because the tool-call loop hit the iteration limit (2). Last finish_reason=tool_calls. Please retry with a narrower request or increase agents.defaults.max_tool_iterations.",
         py "tool_calls", tool_use_log)
    ∧ length tool_use_log = 2%nat.
Proof.
  destruct (run_agent_loop_iteration_cap (new_agent 2 50 12) [])
    as (last & log & Hrun & Hlast).
  { intros i messages _. exists always_a_tool_call. split; reflexivity. }
  exists log.
  assert (last = py "tool_calls") as ->.
  { destruct Hlast as [[Hle _]|(msgs & r & [= <-] & ->)].
    - vm_compute in Hle. congruence.
    - reflexivity. }
  split.
  - rewrite Hrun. vm_compute. reflexivity.
  - vm_compute in Hrun. injection Hrun as <-. reflexivity.
Defined.

End AgentLoopFacts.

(* ===================================================================== *)
(** ** Memory consolidation and the watermarks *)
(* ===================================================================== *)

Module ConsolidationFacts.
Import Provider Loop.
Local Open Scope Z_scope.

Definition watermarks (session : Session) : Z * option pystr :=
  (last_consolidated session, last_consolidated_at session).

(** The session invariant [0 <= last_consolidated <= len(messages)]. *)
Definition session_inv (session : Session) : Prop :=
  0 ≤ last_consolidated session ≤ Z.of_nat (length (messages session)).

(** The run stopped on an exception of the given step. *)
Definition stopped_at (run : Run) (step : Step) : Prop :=
  ∃ e, run_ending run = Failed step e ∨ run_ending run = Propagated step e.

Section WithClock.
Context `{Clock}.

Lemma on_exception_session session memory saved step e :
  run_session (on_exception session memory saved step e) = session.
Proof. done. Qed.

Lemma on_exception_stopped session memory saved step e step' :
  stopped_at (on_exception session memory saved step e) step' → step' = step.
Proof.
  unfold stopped_at, on_exception. simpl.
  destruct (exc_is_Exception e); intros (e' & [?|?]); congruence.
Qed.

Lemma on_exception_not_Done session memory saved step e :
  run_ending (on_exception session memory saved step e) ≠ Done.
Proof. unfold on_exception. simpl. by destruct (exc_is_Exception e). Qed.

(** From the parsed result on: the watermarks move only when both writes
    went through. *)
Lemma apply_result_spec env session memory archive_all persist_session
    current_memory next now_iso result :
  let run := apply_result env session memory archive_all persist_session
               current_memory next now_iso result in
  messages (run_session run) = messages session
  ∧ (watermarks (run_session run) = watermarks session
     ∧ run_ending run ≠ Done
     ∧ (stopped_at run HistoryWrite ∨ stopped_at run MemoryWrite)
     ∨ watermarks (run_session run) = (next, Some now_iso)
       ∧ (run_ending run = Done ∨ stopped_at run SessionSave)).
Proof.
  simpl. unfold apply_result.
  repeat (case_match; simplify_eq);
    rewrite ?on_exception_session; (split; [done|]);
    try (left; split; [done|]; split; [apply on_exception_not_Done|]);
    try (right; split; [done|]);
    unfold stopped_at, on_exception; simpl;
    try (destruct (exc_is_Exception _); eauto; fail);
    eauto.
Qed.

(** What one run does to the watermarks, by the way it ended. *)
Lemma consolidate_memory_spec self env memory session
    archive_all persist_session :
  let run := _consolidate_memory self env memory session archive_all
               persist_session in
  let total := Z.of_nat (length (messages session)) in
  let compress_end := total - _compression_keep_count self in
  let next := if archive_all then 0 else compress_end in
  messages (run_session run) = messages session
  ∧ (watermarks (run_session run) = watermarks session
     ∧ run_ending run ≠ Done
     ∧ ¬ stopped_at run SessionSave
     ∨ watermarks (run_session run) = (next, Some now_isoformat)
       ∧ (run_ending run = Done ∨ stopped_at run SessionSave)
       ∧ (archive_all = false →
            last_consolidated session < compress_end ≤ total
            ∧ 0 < compress_end)).
Proof.
  simpl. unfold _consolidate_memory.
  set (total := Z.of_nat (length (messages session))).
  set (keep := _compression_keep_count self).
  assert (1 ≤ keep) as Hkeep by (unfold keep, _compression_keep_count; lia).
  assert (∀ session memory saved step e,
            step ≠ SessionSave →
            ¬ stopped_at (on_exception session memory saved step e)
                SessionSave) as Hnot.
  { intros ????? Hne Hs. apply on_exception_stopped in Hs. congruence. }
  assert (∀ ending, ending ≠ Done →
            (∀ step e, ending ≠ Failed step e) →
            (∀ e, ending ≠ Propagated SessionSave e) →
            let run := {| run_session := session; run_memory := memory;
                          run_saved := None; run_ending := ending |} in
            watermarks (run_session run) = watermarks session
            ∧ run_ending run ≠ Done ∧ ¬ stopped_at run SessionSave) as Hstop.
  { intros ending ? ? ?. simpl. repeat split; [done|].
    intros (e & [?|?]); simpl in *; naive_solver. }
  destruct archive_all.
  - (* archive_all *)
    destruct (read_error env); [split; [done|]; left; by apply Hstop|].
    destruct (provider_chat env _ _) as [response|e].
    2:{ split; [done|]. left. repeat split.
        - apply on_exception_not_Done.
        - by apply Hnot. }
    destruct (strip (default [] (Provider.content response))) as [|c r] eqn:Ht;
      [split; [done|]; left; by apply Hstop|].
    destruct (json_repair_loads env _) as [v|e].
    2:{ split; [done|]. left. repeat split.
        - apply on_exception_not_Done.
        - by apply Hnot. }
    destruct v; try (split; [done|]; left; by apply Hstop).
    match goal with
    | |- context [apply_result ?a ?b ?c ?d ?e ?f ?g ?h ?i] =>
        destruct (apply_result_spec a b c d e f g h i) as (Hm & Hw)
    end.
    split; [done|].
    destruct Hw as [(Hw & Hd & Hs)|(Hw & Hd)].
    + left. repeat split; [done|done|].
      intros Hsave. destruct Hs as [(e & Hs)|(e & Hs)], Hsave as (e' & Hs');
        destruct Hs, Hs'; congruence.
    + right. repeat split; [done|done|done..].
  - (* a window of old messages *)
    destruct (Z.leb_spec total keep);
      [split; [done|]; left; by apply Hstop|].
    destruct (Z.leb_spec (total - keep - last_consolidated session) 0);
      [split; [done|]; left; by apply Hstop|].
    destruct (slice_list _ _ _) as [|m old] eqn:Hold;
      [split; [done|]; left; by apply Hstop|].
    destruct (read_error env); [split; [done|]; left; by apply Hstop|].
    destruct (provider_chat env _ _) as [response|e].
    2:{ split; [done|]. left. repeat split.
        - apply on_exception_not_Done.
        - by apply Hnot. }
    destruct (strip (default [] (Provider.content response))) as [|c r] eqn:Ht;
      [split; [done|]; left; by apply Hstop|].
    destruct (json_repair_loads env _) as [v|e].
    2:{ split; [done|]. left. repeat split.
        - apply on_exception_not_Done.
        - by apply Hnot. }
    destruct v; try (split; [done|]; left; by apply Hstop).
    match goal with
    | |- context [apply_result ?a ?b ?c ?d ?e ?f ?g ?h ?i] =>
        destruct (apply_result_spec a b c d e f g h i) as (Hm & Hw)
    end.
    split; [done|].
    destruct Hw as [(Hw & Hd & Hs)|(Hw & Hd)].
    + left. repeat split; [done|done|].
      intros Hsave. destruct Hs as [(e & Hs)|(e & Hs)], Hsave as (e' & Hs');
        destruct Hs, Hs'; congruence.
    + right. repeat split; [done|done|lia..].
Qed.

Lemma one_ending (run : Run) step :
  stopped_at run step → run_ending run ≠ Done.
Proof. intros (e & [?|?]); congruence. Qed.

Lemma one_step (run : Run) step step' :
  stopped_at run step → stopped_at run step' → step = step'.
Proof. intros (e & [?|?]) (e' & [?|?]); congruence. Qed.

(** C3, as the code has it.  A run that is not an archive-all run and
    succeeds advances [last_consolidated] to [compress_end], which is not
    below the old value and not above [len(messages)]; an archive-all run
    that succeeds sets [last_consolidated] to 0; both stamp
    [last_consolidated_at] with the current time.  A run stopped by the LLM
    call, by the JSON parsing or by a memory write leaves both watermarks
    as they were.  Every run keeps
    [0 <= last_consolidated <= len(messages)]. *)
Theorem consolidate_memory_watermarks self env memory session
    (archive_all persist_session : bool) :
  let run := _consolidate_memory self env memory session archive_all
               persist_session in
  let total := Z.of_nat (length (messages session)) in
  let compress_end := total - Z.max 1 (memory_window self / 2) in
  (run_ending run = Done →
     last_consolidated_at (run_session run) = Some now_isoformat
     ∧ (archive_all = false →
          last_consolidated (run_session run) = compress_end
          ∧ last_consolidated session ≤ last_consolidated (run_session run)
          ∧ last_consolidated (run_session run)
            ≤ Z.of_nat (length (messages (run_session run))))
     ∧ (archive_all = true → last_consolidated (run_session run) = 0))
  ∧ (stopped_at run LLMCall ∨ stopped_at run JsonParse
     ∨ stopped_at run HistoryWrite ∨ stopped_at run MemoryWrite →
       watermarks (run_session run) = watermarks session)
  ∧ (session_inv session → session_inv (run_session run)).
Proof.
  intros run total compress_end.
  destruct (consolidate_memory_spec self env memory session archive_all
              persist_session) as (Hm & Hw).
  fold run in Hm, Hw. fold total in Hw.
  change (total - _compression_keep_count self) with compress_end in Hw.
  unfold watermarks in *. split; [|split].
  - intros Hd. destruct Hw as [(_ & ? & _)|(Hw & _ & Hlt)]; [done|].
    injection Hw as Hlc Hat. split; [done|]. split.
    + intros ->. specialize (Hlt eq_refl). rewrite Hm. fold total. lia.
    + by intros ->.
  - intros Hs. destruct Hw as [(? & _)|(Hw & [Hd|Hsave] & _)]; [done|..].
    + destruct Hs as [Hs|[Hs|[Hs|Hs]]]; by apply one_ending in Hs.
    + destruct Hs as [Hs|[Hs|[Hs|Hs]]];
        by pose proof (one_step _ _ _ Hs Hsave).
  - unfold session_inv. rewrite Hm. fold total. intros Hinv.
    destruct Hw as [(Hw & _)|(Hw & _ & Hlt)].
    + injection Hw as -> _. done.
    + injection Hw as -> _. destruct archive_all; [lia|].
      specialize (Hlt eq_refl). lia.
Qed.

(** The steps are what they are named after: a provider that raises
    stops the run at the LLM call, a parser that raises stops it at the
    JSON parsing, a history file that cannot be appended to stops it at
    the history write; none of these runs moves a watermark. *)
Lemma provider_raises_unchanged self env memory session
    (archive_all persist_session : bool) e :
  (∀ system prompt, provider_chat env system prompt = Raises e) →
  let run := _consolidate_memory self env memory session archive_all
               persist_session in
  run_ending run ≠ Done ∧ watermarks (run_session run) = watermarks session.
Proof.
  intros Hraise. simpl. unfold _consolidate_memory.
  repeat (case_match; simplify_eq); rewrite ?Hraise in *; simplify_eq;
    try done; split; try done; apply on_exception_not_Done.
Qed.

Lemma parser_raises_unchanged self env memory session
    (archive_all persist_session : bool) e :
  (∀ text, json_repair_loads env text = Raises e) →
  let run := _consolidate_memory self env memory session archive_all
               persist_session in
  run_ending run ≠ Done ∧ watermarks (run_session run) = watermarks session.
Proof.
  intros Hraise. simpl. unfold _consolidate_memory.
  repeat (case_match; simplify_eq); rewrite ?Hraise in *; simplify_eq;
    try done; split; try done; apply on_exception_not_Done.
Qed.

Lemma history_write_fails_unchanged env session memory
    (archive_all persist_session : bool) current_memory next now_iso
    result entry failure :
  result !! py "history_entry" = Some entry →
  truthy_val entry = true →
  append_error env = Some failure →
  let run := apply_result env session memory archive_all persist_session
               current_memory next now_iso result in
  stopped_at run HistoryWrite
  ∧ watermarks (run_session run) = watermarks session.
Proof.
  intros Hentry Htruthy Herr. simpl. unfold apply_result.
  rewrite Hentry, Htruthy, Herr.
  destruct entry; destruct failure as [x|x written];
    (split; [|done]); unfold stopped_at, on_exception; simpl;
    repeat match goal with
           | |- context [exc_is_Exception ?e] => destruct (exc_is_Exception e)
           end; eauto.
Qed.

End WithClock.

(** A provider that answers [{}], read as an empty object; no operation
    on the files fails. *)
Definition empty_object : LLMResponse :=
  {| Provider.content := Some (py "{}"); tool_calls := [];
     finish_reason := py "stop"; usage := ∅; reasoning_content := None |}.

Definition quiet_env : Env :=
  {| provider_chat _ _ := Returns empty_object;
     json_repair_loads _ := Returns (VDict ∅);
     read_error := None; append_error := None; write_error := None;
     save_error := None |}.

#[local] Instance noon : Clock := {|
  fromisoformat _ := None;
  now := 43200 * 1000000;
  now_isoformat := py "2026-02-18T12:00:00";
  fromisoformat_empty := eq_refl;
|}.

Definition said (text : string) : Message :=
  {| role := py "user"; content := Some (py text);
     timestamp := Some (py "2026-02-18T11:59:00"); tools_used := [] |}.

Definition no_memory : MemoryStore :=
  {| memory_file := None; history_file := None |}.

Lemma consolidate_memory_watermarks_witness :
  let session :=
    {| key := py "telegram:c1"; messages := replicate 30 (said "hello");
       last_consolidated := 2; last_consolidated_at := None |} in
  let run := _consolidate_memory (new_agent 50 50 12) quiet_env no_memory
               session false true in
  run_ending run = Done
  ∧ last_consolidated (run_session run) = 5
  ∧ last_consolidated_at (run_session run) = Some (py "2026-02-18T12:00:00")
  ∧ session_inv (run_session run).
Proof.
  intros session run.
  destruct (consolidate_memory_watermarks (new_agent 50 50 12) quiet_env
              no_memory session false true) as (Hdone & _ & Hinv).
  fold run in Hdone, Hinv.
  assert (run_ending run = Done) as Hd by (vm_compute; reflexivity).
  destruct (Hdone Hd) as (Hat & Hlc & _).
  destruct (Hlc eq_refl) as (Hlc' & _).
  split; [exact Hd|]. split; [rewrite Hlc'; vm_compute; reflexivity|].
  split; [exact Hat|]. apply Hinv. unfold session_inv. simpl. lia.
Defined.

(** The claim as the specification words it fails for an archive-all
    run: the snapshot of two messages is consolidated, the run succeeds,
    and [last_consolidated] is 0, not [compress_end]. *)
Lemma consolidate_memory_archive_all_counterexample :
  let self := new_agent 50 2 12 in
  let session :=
    {| key := py "telegram:c1"; messages := [said "one"; said "two"];
       last_consolidated := 0; last_consolidated_at := None |} in
  let run := _consolidate_memory self quiet_env no_memory session true false in
  let total := Z.of_nat (length (messages session)) in
  ¬ (run_ending run = Done →
       last_consolidated (run_session run)
       = total - Z.max 1 (memory_window self / 2)).
Proof. intros self session run total Himp. by specialize (Himp eq_refl). Qed.

Example provider_raises_example :
  let session :=
    {| key := py "telegram:c1"; messages := replicate 30 (said "hello");
       last_consolidated := 2; last_consolidated_at := None |} in
  let env :=
    {| provider_chat _ _ := Raises (AttributeError "provider");
       json_repair_loads _ := Returns (VDict ∅);
       read_error := None; append_error := None; write_error := None;
       save_error := None |} in
  let run := _consolidate_memory (new_agent 50 50 12) env no_memory
               session false true in
  run_ending run = Failed LLMCall (AttributeError "provider")
  ∧ watermarks (run_session run) = (2, None).
Proof. vm_compute. done. Qed.

End ConsolidationFacts.

(* ===================================================================== *)
(** ** The summary logged before a response is returned *)
(* ===================================================================== *)

Module LogFacts.
Import Provider.

Lemma first_none_None {A} (l : list (option A)) :
  first_none l = None ↔ Forall is_Some l.
Proof.
  induction l as [|[a|] l IH]; simpl.
  - split; [constructor | done].
  - destruct (first_none l); simpl.
    + split; [done|]. intros Hf. apply Forall_cons in Hf as [_ Hf].
      by apply IH in Hf.
    + split; [|done]. intros _. constructor; [by eexists | by apply IH].
  - split; [done|]. intros Hf. apply Forall_cons in Hf as [[? ?] _]. done.
Qed.

Lemma log_response_summary_cases (response : LLMResponse) :
  ((∃ line, _log_response_summary response = Returns line)
   ↔ Forall (λ tc, is_Some (tc_name tc)) (take 5 (tool_calls response)))
  ∧ (∀ e, _log_response_summary response = Raises e →
          exc_type e = py "TypeError" ∧ exc_is_Exception e = true).
Proof.
  unfold _log_response_summary, has_tool_calls, join_names.
  destruct (tool_calls response) as [|tc tcs] eqn:Htc.
  { split; [|done]. split; [constructor | eauto]. }
  rewrite <- Htc. clear Htc.
  destruct (first_none (tc_name <$> take 5 (tool_calls response))) as [i|]
    eqn:Hfirst.
  - split; [|by intros e [= <-]]. split; [by intros [? ?]|].
    intros Hall. exfalso.
    assert (first_none (tc_name <$> take 5 (tool_calls response)) = None)
      as Hnone by (apply first_none_None; by rewrite Forall_fmap).
    congruence.
  - split; [|done]. split; [|by eauto].
    intros _. apply first_none_None in Hfirst. by rewrite Forall_fmap in Hfirst.
Qed.

(** Each of the first five tool calls has a name. *)
Definition named_calls (response : LLMResponse) : Prop :=
  Forall (λ tc, is_Some (tc_name tc)) (take 5 (tool_calls response)).

Lemma logged_named response :
  named_calls response → logged response = Returns response.
Proof.
  intros Hnamed. unfold logged.
  destruct (log_response_summary_cases response) as (Hiff & _).
  apply Hiff in Hnamed as [line ->]. done.
Qed.

Lemma logged_unnamed response :
  ¬ named_calls response →
  ∃ e, logged response = Raises e
       ∧ exc_type e = py "TypeError" ∧ exc_is_Exception e = true.
Proof.
  intros Hnamed. unfold logged.
  destruct (log_response_summary_cases response) as (Hiff & Hraise).
  destruct (_log_response_summary response) as [line|e] eqn:E.
  - destruct Hnamed. apply Hiff. by eexists.
  - exists e. split; [done|]. by apply Hraise.
Qed.

End LogFacts.

(* ===================================================================== *)
(** ** Merging the tool-call fragments of a stream *)
(* ===================================================================== *)

Module StreamFacts.
Import Provider LogFacts.

(** The tool-call fragments of a stream, in arrival order. *)
Definition chunk_fragments (chunk : Chunk) : list ToolCallDelta :=
  match choices chunk with
  | [] => []
  | choice :: _ => d_tool_calls (delta choice)
  end.

Definition fragments (chunks : list Chunk) : list ToolCallDelta :=
  chunks ≫= chunk_fragments.

(** The fragments that carry index [i]. *)
Definition at_index (i : Z) (fs : list ToolCallDelta) : list ToolCallDelta :=
  filter (λ tc, index tc = i) fs.

Definition nonempty (o : option pystr) : option pystr :=
  match o with
  | Some (c :: r) => Some (c :: r)
  | _ => None
  end.

(** The last value of the list that is neither [None] nor empty. *)
Definition last_nonempty (l : list (option pystr)) : option pystr :=
  last (omap nonempty l).

Definition fragment_name (tc : ToolCallDelta) : option pystr :=
  function tc ≫= fn_name.

Definition fragment_arguments (tc : ToolCallDelta) : pystr :=
  default [] (function tc ≫= fn_arguments).

(** What a call is named when no fragment names it: what the first
    fragment held ([None], or the empty text). *)
Definition unnamed (fs : list ToolCallDelta) : option pystr :=
  tc ← head fs;
  match function tc with
  | Some f => fn_name f
  | None => Some []
  end.

(** The entry of one index, as the specification words it: the last
    non-empty id and name, and the arguments concatenated in arrival
    order. *)
Definition merged (fs : list ToolCallDelta) : Entry :=
  {| e_id := default [] (last_nonempty (tcd_id <$> fs));
     e_name := match last_nonempty (fragment_name <$> fs) with
               | Some n => Some n
               | None => unnamed fs
               end;
     e_arguments := mjoin (fragment_arguments <$> fs) |}.

Lemma last_nonempty_snoc l o :
  last_nonempty (l ++ [o]) =
  match nonempty o with
  | Some v => Some v
  | None => last_nonempty l
  end.
Proof.
  unfold last_nonempty. rewrite omap_app. simpl.
  destruct (nonempty o); simpl; [by rewrite last_snoc | by rewrite app_nil_r].
Qed.

Lemma merged_snoc fs tc :
  fs ≠ [] →
  merged (fs ++ [tc]) =
  {| e_id := match tcd_id tc with
             | Some (c :: r) => c :: r
             | _ => e_id (merged fs)
             end;
     e_name := match fragment_name tc with
               | Some (c :: r) => Some (c :: r)
               | _ => e_name (merged fs)
               end;
     e_arguments := e_arguments (merged fs) ++ fragment_arguments tc |}.
Proof.
  intros Hne. unfold merged. rewrite !fmap_app.
  change (tcd_id <$> [tc]) with [tcd_id tc].
  change (fragment_name <$> [tc]) with [fragment_name tc].
  change (fragment_arguments <$> [tc]) with [fragment_arguments tc].
  rewrite !last_nonempty_snoc. simpl.
  rewrite join_app. simpl. rewrite app_nil_r. f_equal.
  - by destruct (tcd_id tc) as [[|??]|].
  - assert (unnamed (fs ++ [tc]) = unnamed fs) as ->
      by by destruct fs.
    by destruct (fragment_name tc) as [[|??]|].
Qed.

Lemma merged_singleton tc :
  merged [tc] =
  {| e_id := match tcd_id tc with Some (c :: r) => c :: r | _ => [] end;
     e_name := match fragment_name tc with
               | Some (c :: r) => Some (c :: r)
               | _ => unnamed [tc]
               end;
     e_arguments := fragment_arguments tc |}.
Proof.
  unfold merged, last_nonempty. simpl. rewrite app_nil_r. f_equal.
  - by destruct (tcd_id tc) as [[|??]|].
  - by destruct (fragment_name tc) as [[|??]|].
Qed.

(** What [merge_fragment] does to the entry of the fragment's index. *)
Lemma merge_fragment_same m tc :
  merge_fragment m tc !! index tc =
  Some
    (let e := default {| e_id := []; e_name := unnamed [tc];
                         e_arguments := [] |} (m !! index tc) in
     {| e_id := match tcd_id tc with
                | Some (c :: r) => c :: r
                | _ => e_id e
                end;
        e_name := match fragment_name tc with
                  | Some (c :: r) => Some (c :: r)
                  | _ => e_name e
                  end;
        e_arguments := e_arguments e ++ fragment_arguments tc |}).
Proof.
  unfold merge_fragment, fragment_name, fragment_arguments, unnamed. simpl.
  destruct tc as [idx id [[name args]|]]; simpl;
    destruct (m !! idx) as [e|] eqn:Hm; simpl;
    destruct id as [[|??]|]; simpl;
    try destruct name as [[|??]|]; simpl;
    try destruct args as [[|??]|]; simpl;
    rewrite ?lookup_alter_eq, ?lookup_insert_eq, ?Hm; simpl;
    rewrite ?app_nil_r; try done; by destruct e.
Qed.

Lemma merge_fragment_other m tc i :
  i ≠ index tc → merge_fragment m tc !! i = m !! i.
Proof.
  intros Hne. unfold merge_fragment.
  repeat case_match;
    rewrite ?lookup_alter_ne, ?lookup_insert_ne by done; done.
Qed.

(** The map after the fragments [fs]: for each index, the entry merged
    from the fragments of that index. *)
Lemma merge_fragments_lookup fs i :
  foldl merge_fragment ∅ fs !! i =
  match at_index i fs with
  | [] => None
  | F => Some (merged F)
  end.
Proof.
  induction fs as [|tc fs IH] using rev_ind; [done|].
  rewrite foldl_snoc. unfold at_index in *. rewrite filter_app.
  destruct (decide (index tc = i)) as [<-|Hne].
  - rewrite filter_cons_True by done. rewrite filter_nil.
    rewrite merge_fragment_same, IH. simpl.
    destruct (filter _ fs) as [|tc' F] eqn:HF; simpl.
    + by rewrite merged_singleton.
    + rewrite app_comm_cons, (merged_snoc (tc' :: F)) by done. done.
  - rewrite filter_cons_False by done. rewrite filter_nil, app_nil_r.
    by rewrite merge_fragment_other.
Qed.

Lemma stream_tool_calls_map st chunks :
  tool_calls_map (foldl stream_step st chunks)
  = foldl merge_fragment (tool_calls_map st) (fragments chunks).
Proof.
  revert st. induction chunks as [|chunk chunks IH]; intros st; [done|].
  simpl. unfold fragments in *. simpl. rewrite foldl_app, IH. f_equal.
  unfold stream_step, chunk_fragments. by destruct (choices chunk).
Qed.

Lemma sorted_indices (X : gset Z) :
  StronglySorted Z.lt (merge_sort Z.le (elements X)).
Proof.
  pose proof (StronglySorted_merge_sort Z.le (elements X)) as Hs.
  assert (NoDup (merge_sort Z.le (elements X))) as Hnd.
  { rewrite merge_sort_Permutation. apply NoDup_elements. }
  induction Hs as [|x l Hs IH Hall]; [constructor|].
  apply NoDup_cons in Hnd as [Hx Hnd]. constructor; [by apply IH|].
  rewrite Forall_forall in *. intros y Hy.
  specialize (Hall y Hy). assert (x ≠ y) by (intros ->; done). lia.
Qed.

Section WithExternals.
Context `{Externals}.

(** The request built from an entry. *)
Definition request_of (e : Entry) : ToolCallRequest :=
  {| tc_id := e_id e; tc_name := e_name e;
     tc_arguments := parse_arguments (e_arguments e) |}.

Lemma build_tool_calls_spec fs :
  let m := foldl merge_fragment ∅ fs in
  let indices := merge_sort Z.le (elements (dom m)) in
  (∀ i, i ∈ indices ↔ ∃ tc, tc ∈ fs ∧ index tc = i)
  ∧ build_tool_calls m = (λ i, request_of (merged (at_index i fs))) <$> indices.
Proof.
  simpl. split.
  - intros i. rewrite merge_sort_Permutation, elem_of_elements, elem_of_dom.
    rewrite merge_fragments_lookup. unfold at_index.
    destruct (filter _ fs) as [|tc F] eqn:HF.
    + split; [by intros [? ?]|]. intros (tc & Hin & Hi).
      assert (tc ∈ filter (λ tc, index tc = i) fs) as Hf
        by by apply list_elem_of_filter.
      rewrite HF in Hf. by apply elem_of_nil in Hf.
    + split; [|by eauto]. intros _. exists tc.
      assert (tc ∈ filter (λ tc, index tc = i) fs) as Hf
        by (rewrite HF; left).
      by apply list_elem_of_filter in Hf as [? ?].
  - unfold build_tool_calls.
    assert (∀ i, i ∈ merge_sort Z.le (elements (dom (foldl merge_fragment ∅ fs)))
                 → at_index i fs ≠ []) as Hin.
    { intros i. rewrite merge_sort_Permutation, elem_of_elements, elem_of_dom.
      rewrite merge_fragments_lookup. by destruct (at_index i fs). }
    induction (merge_sort Z.le _) as [|i l IH]; [done|].
    simpl. rewrite merge_fragments_lookup.
    destruct (at_index i fs) as [|tc F] eqn:HF.
    { exfalso. eapply Hin; [left|done]. }
    simpl. f_equal. apply IH. intros j Hj. apply Hin. by right.
Qed.


End WithExternals.

(** The scenario of [tests/test_litellm_provider.py]: the arguments
    [{"x":"y"}] arrive in two fragments of index 0. *)
Definition xy_json : pystr :=
  py "{" ++ dq ++ py "x" ++ dq ++ py ":" ++ dq ++ py "y" ++ dq ++ py "}".

#[local] Instance xy_decoder : Externals := {|
  unicode_isalnum _ := false;
  alnum_not_space := ltac:(discriminate);
  json_loads text :=
    if bool_decide (text = xy_json)
    then Some (VDict {[ py "x" := VStr (py "y") ]}) else None;
  raw_decode _ := None;
  uuid4_hex _ := py "0123456789abcdef0123456789abcdef";
|}.

Definition two_chunks : list Chunk :=
  [ {| choices :=
         [ {| delta :=
                {| d_content := Some (py "Hello");
                   d_reasoning_content := Some (py "r1-");
                   d_tool_calls :=
                     [ {| index := 0; tcd_id := Some (py "call_1");
                          function :=
                            Some {| fn_name := Some (py "message");
                                    fn_arguments := Some (take 5 xy_json) |}
                       |} ] |};
              c_finish_reason := None |} ];
       chunk_usage := None |};
    {| choices :=
         [ {| delta :=
                {| d_content := Some (py " world");
                   d_reasoning_content := Some (py "r2");
                   d_tool_calls :=
                     [ {| index := 0; tcd_id := None;
                          function :=
                            Some {| fn_name := None;
                                    fn_arguments := Some (drop 5 xy_json) |}
                       |} ] |};
              c_finish_reason := Some (py "tool_calls") |} ];
       chunk_usage :=
         Some {| prompt_tokens := 10; completion_tokens := 3;
                 total_tokens := 13 |} |} ].


(** A stream whose only call is never named: its fragment has a function
    object that carries arguments but no name. *)
Definition unnamed_chunk : Chunk :=
  {| choices :=
       [ {| delta :=
              {| d_content := None; d_reasoning_content := None;
                 d_tool_calls :=
                   [ {| index := 0; tcd_id := Some (py "call_1");
                        function := Some {| fn_name := None;
                                            fn_arguments := Some (py "{}") |}
                     |} ] |};
            c_finish_reason := Some (py "tool_calls") |} ];
     chunk_usage := None |}.


End StreamFacts.

(* ===================================================================== *)
(** ** Tool calls written in the streamed text *)
(* ===================================================================== *)

Module CoerceFacts.
Import PyFacts Provider LogFacts.

Ltac bool_to_prop :=
  rewrite ?orb_true_iff, ?andb_true_iff, ?N.leb_le, ?N.eqb_eq in *.

Lemma name_start_not_space c : is_name_start c = true → isspace c = false.
Proof.
  unfold is_name_start, isspace. intros Hn. apply not_true_is_false.
  intros Hs. bool_to_prop. lia.
Qed.

Lemma drop_app_eq {A} (l : list A) a u v :
  drop a l = u ++ v → drop (a + length u) l = v.
Proof. intros Hd. by rewrite <- drop_drop, Hd, drop_app_length. Qed.

Lemma drop_lookup {A} (l : list A) i x r : drop i l = x :: r → l !! i = Some x.
Proof.
  intros Hd. pose proof (lookup_drop l i 0) as Hl.
  rewrite Hd, Nat.add_0_r in Hl. done.
Qed.

Lemma lookup_drop_cons {A} (l : list A) i x :
  l !! i = Some x → ∃ r, drop i l = x :: r.
Proof.
  revert i. induction l as [|y l IH]; intros [|i]; simpl; try done.
  - intros [= ->]. eauto.
  - apply IH.
Qed.

Lemma lstrip_take s : s = take_while isspace s ++ lstrip s.
Proof. symmetry. apply take_drop_while. Qed.

Lemma lstrip_length s :
  (length s - length (lstrip s))%nat = length (take_while isspace s).
Proof.
  rewrite (lstrip_take s) at 1. rewrite length_app. lia.
Qed.

(** *** Finding the token *)

(** The token stands at offset [start] of [content]. *)
Definition token_at (content : pystr) (start : nat) : Prop :=
  ∃ rest, drop start content = token ++ rest.

(** [start] is the first offset from [pos] on where the token stands. *)
Definition next_token (content : pystr) (pos start : nat) : Prop :=
  (pos ≤ start)%nat ∧ token_at content start
  ∧ ∀ j, (pos ≤ j < start)%nat → ¬ token_at content j.

Lemma find_in_Some tok s off :
  find_in tok s = Some off →
  (∃ rest, drop off s = tok ++ rest)
  ∧ ∀ j, (j < off)%nat → ¬ ∃ rest, drop j s = tok ++ rest.
Proof.
  revert off. induction s as [|c t IH]; intros off; simpl.
  - destruct (strip_prefix tok []) as [rest|] eqn:Hp; [|done].
    intros [= <-]. apply strip_prefix_Some in Hp. split; [eauto | lia].
  - destruct (strip_prefix tok (c :: t)) as [rest|] eqn:Hp.
    + intros [= <-]. apply strip_prefix_Some in Hp. split; [eauto | lia].
    + destruct (find_in tok t) as [off'|] eqn:Hf; [|done].
      intros [= <-]. destruct (IH _ eq_refl) as (Hat & Hmin).
      split; [done|]. intros [|j] Hj.
      * intros (rest & Hr). simpl in Hr.
        assert (strip_prefix tok (c :: t) = Some rest) as Hs
          by by apply strip_prefix_Some.
        congruence.
      * simpl. apply Hmin. lia.
Qed.

Lemma find_in_None tok s :
  find_in tok s = None → ∀ j, ¬ ∃ rest, drop j s = tok ++ rest.
Proof.
  induction s as [|c t IH]; simpl.
  - destruct (strip_prefix tok []) as [rest|] eqn:Hp; [done|].
    intros _ j (rest & Hr). rewrite drop_nil in Hr.
    assert (strip_prefix tok [] = Some rest) as Hs by by apply strip_prefix_Some.
    congruence.
  - destruct (strip_prefix tok (c :: t)) as [rest|] eqn:Hp; [done|].
    destruct (find_in tok t) eqn:Hf; [done|]. intros _ [|j].
    + intros (rest & Hr). simpl in Hr.
      assert (strip_prefix tok (c :: t) = Some rest) as Hs
        by by apply strip_prefix_Some.
      congruence.
    + simpl. by apply IH.
Qed.

Lemma find_Some content pos start :
  find token content pos = Some start → next_token content pos start.
Proof.
  unfold find. destruct (find_in token (drop pos content)) as [off|] eqn:Hf;
    [|done].
  intros [= <-]. apply find_in_Some in Hf as ((rest & Hat) & Hmin).
  rewrite drop_drop in Hat. split; [lia|]. split; [by exists rest|].
  intros j Hj (rest' & Hr). apply (Hmin (j - pos)%nat); [lia|].
  exists rest'. rewrite drop_drop. by replace (pos + (j - pos))%nat with j by lia.
Qed.

Lemma find_None content pos :
  find token content pos = None → ∀ j, (pos ≤ j)%nat → ¬ token_at content j.
Proof.
  unfold find. destruct (find_in token (drop pos content)) eqn:Hf; [done|].
  intros _ j Hj (rest & Hr). apply (find_in_None _ _ Hf (j - pos)%nat).
  exists rest. rewrite drop_drop. by replace (pos + (j - pos))%nat with j by lia.
Qed.


Lemma token_length : length token = 11%nat.
Proof. reflexivity. Qed.

Lemma token_at_room content start :
  token_at content start → (start + length token ≤ length content)%nat.
Proof.
  intros (rest & Hr). apply (f_equal length) in Hr.
  rewrite length_drop, length_app in Hr.
  assert (0 < length token)%nat by (vm_compute; lia). lia.
Qed.

Section WithExternals.
Context `{Externals}.

Lemma space_not_word c : isspace c = true → is_word c = false.
Proof.
  intros Hs. unfold is_word. apply not_true_is_false. intros Hw.
  apply orb_true_iff in Hw as [Hw|Hw].
  - apply orb_true_iff in Hw as [Hw|Hw].
    + apply name_start_not_space in Hw. congruence.
    + unfold isspace in Hs. bool_to_prop. lia.
  - apply andb_true_iff in Hw as [_ Hw]. apply alnum_not_space in Hw.
    congruence.
Qed.

Lemma paren_not_word : is_word 40 = false.
Proof. unfold is_word. simpl. done. Qed.

(** *** The header *)

(** The text [s] begins with a header: white space, a name, white space
    and an opening parenthesis, [rest] being what follows. *)
Definition header (s name rest : pystr) : Prop :=
  ∃ ws1 c0 nm ws2,
    s = ws1 ++ (c0 :: nm) ++ ws2 ++ 40%N :: rest
    ∧ forallb isspace ws1 = true
    ∧ is_name_start c0 = true
    ∧ forallb is_word nm = true
    ∧ forallb isspace ws2 = true
    ∧ name = c0 :: nm.

Lemma word_stop nm ws2 rest :
  forallb is_word nm = true → forallb isspace ws2 = true →
  take_while is_word (nm ++ ws2 ++ 40%N :: rest) = nm
  ∧ drop_while is_word (nm ++ ws2 ++ 40%N :: rest) = ws2 ++ 40%N :: rest.
Proof.
  intros Hnm Hws.
  destruct ws2 as [|w ws2]; simpl in *.
  - split; [by apply take_while_stop | by apply drop_while_stop].
  - apply andb_true_iff in Hws as [Hw _]. apply space_not_word in Hw.
    split; [by apply take_while_stop | by apply drop_while_stop].
Qed.

Lemma match_header_Some s name hend :
  match_header s = Some (name, hend) ↔
  ∃ rest, header s name rest ∧ (hend + length rest)%nat = length s.
Proof.
  unfold match_header. split.
  - destruct (drop_while isspace s) as [|c s2] eqn:H1; [done|].
    destruct (is_name_start c) eqn:Hc; [|done].
    destruct (drop_while isspace (drop_while is_word s2)) as [|p s5] eqn:H2;
      [done|].
    destruct (N.eqb_spec p 40) as [->|]; [|done].
    intros [= <- <-]. exists s5.
    pose proof (take_drop_while isspace s) as E1. rewrite H1 in E1.
    pose proof (take_drop_while is_word s2) as E2.
    pose proof (take_drop_while isspace (drop_while is_word s2)) as E3.
    rewrite H2 in E3.
    assert (s = take_while isspace s ++ (c :: take_while is_word s2)
                ++ take_while isspace (drop_while is_word s2) ++ 40%N :: s5)
      as Hs.
    { rewrite <- E1 at 1. f_equal. simpl. f_equal.
      rewrite <- E2 at 1. f_equal. done. }
    split.
    + exists (take_while isspace s), c, (take_while is_word s2),
             (take_while isspace (drop_while is_word s2)).
      split; [exact Hs|]. rewrite !forallb_take_while. done.
    + pose proof (drop_while_length isspace s) as L1. rewrite H1 in L1.
      pose proof (drop_while_length isspace (drop_while is_word s2)) as L2.
      pose proof (drop_while_length is_word s2) as L3.
      rewrite H2 in L2. simpl in *. lia.
  - intros (rest & (ws1 & c0 & nm & ws2 & -> & Hw1 & Hc & Hnm & Hw2 & ->) & Hl).
    simpl.
    rewrite (drop_while_stop _ _ _ _ Hw1 (name_start_not_space _ Hc)).
    rewrite Hc.
    destruct (word_stop nm ws2 rest Hnm Hw2) as (-> & ->).
    rewrite (drop_while_stop isspace ws2 40%N rest Hw2 eq_refl). simpl.
    f_equal. f_equal. rewrite !length_app in *. simpl in *.
    rewrite !length_app in *. simpl in *. lia.
Qed.

Lemma match_header_drop X name hend :
  match_header X = Some (name, hend) →
  ∃ rest, header X name rest ∧ drop hend X = rest.
Proof.
  intros (rest & Hh & Hl)%match_header_Some. exists rest. split; [done|].
  destruct Hh as (ws1 & c0 & nm & ws2 & -> & _).
  assert (ws1 ++ (c0 :: nm) ++ ws2 ++ 40%N :: rest
          = (ws1 ++ (c0 :: nm) ++ ws2 ++ [40%N]) ++ rest) as E
    by (by rewrite <- !app_assoc).
  rewrite E in Hl |- *. apply drop_app_length'.
  rewrite (length_app (_ ++ _) rest) in Hl. lia.
Qed.

Lemma header_match X name rest :
  header X name rest →
  match_header X = Some (name, (length X - length rest)%nat)
  ∧ drop (length X - length rest) X = rest.
Proof.
  intros Hh.
  assert (length rest ≤ length X)%nat as Hle.
  { destruct Hh as (ws1 & c0 & nm & ws2 & -> & _).
    rewrite !length_app. simpl. rewrite ?length_app. simpl. lia. }
  assert (match_header X = Some (name, (length X - length rest)%nat)) as Hm.
  { apply match_header_Some. exists rest. split; [done | lia]. }
  split; [done|].
  apply match_header_drop in Hm as (rest' & Hh' & Hd).
  rewrite Hd. apply (f_equal length) in Hd. rewrite length_drop in Hd.
  destruct Hh as (ws1 & c0 & nm & ws2 & E1 & _).
  destruct Hh' as (ws1' & c0' & nm' & ws2' & E2 & _).
  assert (length rest' = length rest) as Hlen by lia.
  assert (ws1 ++ (c0 :: nm) ++ ws2 ++ 40%N :: rest
          = (ws1 ++ (c0 :: nm) ++ ws2 ++ [40%N]) ++ rest) as A1
    by (by rewrite <- !app_assoc).
  assert (ws1' ++ (c0' :: nm') ++ ws2' ++ 40%N :: rest'
          = (ws1' ++ (c0' :: nm') ++ ws2' ++ [40%N]) ++ rest') as A2
    by (by rewrite <- !app_assoc).
  rewrite A1 in E1. rewrite A2 in E2. rewrite E1 in E2.
  apply app_inj_2 in E2 as [_ ?]; done.
Qed.

(** *** Well-formed occurrences *)

(** A well-formed occurrence at [start]: the token, a header, white
    space, a JSON value that begins with a brace and that the decoder
    accepts, white space and a closing parenthesis; [end_] is the offset
    after the parenthesis. *)
Definition well_formed (content : pystr) (start : nat)
    (name : pystr) (args : pyval) (end_ : nat) : Prop :=
  ∃ after_token rest ws3 tail consumed ws4 after,
    drop start content = token ++ after_token
    ∧ header after_token name rest
    ∧ rest = ws3 ++ tail
    ∧ forallb isspace ws3 = true
    ∧ (∃ t, tail = 123%N :: t)
    ∧ raw_decode tail = Some (args, consumed)
    ∧ drop consumed tail = ws4 ++ 41%N :: after
    ∧ forallb isspace ws4 = true
    ∧ (end_ + length after)%nat = length content.

#[local] Opaque token.
#[local] Arguments strip_prefix : simpl never.

Lemma brace_prefix tail :
  is_Some (strip_prefix (py "{") tail) ↔ ∃ t, tail = 123%N :: t.
Proof.
  split.
  - intros [t Ht]. apply strip_prefix_Some in Ht. by exists t.
  - intros [t ->]. exists t. by apply strip_prefix_Some.
Qed.

Lemma parse_at_sound content start name args end_ :
  token_at content start →
  parse_at content start = Some (name, args, end_) →
  well_formed content start name args end_.
Proof.
  intros (X & HX). unfold parse_at.
  pose proof (drop_app_eq _ _ _ _ HX) as Hd0. rewrite Hd0.
  destruct (match_header X) as [[name' hend]|] eqn:Hh; [|done]. simpl.
  apply match_header_drop in Hh as (rest & Hh & Hrest).
  assert (drop (start + length token + hend) content = rest) as Hd1
    by by rewrite <- drop_drop, Hd0.
  rewrite Hd1. rewrite lstrip_length.
  pose proof (lstrip_take rest) as Hr.
  set (ws3 := take_while isspace rest) in *.
  set (tail := lstrip rest) in *.
  assert (drop (start + length token + hend + length ws3) content = tail)
    as Hd2 by (apply drop_app_eq; by rewrite Hd1).
  destruct (strip_prefix (py "{") tail) as [t|] eqn:Hb; [|done].
  destruct (raw_decode tail) as [[args' consumed]|] eqn:Hdec; [|done]. simpl.
  assert (drop (start + length token + hend + length ws3 + consumed) content
          = drop consumed tail) as Hd3 by by rewrite <- drop_drop, Hd2.
  rewrite Hd3. rewrite lstrip_length.
  pose proof (lstrip_take (drop consumed tail)) as Ht.
  set (ws4 := take_while isspace (drop consumed tail)) in *.
  set (idx := (start + length token + hend + length ws3 + consumed
               + length ws4)%nat).
  assert (drop idx content = lstrip (drop consumed tail)) as Hd4
    by (apply drop_app_eq; by rewrite Hd3).
  destruct (content !! idx) as [c|] eqn:Hc; [|done].
  destruct (N.eqb_spec c 41) as [->|]; [|done].
  intros [= -> -> <-].
  pose proof (lookup_lt_Some _ _ _ Hc) as Hlt.
  apply lookup_drop_cons in Hc as (after & Hafter).
  exists X, rest, ws3, tail, consumed, ws4, after.
  split; [done|]. split; [done|]. split; [done|].
  split; [apply forallb_take_while|].
  split; [apply brace_prefix; eauto|]. split; [done|].
  split; [by rewrite Ht at 1; rewrite <- Hd4, Hafter|].
  split; [apply forallb_take_while|].
  apply (f_equal length) in Hafter. rewrite length_drop in Hafter.
  simpl in Hafter. lia.
Qed.

Lemma parse_at_complete content start name args end_ :
  well_formed content start name args end_ →
  parse_at content start = Some (name, args, end_).
Proof.
  intros (X & rest & ws3 & tail & consumed & ws4 & after
          & HX & Hh & -> & Hw3 & (t & ->) & Hdec & Hdrop & Hw4 & Hend).
  unfold parse_at.
  pose proof (drop_app_eq _ _ _ _ HX) as Hd0. rewrite Hd0.
  apply header_match in Hh as (-> & Hrest). simpl.
  set (hend := (length X - length (ws3 ++ 123%N :: t))%nat) in *.
  assert (drop (start + length token + hend) content = ws3 ++ 123%N :: t)
    as Hd1 by by rewrite <- drop_drop, Hd0.
  rewrite Hd1.
  assert (lstrip (ws3 ++ 123%N :: t) = 123%N :: t) as Hl
    by by apply drop_while_stop.
  rewrite Hl.
  assert ((length (ws3 ++ 123%N :: t) - length (123%N :: t))%nat
          = length ws3) as -> by (rewrite length_app; lia).
  assert (drop (start + length token + hend + length ws3) content
          = 123%N :: t) as Hd2 by by apply drop_app_eq.
  assert (strip_prefix (py "{") (123%N :: t) = Some t) as ->
    by by apply strip_prefix_Some.
  rewrite Hdec. simpl.
  assert (drop (start + length token + hend + length ws3 + consumed) content
          = ws4 ++ 41%N :: after) as Hd3 by by rewrite <- drop_drop, Hd2.
  rewrite Hd3.
  assert (lstrip (ws4 ++ 41%N :: after) = 41%N :: after) as Hl'
    by by apply drop_while_stop.
  rewrite Hl'.
  assert ((length (ws4 ++ 41%N :: after) - length (41%N :: after))%nat
          = length ws4) as -> by (rewrite length_app; lia).
  set (idx := (start + length token + hend + length ws3 + consumed
               + length ws4)%nat).
  assert (drop idx content = 41%N :: after) as Hd4 by by apply drop_app_eq.
  rewrite (drop_lookup _ _ _ _ Hd4). simpl.
  apply (f_equal length) in Hd4. rewrite length_drop in Hd4. simpl in Hd4.
  do 3 f_equal. lia.
Qed.


Lemma parse_at_progress content start name args end_ :
  parse_at content start = Some (name, args, end_) →
  (start + length token < end_)%nat.
Proof.
  unfold parse_at.
  destruct (match_header _) as [[name' hend]|]; [|done]. simpl.
  destruct (strip_prefix _ _); [|done].
  destruct (raw_decode _) as [[args' consumed]|]; [|done]. simpl.
  destruct (content !! _); [|done]. destruct (_ =? _)%N; [|done].
  intros [= _ _ <-]. lia.
Qed.

(** *** The scan *)

(** A coerced occurrence: where it starts and ends, its name and its
    arguments. *)
Definition occurrence : Type := nat * nat * pystr * pyval.

(** The occurrences the specification asks for, scanning from [pos]: the
    next token is looked up; if a well-formed occurrence starts there it
    is taken and the scan goes on after it, otherwise the scan goes on
    after the token. *)
Inductive Scan (content : pystr) : nat → list occurrence → Prop :=
| Scan_end pos :
    (∀ j, (pos ≤ j)%nat → ¬ token_at content j) →
    Scan content pos []
| Scan_call pos start name args end_ occs :
    next_token content pos start →
    well_formed content start name args end_ →
    Scan content end_ occs →
    Scan content pos ((start, end_, name, args) :: occs)
| Scan_skip pos start occs :
    next_token content pos start →
    (∀ name args end_, ¬ well_formed content start name args end_) →
    Scan content (start + length token) occs →
    Scan content pos occs.

(** The requests made of the occurrences, the first with the [k]-th
    identifier. *)
Fixpoint requests (k : nat) (occs : list occurrence) : list ToolCallRequest :=
  match occs with
  | [] => []
  | (_, _, name, args) :: occs' =>
      text_tool_call k name args :: requests (S k) occs'
  end.

Definition spans_of (occs : list occurrence) : list (nat * nat) :=
  (λ '(start, end_, _, _), (start, end_)) <$> occs.

Lemma scan_spec fuel content pos calls spans :
  (length content - pos ≤ fuel)%nat →
  ∃ occs,
    Scan content pos occs
    ∧ scan fuel content pos calls spans
      = (calls ++ requests (length calls) occs, spans ++ spans_of occs).
Proof.
  revert pos calls spans.
  induction fuel as [|fuel IH]; intros pos calls spans Hfuel.
  - exists []. simpl. rewrite !app_nil_r. split; [|done].
    constructor. intros j Hj Hat%token_at_room.
    pose proof token_length. lia.
  - pose proof token_length as Htl.
    simpl. destruct (find token content pos) as [start|] eqn:Hfind.
    2:{ exists []. simpl. rewrite !app_nil_r. split; [|done].
        constructor. by apply find_None. }
    apply find_Some in Hfind as Hnext.
    pose proof Hnext as (Hle & Hat & _).
    pose proof (token_at_room _ _ Hat) as Hroom.
    destruct (parse_at content start) as [[[name args] end_]|] eqn:Hparse.
    + pose proof (parse_at_progress _ _ _ _ _ Hparse) as Hprog.
      destruct (IH end_ (calls ++ [text_tool_call (length calls) name args])
                   (spans ++ [(start, end_)])) as (occs & Hscan & ->);
        [lia|].
      exists ((start, end_, name, args) :: occs). split.
      * eapply Scan_call; [done| |done]. by apply parse_at_sound.
      * rewrite length_app, Nat.add_1_r, <- !app_assoc. done.
    + destruct (IH (start + length token)%nat calls spans)
        as (occs & Hscan & ->); [lia|].
      exists occs. split; [|done].
      eapply Scan_skip; [done| |done].
      intros name args end_ Hwf%parse_at_complete. congruence.
Qed.


(** What is returned for the occurrences [occs] of [text]. *)
Definition coerced (text : pystr) (occs : list occurrence)
    : option pystr * list ToolCallRequest :=
  match occs with
  | [] => (Some text, [])
  | _ =>
      (or_none (strip (collapse_newlines
                         (mjoin (cut_spans text 0 (spans_of occs))))),
       requests 0 occs)
  end.

Lemma coerce_spec text :
  text ≠ [] →
  ∃ occs,
    Scan text 0 occs
    ∧ _coerce_stream_text_tool_calls (Some text) = coerced text occs.
Proof.
  intros Hne. destruct text as [|c r]; [done|].
  unfold _coerce_stream_text_tool_calls.
  destruct (find token (c :: r) 0) as [start|] eqn:Hfind.
  - destruct (scan_spec (length (c :: r)) (c :: r) 0 [] [])
      as (occs & Hscan & ->); [lia|].
    exists occs. split; [done|]. simpl.
    destruct occs as [|[[[??]?]?] occs]; done.
  - exists []. split; [|done]. constructor. by apply find_None.
Qed.

(** The requests made from the text have names. *)
Lemma scan_named fuel content pos calls spans :
  Forall (λ tc, is_Some (tc_name tc)) calls →
  Forall (λ tc, is_Some (tc_name tc)) (scan fuel content pos calls spans).1.
Proof.
  revert pos calls spans.
  induction fuel as [|fuel IH]; intros pos calls spans Hall; [done|].
  simpl. destruct (find token content pos) as [start|]; [|done].
  destruct (parse_at content start) as [[[name args] end_]|]; [|by apply IH].
  apply IH. apply Forall_app. split; [done|].
  constructor; [by eexists | constructor].
Qed.

Lemma coerced_calls_named text :
  Forall (λ tc, is_Some (tc_name tc)) (_coerce_stream_text_tool_calls text).2.
Proof.
  unfold _coerce_stream_text_tool_calls.
  destruct text as [[|c r]|]; [constructor| |constructor].
  destruct (find token (c :: r) 0); [|constructor].
  pose proof (scan_named (length (c :: r)) (c :: r) 0 [] []
                ltac:(constructor)) as Hall.
  destruct (scan _ _ _ _ _) as [calls spans]. simpl in Hall.
  destruct calls; [constructor | done].
Qed.



(** The scenario of the specification:
    [Hello [tool_call] message({"content":"hi"}) bye]. *)
Definition hi_json : pystr :=
  py "{" ++ dq ++ py "content" ++ dq ++ py ":" ++ dq ++ py "hi" ++ dq ++ py "}".


Definition hi_args : pyval := VDict {[ py "content" := VStr (py "hi") ]}.



#[local] Transparent token.




#[local] Opaque token.


End WithExternals.

(** A decoder that knows the JSON text of the scenario, whatever follows
    it. *)
#[local] Instance hi_decoder : Externals := {|
  unicode_isalnum _ := false;
  alnum_not_space := ltac:(discriminate);
  json_loads _ := None;
  raw_decode text :=
    if bool_decide (take 16 text = hi_json)
    then Some (hi_args, 16%nat) else None;
  uuid4_hex _ := py "0123456789abcdef0123456789abcdef";
|}.



End CoerceFacts.

(* ===================================================================== *)
(** ** More on the message bus: waiters and the inbound queue *)
(* ===================================================================== *)

Module BusMoreFacts.
Import Bus BusFacts Ack.

Lemma pending_at_done (fs : list future) a st :
  fs !! a = Some st → pending_at fs a = negb (done st).
Proof. unfold pending_at. by intros ->. Qed.

Lemma set_result_other fs a b success error :
  a ≠ b → set_result a success error fs !! b = fs !! b.
Proof. intros Hne. unfold set_result. by apply list_lookup_insert_ne. Qed.

Lemma guarded_set_result_done (fs : list future) old a st success error :
  fs !! a = Some st → done st = true →
  (if pending_at fs old then set_result old success error fs else fs) !! a
  = Some st.
Proof.
  intros Ha Hd. destruct (pending_at fs old) eqn:Hp; [|done].
  destruct (decide (old = a)) as [->|Hne].
  - rewrite (pending_at_done _ _ _ Ha), Hd in Hp. done.
  - by rewrite set_result_other.
Qed.

Lemma run_op_done bus op a st :
  futures bus !! a = Some st → done st = true →
  futures (run_op bus op) !! a = Some st.
Proof.
  intros Ha Hd. destruct op as [msg| |msg|rid|rid success error|rid]; simpl.
  - unfold publish_inbound. by destruct (is_active _ _).
  - unfold consume_inbound. by destruct (inbound bus).
  - unfold complete_inbound_turn. case_bool_decide; [done|]. simpl.
    by destruct (_merge_buffered_messages _).
  - assert ((futures bus ++ [Pending]) !! a = Some st) as Ha'
      by (rewrite lookup_app_l; [done | by eapply lookup_lt_Some]).
    destruct (_outbound_waiters bus !! rid) as [old|]; [|done].
    by apply guarded_set_result_done.
  - unfold resolve_outbound_waiter. destruct rid as [[|c r]|]; [done| |done].
    simpl. destruct (_outbound_waiters bus !! (c :: r)) as [old|]; [|done].
    by apply guarded_set_result_done.
  - unfold discard_outbound_waiter. by destruct rid as [[|c r]|].
Qed.

(** X1.  A future that is done keeps its state through every sequence
    of bus operations: a result is set at most once. *)
Theorem done_future_is_final bus (ops : list bus_op) a st :
  futures bus !! a = Some st → done st = true →
  futures (foldl run_op bus ops) !! a = Some st.
Proof.
  revert bus. induction ops as [|op ops IH]; intros bus Ha Hd; [done|].
  simpl. apply IH; [|done]. by apply run_op_done.
Qed.

Lemma done_future_is_final_witness :
  let bus := (create_outbound_waiter (py "out_1") new_bus).2 in
  let bus := resolve_outbound_waiter (Some (py "out_1")) true None bus in
  futures bus !! 0%nat = Some (Result true None)
  ∧ futures (foldl run_op bus
               [CreateWaiter (py "out_1");
                ResolveWaiter (Some (py "out_1")) false (Some (py "late"));
                DiscardWaiter (Some (py "out_1"))]) !! 0%nat
    = Some (Result true None).
Proof.
  intros bus0 bus.
  assert (futures bus !! 0%nat = Some (Result true None)) as Ha
    by (vm_compute; reflexivity).
  split; [exact Ha|].
  exact (done_future_is_final bus _ 0%nat _ Ha eq_refl).
Defined.

(** The registry only holds addresses of futures of the store. *)
Definition registry_ok (bus : MessageBus) : Prop :=
  ∀ k a, _outbound_waiters bus !! k = Some a → a < length (futures bus).

Lemma registry_ok_new_bus : registry_ok new_bus.
Proof. intros k a. unfold new_bus. simpl. by rewrite lookup_empty. Qed.

Lemma guarded_set_result_length (fs : list future) old success error :
  length (if pending_at fs old then set_result old success error fs else fs)
  = length fs.
Proof.
  destruct (pending_at fs old); [|done]. unfold set_result.
  by rewrite length_insert.
Qed.

Lemma registry_ok_run_op bus op :
  registry_ok bus → registry_ok (run_op bus op).
Proof.
  intros Hok. destruct op as [msg| |msg|rid|rid success error|rid]; simpl.
  - unfold publish_inbound. by destruct (is_active _ _).
  - unfold consume_inbound. by destruct (inbound bus).
  - unfold complete_inbound_turn. case_bool_decide; [done|]. simpl.
    by destruct (_merge_buffered_messages _).
  - intros k a. simpl.
    assert (length (match _outbound_waiters bus !! rid with
                    | Some a0 =>
                        if pending_at (futures bus ++ [Pending]) a0
                        then set_result a0 false (Some superseded)
                               (futures bus ++ [Pending])
                        else futures bus ++ [Pending]
                    | None => futures bus ++ [Pending]
                    end) = S (length (futures bus))) as ->.
    { destruct (_outbound_waiters bus !! rid);
        rewrite ?guarded_set_result_length, length_app; simpl; lia. }
    destruct (decide (k = rid)) as [->|Hne].
    + rewrite lookup_insert_eq. intros [= <-]. lia.
    + rewrite lookup_insert_ne, lookup_delete_ne by done.
      intros Hk. apply Hok in Hk. lia.
  - unfold resolve_outbound_waiter. destruct rid as [[|c r]|]; [done| |done].
    intros k a. simpl.
    assert (length (match _outbound_waiters bus !! (c :: r) with
                    | Some a0 =>
                        if pending_at (futures bus) a0
                        then set_result a0 success error (futures bus)
                        else futures bus
                    | None => futures bus
                    end) = length (futures bus)) as ->.
    { destruct (_outbound_waiters bus !! (c :: r));
        rewrite ?guarded_set_result_length; done. }
    intros Hk. apply lookup_delete_Some in Hk as [_ Hk]. by apply Hok in Hk.
  - unfold discard_outbound_waiter. destruct rid as [[|c r]|]; [done| |done].
    intros k a. simpl.
    intros Hk. apply lookup_delete_Some in Hk as [_ Hk]. by apply Hok in Hk.
Qed.

Lemma registry_ok_reachable (ops : list bus_op) :
  registry_ok (foldl run_op new_bus ops).
Proof.
  assert (∀ bus, registry_ok bus → registry_ok (foldl run_op bus ops)) as H.
  { induction ops as [|op ops IH]; intros bus Hok; [done|].
    simpl. apply IH. by apply registry_ok_run_op. }
  apply H, registry_ok_new_bus.
Qed.

Lemma create_lookup bus request_id :
  registry_ok bus →
  let fut := (create_outbound_waiter request_id bus).1 in
  let bus' := (create_outbound_waiter request_id bus).2 in
  fut = length (futures bus)
  ∧ _outbound_waiters bus' !! request_id = Some fut
  ∧ futures bus' !! fut = Some Pending.
Proof.
  intros Hok. simpl. split; [done|]. split; [by rewrite lookup_insert_eq|].
  assert ((futures bus ++ [Pending]) !! length (futures bus) = Some Pending)
    as Hnew by (by rewrite lookup_app_r, Nat.sub_diag).
  destruct (_outbound_waiters bus !! request_id) as [old|] eqn:Hold; [|done].
  destruct (pending_at (futures bus ++ [Pending]) old); [|done].
  apply Hok in Hold. unfold set_result.
  rewrite list_lookup_insert_ne by lia. done.
Qed.

(** X2.  An acknowledgement for a waiter just created reaches its
    future and removes the waiter; a second acknowledgement for the same id
    changes nothing. *)
Theorem resolve_after_create bus request_id success error :
  registry_ok bus → request_id ≠ [] →
  let fut := (create_outbound_waiter request_id bus).1 in
  let bus1 := (create_outbound_waiter request_id bus).2 in
  let bus2 := resolve_outbound_waiter (Some request_id) success error bus1 in
  futures bus2 !! fut = Some (Result success error)
  ∧ _outbound_waiters bus2 !! request_id = None
  ∧ ∀ success' error',
      resolve_outbound_waiter (Some request_id) success' error' bus2 = bus2.
Proof.
  intros Hok Hne fut bus1 bus2.
  destruct (create_lookup bus request_id Hok) as (Hfut & Hw & Hp).
  fold fut in Hfut, Hw, Hp. fold bus1 in Hw, Hp.
  destruct request_id as [|c r]; [done|].
  assert (futures bus2 = set_result fut success error (futures bus1)
          ∧ _outbound_waiters bus2 = delete (c :: r) (_outbound_waiters bus1))
    as (Hf2 & Hw2).
  { unfold bus2, resolve_outbound_waiter. cbv zeta.
    by rewrite Hw, (pending_at_done _ _ _ Hp). }
  split; [|split].
  - rewrite Hf2. unfold set_result. apply list_lookup_insert_eq.
    by eapply lookup_lt_Some.
  - rewrite Hw2. apply lookup_delete_eq.
  - intros success' error'. unfold resolve_outbound_waiter.
    assert (_outbound_waiters bus2 !! (c :: r) = None) as Hnone
      by (rewrite Hw2; apply lookup_delete_eq).
    rewrite Hnone. rewrite delete_id by done. by destruct bus2.
Qed.

Lemma resolve_after_create_witness :
  let bus1 := (create_outbound_waiter (py "out_1") new_bus).2 in
  let bus2 := resolve_outbound_waiter (Some (py "out_1")) false
                (Some (py "chat not found")) bus1 in
  registry_ok new_bus ∧ py "out_1" ≠ []
  ∧ futures bus2 !! 0%nat = Some (Result false (Some (py "chat not found")))
  ∧ _outbound_waiters bus2 !! py "out_1" = None.
Proof.
  intros bus1 bus2.
  assert (py "out_1" ≠ []) as Hne by (vm_compute; discriminate).
  destruct (resolve_after_create new_bus (py "out_1") false
              (Some (py "chat not found")) registry_ok_new_bus Hne)
    as (Hf & Hw & _).
  split; [exact registry_ok_new_bus|].
  split; [exact Hne|]. split; [exact Hf | exact Hw].
Defined.

(** X3.  A waiter that was discarded (the timeout path) leaves its
    future pending, and an acknowledgement that arrives later is
    ignored. *)
Theorem late_acknowledgement_ignored bus request_id success error :
  registry_ok bus →
  let fut := (create_outbound_waiter request_id bus).1 in
  let bus1 := (create_outbound_waiter request_id bus).2 in
  let bus2 := discard_outbound_waiter (Some request_id) bus1 in
  futures bus2 !! fut = Some Pending
  ∧ resolve_outbound_waiter (Some request_id) success error bus2 = bus2
  ∧ futures (resolve_outbound_waiter (Some request_id) success error bus2)
      !! fut = Some Pending.
Proof.
  intros Hok fut bus1 bus2.
  destruct (create_lookup bus request_id Hok) as (Hfut & Hw & Hp).
  fold fut in Hfut, Hw, Hp. fold bus1 in Hw, Hp.
  assert (futures bus2 !! fut = Some Pending) as Hp2.
  { unfold bus2, discard_outbound_waiter. by destruct request_id. }
  assert (resolve_outbound_waiter (Some request_id) success error bus2 = bus2)
    as Hid.
  { unfold resolve_outbound_waiter. destruct request_id as [|c r]; [done|].
    assert (_outbound_waiters bus2 !! (c :: r) = None) as Hnone
      by (unfold bus2; simpl; apply lookup_delete_eq).
    rewrite Hnone. rewrite delete_id by done. by destruct bus2. }
  split; [done|]. split; [done|]. by rewrite Hid.
Qed.

Lemma late_acknowledgement_ignored_witness :
  let bus1 := (create_outbound_waiter (py "out_1") new_bus).2 in
  let bus2 := discard_outbound_waiter (Some (py "out_1")) bus1 in
  registry_ok new_bus
  ∧ futures (resolve_outbound_waiter (Some (py "out_1")) true None bus2)
      !! 0%nat = Some Pending.
Proof.
  intros bus1 bus2. split; [exact registry_ok_new_bus|].
  exact (proj2 (proj2 (late_acknowledgement_ignored new_bus (py "out_1")
                         true None registry_ok_new_bus))).
Defined.

(** Completing a turn twice is the same as completing it once. *)
Theorem complete_inbound_turn_idempotent bus msg :
  complete_inbound_turn msg (complete_inbound_turn msg bus)
  = complete_inbound_turn msg bus.
Proof.
  assert (∀ b, _active_inbound_session b ≠ Some (session_key msg) →
               complete_inbound_turn msg b = b) as Hnoop.
  { intros b Hb. unfold complete_inbound_turn.
    by rewrite bool_decide_eq_true_2. }
  destruct (decide (_active_inbound_session bus = Some (session_key msg)))
    as [Ha|Ha]; [|by rewrite !(Hnoop bus Ha)].
  apply Hnoop. unfold complete_inbound_turn.
  rewrite bool_decide_eq_false_2 by (by intros []). done.
Qed.

Lemma publish_idle bus msg :
  _active_inbound_session bus = None →
  publish_inbound msg bus = with_inbound (inbound bus ++ [msg]) bus.
Proof. intros Ha. unfold publish_inbound, is_active. by rewrite Ha. Qed.

(** X4.  While no turn is open nothing is buffered: messages enter the
    queue in the order they are published, whatever their sessions, and the
    next [consume_inbound] returns the oldest one and opens its turn. *)
Theorem idle_publish_is_fifo bus (ms : list InboundMessage) :
  _active_inbound_session bus = None →
  let bus' := foldl (λ b m, publish_inbound m b) bus ms in
  inbound bus' = inbound bus ++ ms
  ∧ _inbound_collect_buffer bus' = _inbound_collect_buffer bus
  ∧ _active_inbound_session bus' = None
  ∧ ∀ first rest,
      inbound bus ++ ms = first :: rest →
      ∃ bus'', consume_inbound bus' = Some (first, bus'')
               ∧ inbound bus'' = rest
               ∧ _active_inbound_session bus'' = Some (session_key first).
Proof.
  intros Ha. simpl.
  assert (inbound (foldl (λ b m, publish_inbound m b) bus ms)
          = inbound bus ++ ms
          ∧ _inbound_collect_buffer (foldl (λ b m, publish_inbound m b) bus ms)
            = _inbound_collect_buffer bus
          ∧ _active_inbound_session (foldl (λ b m, publish_inbound m b) bus ms)
            = None) as (Hq & Hb & Ha').
  { revert bus Ha. induction ms as [|m ms IH]; intros bus Ha; simpl.
    - by rewrite app_nil_r.
    - rewrite publish_idle by done.
      destruct (IH (with_inbound (inbound bus ++ [m]) bus) Ha)
        as (-> & -> & ->).
      simpl. by rewrite <- app_assoc. }
  split; [done|]. split; [done|]. split; [done|].
  intros first rest Heq. unfold consume_inbound. rewrite Hq, Heq.
  eexists. split; [reflexivity|]. done.
Qed.

Lemma idle_publish_is_fifo_witness :
  let one := telegram "alice" "c1" "one" in
  let two := telegram "bob" "c2" "two" in
  _active_inbound_session new_bus = None
  ∧ inbound (foldl (λ b m, publish_inbound m b) new_bus [one; two])
    = [one; two].
Proof.
  intros one two.
  destruct (idle_publish_is_fifo new_bus [one; two] eq_refl) as (Hq & _).
  split; [reflexivity | exact Hq].
Defined.

End BusMoreFacts.

(* ===================================================================== *)
(** ** More on the [SILENT] sentinel *)
(* ===================================================================== *)

Module SilentMoreFacts.
Import PyFacts Silent SilentFacts.

(** X7.  What [_strip_silent_marker] returns never ends in the
    sentinel: [_contains_silent_marker] is false on it. *)
Theorem stripped_text_has_no_marker (content : option pystr) :
  _contains_silent_marker (_strip_silent_marker content) = false.
Proof.
  destruct content as [s|]; [|done].
  destruct (_strip_silent_marker (Some s)) as [r|] eqn:E; [|done].
  apply strip_result_no_sentinel in E. unfold _contains_silent_marker.
  rewrite E. rewrite bool_decide_eq_false_2; [by destruct (truthy _)|].
  by intros [? ?].
Qed.

Lemma search_unfold s :
  search s =
  match match_at s with
  | Some n => Some (0%nat, n)
  | None =>
      match s with
      | [] => None
      | _ :: t => prod_map S id <$> search t
      end
  end.
Proof. by destruct s. Qed.

Lemma SILENT_length : length SILENT = 8%nat.
Proof. reflexivity. Qed.

(** Before the last sentinel of a text that ends in it no match starts:
    the closing bracket of that sentinel is not in the character class. *)
Lemma search_last_sentinel body c :
  forallb trailing_class c = true →
  search (body ++ SILENT ++ c) = Some (length body, (8 + length c)%nat).
Proof.
  intros Hc. induction body as [|x body IH].
  - rewrite app_nil_l, search_unfold.
    assert (match_at (SILENT ++ c) = Some (length (SILENT ++ c))) as ->.
    { apply match_at_Some. by exists c. }
    by rewrite length_app, SILENT_length.
  - rewrite search_unfold.
    destruct (match_at ((x :: body) ++ SILENT ++ c)) as [n|] eqn:E.
    + exfalso. apply match_at_Some in E as (c' & Heq & Hc' & _).
      assert (((x :: body) ++ SILENT ++ c) !! (length (x :: body) + 7)%nat
              = Some 93%N) as Hr.
      { rewrite lookup_app_r by lia.
        replace (length (x :: body) + 7 - length (x :: body))%nat with 7%nat
          by lia.
        by rewrite lookup_app_l by (rewrite SILENT_length; lia). }
      rewrite Heq in Hr.
      rewrite lookup_app_r in Hr by (rewrite SILENT_length; simpl; lia).
      apply list_elem_of_lookup_2 in Hr.
      rewrite forallb_forall in Hc'.
      apply list_elem_of_In, Hc' in Hr. by vm_compute in Hr.
    + rewrite <- app_comm_cons. rewrite IH. done.
Qed.

(** X8.  For a text that is a body, the sentinel, and then only code
    points of the pattern's class, where the body does not itself end in
    the sentinel: the marker is seen, and the visible text is the body with
    runs of three or more newlines collapsed to two and surrounding white
    space removed. *)
Theorem strip_silent_marker_keeps_body (body c : pystr) :
  forallb trailing_class c = true →
  ¬ ends_with_sentinel body →
  _contains_silent_marker (Some (body ++ SILENT ++ c)) = true
  ∧ _strip_silent_marker (Some (body ++ SILENT ++ c))
    = Some (strip (collapse_newlines body)).
Proof.
  intros Hc Hbody.
  pose proof (search_last_sentinel body c Hc) as Hs.
  assert (search body = None) as Hnone.
  { destruct (search body) eqn:E; [|done]. exfalso. apply Hbody.
    apply search_is_Some. by rewrite E. }
  split.
  - unfold _contains_silent_marker. rewrite Hs.
    rewrite bool_decide_eq_true_2 by eauto.
    destruct body; [done|]. by rewrite <- app_comm_cons.
  - unfold _strip_silent_marker. rewrite Hs.
    assert (length (body ++ SILENT ++ c) = S (length body + 7 + length c))
      as -> by (rewrite !length_app, SILENT_length; lia).
    cbn [strip_loop]. rewrite Hs, (sub_search _ _ _ Hs).
    rewrite take_app_length.
    assert (strip_loop (length body + 7 + length c) body = body) as ->.
    { destruct (length body + 7 + length c)%nat; simpl; by rewrite Hnone. }
    done.
Qed.

Lemma strip_silent_marker_keeps_body_witness :
  let body := py "Noted." ++ [NL; NL; NL; NL] ++ py "Bye " in
  forallb trailing_class (py " !") = true
  ∧ ¬ ends_with_sentinel body
  ∧ _strip_silent_marker (Some (body ++ SILENT ++ py " !"))
    = Some (py "Noted." ++ [NL; NL] ++ py "Bye").
Proof.
  intros body.
  assert (forallb trailing_class (py " !") = true) as Hc
    by (vm_compute; reflexivity).
  assert (¬ ends_with_sentinel body) as Hb
    by (apply search_None; vm_compute; reflexivity).
  split; [exact Hc|]. split; [exact Hb|].
  rewrite (proj2 (strip_silent_marker_keeps_body body (py " !") Hc Hb)).
  vm_compute. reflexivity.
Defined.

End SilentMoreFacts.

(* ===================================================================== *)
(** ** More on streamed responses *)
(* ===================================================================== *)

Module StreamMoreFacts.
Import PyFacts Provider StreamFacts CoerceFacts.

(** The first choice of each chunk that has one. *)
Definition first_choices (chunks : list Chunk) : list Choice :=
  omap (λ chunk, head (choices chunk)) chunks.

(** The usage of each chunk that has a choice and reports one. *)
Definition usages (chunks : list Chunk) : list Usage :=
  omap (λ chunk, match choices chunk with
                 | [] => None
                 | _ => chunk_usage chunk
                 end) chunks.

Definition texts (chunks : list Chunk) : list pystr :=
  omap (λ c, nonempty (d_content (delta c))) (first_choices chunks).

Definition reasonings (chunks : list Chunk) : list pystr :=
  omap (λ c, nonempty (d_reasoning_content (delta c))) (first_choices chunks).

Lemma truthy_nonempty (o : option pystr) :
  (if truthy o then [default [] o] else []) = option_list (nonempty o).
Proof. by destruct o as [[|??]|]. Qed.

Lemma stream_step_fields st chunk :
  content_parts (stream_step st chunk)
  = content_parts st ++ texts [chunk]
  ∧ reasoning_parts (stream_step st chunk)
    = reasoning_parts st ++ reasonings [chunk]
  ∧ s_finish_reason (stream_step st chunk)
    = default (s_finish_reason st)
        (last_nonempty (c_finish_reason <$> first_choices [chunk]))
  ∧ s_usage (stream_step st chunk)
    = default (s_usage st) (usage_dict <$> last (usages [chunk])).
Proof.
  unfold stream_step, texts, reasonings, first_choices, usages, last_nonempty.
  simpl. destruct (choices chunk) as [|choice rest]; simpl.
  { by rewrite !app_nil_r. }
  destruct (d_content (delta choice)) as [[|??]|];
    destruct (d_reasoning_content (delta choice)) as [[|??]|];
    destruct (c_finish_reason choice) as [[|??]|];
    destruct (chunk_usage chunk); simpl; rewrite ?app_nil_r; done.
Qed.

Lemma default_last_app {A} (d : A) (l1 l2 : list A) :
  default d (last (l1 ++ l2)) = default (default d (last l1)) (last l2).
Proof.
  induction l2 as [|x l2 IH] using rev_ind.
  - by rewrite app_nil_r.
  - by rewrite app_assoc, !last_snoc.
Qed.

Lemma stream_fold_fields st chunks :
  let st' := foldl stream_step st chunks in
  content_parts st' = content_parts st ++ texts chunks
  ∧ reasoning_parts st' = reasoning_parts st ++ reasonings chunks
  ∧ s_finish_reason st'
    = default (s_finish_reason st)
        (last_nonempty (c_finish_reason <$> first_choices chunks))
  ∧ s_usage st' = default (s_usage st) (usage_dict <$> last (usages chunks)).
Proof.
  simpl. induction chunks as [|chunk chunks IH] using rev_ind.
  - simpl. by rewrite !app_nil_r.
  - rewrite foldl_snoc.
    destruct IH as (IH1 & IH2 & IH3 & IH4).
    destruct (stream_step_fields (foldl stream_step st chunks) chunk)
      as (-> & -> & -> & ->).
    rewrite IH1, IH2, IH3, IH4.
    unfold texts, reasonings, first_choices, usages, last_nonempty.
    rewrite !omap_app, !fmap_app, !omap_app, <- !app_assoc.
    split; [done|]. split; [done|].
    rewrite <- !fmap_last, !default_last_app.
    rewrite !fmap_last. split; [done|].
    by rewrite <- !fmap_last, fmap_app, default_last_app.
Qed.

Section WithExternals.
Context `{Externals}.

(** A chunk without choices is skipped whole: nothing of it, not
    even the token usage it reports, reaches the response. *)
Theorem stream_skips_chunks_without_choices
    (before after : list Chunk) (reported : option Usage) :
  _stream_chat (before ++ {| choices := []; chunk_usage := reported |} :: after)
  = _stream_chat (before ++ after).
Proof. unfold _stream_chat, stream_response. by rewrite !foldl_app. Qed.

Lemma build_tool_calls_nonempty chunks :
  fragments chunks ≠ [] →
  build_tool_calls (tool_calls_map (foldl stream_step stream_start chunks))
  ≠ [].
Proof.
  intros Hne. rewrite stream_tool_calls_map. simpl.
  destruct (build_tool_calls_spec (fragments chunks)) as (Hin & ->).
  destruct (fragments chunks) as [|tc fs]; [done|].
  destruct (merge_sort Z.le _) as [|i l]; [|done].
  assert (index tc ∈ @nil Z) as Hnil
    by (apply Hin; exists tc; split; [left|done]).
  by apply elem_of_nil in Hnil.
Qed.

(** X19.  What a stream's response is made of: the reasoning is the
    non-empty reasoning fragments of the first choices, concatenated; the
    finish reason is the last non-empty one, or [stop]; the usage is the
    last one reported on a chunk that has a choice, or empty; and when the
    stream carried tool-call fragments the content is the non-empty text
    fragments concatenated, untouched by the recovery of textual tool
    calls.  What [_stream_chat] returns, when it returns, is this
    response. *)
Theorem stream_chat_text_and_metadata (chunks : list Chunk) :
  let r := stream_response chunks in
  (∀ returned, _stream_chat chunks = Returns returned → returned = r)
  ∧ reasoning_content r = joined (reasonings chunks)
  ∧ finish_reason r
    = default (py "stop")
        (last_nonempty (c_finish_reason <$> first_choices chunks))
  ∧ usage r = default ∅ (usage_dict <$> last (usages chunks))
  ∧ (fragments chunks ≠ [] → content r = joined (texts chunks)).
Proof.
  simpl. split.
  { intros returned. unfold _stream_chat, logged.
    destruct (_log_response_summary _); [|done]. by intros [= <-]. }
  destruct (stream_fold_fields stream_start chunks) as (Hc & Hr & Hf & Hu).
  simpl in Hc, Hr, Hf, Hu.
  assert (reasoning_content (stream_response chunks)
               = joined (reasoning_parts (foldl stream_step stream_start chunks))
             ∧ finish_reason (stream_response chunks)
               = s_finish_reason (foldl stream_step stream_start chunks)
             ∧ usage (stream_response chunks)
               = s_usage (foldl stream_step stream_start chunks)
             ∧ (build_tool_calls
                  (tool_calls_map (foldl stream_step stream_start chunks)) ≠ []
                → content (stream_response chunks)
                  = joined (content_parts
                              (foldl stream_step stream_start chunks))))
    as Hfields.
  { unfold stream_response.
    destruct (build_tool_calls _) as [|tc tcs]; simpl.
    - destruct (_coerce_stream_text_tool_calls _) as [c [|p ps]]; done.
    - done. }
  destruct Hfields as (-> & -> & -> & Hcontent).
  rewrite Hr, Hf, Hu. split; [done|]. split; [done|]. split; [done|].
  intros Hne. rewrite Hcontent by by apply build_tool_calls_nonempty.
  by rewrite Hc.
Qed.

End WithExternals.

#[local] Existing Instance xy_decoder.

Lemma stream_chat_text_and_metadata_witness :
  fragments two_chunks ≠ []
  ∧ ∃ r, _stream_chat two_chunks = Returns r
         ∧ content r = Some (py "Hello world")
         ∧ finish_reason r = py "tool_calls".
Proof.
  assert (fragments two_chunks ≠ []) as Hne by (vm_compute; discriminate).
  destruct (stream_chat_text_and_metadata two_chunks)
    as (Hreturned & _ & Hf & _ & Hc).
  split; [exact Hne|].
  destruct (_stream_chat two_chunks) as [r|e] eqn:Hr;
    [|by vm_compute in Hr].
  exists r. split; [reflexivity|]. rewrite (Hreturned r eq_refl). split.
  - rewrite (Hc Hne). vm_compute. reflexivity.
  - rewrite Hf. vm_compute. reflexivity.
Defined.

End StreamMoreFacts.

(* ===================================================================== *)
(** ** More on textual tool calls: what is cut out of the text *)
(* ===================================================================== *)

Module CoerceMoreFacts.
Import PyFacts Provider CoerceFacts.

(** The text made of [pieces] with one of [removed] between each two. *)
Fixpoint weave (pieces removed : list pystr) : pystr :=
  match pieces, removed with
  | p :: ps, r :: rs => p ++ r ++ weave ps rs
  | p :: _, [] => p
  | [], _ => []
  end.

(** The part of the text an occurrence covers. *)
Definition occurrence_text (content : pystr) (occ : occurrence) : pystr :=
  let '(start, end_, _, _) := occ in slice start end_ content.

Lemma weave_cons p ps r rs :
  weave (p :: ps) (r :: rs) = p ++ r ++ weave ps rs.
Proof. reflexivity. Qed.

Lemma slice_split (a b : nat) (content : pystr) :
  (a ≤ b)%nat → drop a content = slice a b content ++ drop b content.
Proof.
  intros Hab. unfold slice.
  rewrite <- (take_drop (b - a) (drop a content)) at 1.
  rewrite drop_drop. by replace (a + (b - a))%nat with b by lia.
Qed.

Lemma cut_spans_length content cursor spans :
  length (cut_spans content cursor spans) = S (length spans).
Proof.
  revert cursor. induction spans as [|[s e] spans IH]; intros cursor; simpl;
    [done | by rewrite IH].
Qed.

Section WithExternals.
Context `{Externals}.

#[local] Opaque token.
#[local] Arguments strip_prefix : simpl never.

Lemma parse_at_paren content start name args end_ :
  parse_at content start = Some (name, args, end_) →
  ∃ idx, end_ = S idx ∧ content !! idx = Some 41%N.
Proof.
  unfold parse_at.
  destruct (match_header _) as [[name' hend]|]; [|done]. simpl.
  destruct (strip_prefix _ _); [|done].
  destruct (raw_decode _) as [[args' consumed]|]; [|done]. simpl.
  destruct (content !! _) as [c|] eqn:Hc; [|done].
  destruct (N.eqb_spec c 41) as [->|]; [|done].
  intros [= _ _ <-]. eauto.
Qed.

Lemma well_formed_piece content start name args end_ :
  well_formed content start name args end_ →
  (start + length token < end_ ≤ length content)%nat
  ∧ (∃ rest, slice start end_ content = token ++ rest)
  ∧ last (slice start end_ content) = Some 41%N.
Proof.
  intros Hwf. pose proof Hwf as Hp%parse_at_complete.
  pose proof (parse_at_progress _ _ _ _ _ Hp) as Hprog.
  destruct (parse_at_paren _ _ _ _ _ Hp) as (idx & -> & Hidx).
  pose proof (lookup_lt_Some _ _ _ Hidx) as Hlt.
  destruct Hwf as (after_token & _ & _ & _ & _ & _ & _ & Htok & _).
  split; [lia|]. unfold slice. split.
  - rewrite Htok, take_app_ge by lia. eauto.
  - rewrite last_lookup, length_take, length_drop.
    replace (Init.Nat.pred ((S idx - start) `min` (length content - start)))
      with (idx - start)%nat by lia.
    rewrite lookup_take_lt by lia. rewrite lookup_drop.
    by replace (start + (idx - start))%nat with idx by lia.
Qed.

Lemma Scan_weave content pos occs cursor :
  Scan content pos occs → (cursor ≤ pos)%nat →
  drop cursor content
  = weave (cut_spans content cursor (spans_of occs))
          (occurrence_text content <$> occs)
  ∧ Forall (λ r, (∃ rest, r = token ++ rest) ∧ last r = Some 41%N)
           (occurrence_text content <$> occs).
Proof.
  intros Hscan. revert cursor.
  induction Hscan as [pos Hnone|pos start name args end_ occs Hn Hwf Hs IH
                      |pos start occs Hn Hbad Hs IH]; intros cursor Hle.
  - simpl. split; [done | constructor].
  - destruct Hn as (Hps & _ & _).
    destruct (well_formed_piece _ _ _ _ _ Hwf) as (Hb & Htok & Hlast).
    destruct (IH end_ (Nat.le_refl _)) as (IHw & IHf).
    split; [|by constructor].
    assert (spans_of ((start, end_, name, args) :: occs)
            = (start, end_) :: spans_of occs) as -> by done.
    rewrite fmap_cons.
    change (cut_spans content cursor ((start, end_) :: spans_of occs))
      with (slice cursor start content
            :: cut_spans content end_ (spans_of occs)).
    change (occurrence_text content (start, end_, name, args))
      with (slice start end_ content).
    rewrite weave_cons, <- IHw.
    rewrite (slice_split cursor start) by lia.
    by rewrite (slice_split start end_) by lia.
  - destruct Hn as (Hps & _ & _). apply IH. lia.
Qed.

(** X23.  The text returned by the recovery of textual tool calls is
    the text with exactly the recovered occurrences cut out: the text is
    the kept pieces with the occurrences between them, each occurrence
    begins with the token and ends with the closing parenthesis, there is
    one request per occurrence, and the content is the kept pieces
    joined, with every run of three or more newlines turned into two and
    the remaining runs kept, then stripped of surrounding white space. *)
Theorem coerced_text_is_cut_exactly (text : pystr) :
  text ≠ [] →
  ∃ occs,
    Scan text 0 occs
    ∧ let pieces := cut_spans text 0 (spans_of occs) in
      let removed := occurrence_text text <$> occs in
      text = weave pieces removed
      ∧ length pieces = S (length removed)
      ∧ Forall (λ r, (∃ rest, r = token ++ rest) ∧ last r = Some 41%N)
               removed
      ∧ length (_coerce_stream_text_tool_calls (Some text)).2
        = length removed
      ∧ (occs ≠ [] →
         (_coerce_stream_text_tool_calls (Some text)).1
         = let cleaned := strip (newline_runs_collapsed (mjoin pieces)) in
           match cleaned with [] => None | _ => Some cleaned end).
Proof.
  intros Hne. destruct (coerce_spec text Hne) as (occs & Hscan & Hc).
  exists occs. split; [done|]. cbv zeta. rewrite Hc.
  rewrite <- collapse_newlines_runs.
  destruct (Scan_weave text 0 occs 0 Hscan (Nat.le_refl _)) as (Hw & Hf).
  rewrite drop_0 in Hw.
  split; [done|].
  split; [by rewrite cut_spans_length, length_fmap; unfold spans_of;
          rewrite length_fmap|].
  split; [done|]. unfold coerced.
  assert (∀ k, length (requests k occs) = length occs) as Hlen.
  { clear. induction occs as [|[[[??]?]?] occs IH]; intros k; simpl;
      [done | by rewrite IH]. }
  split.
  - rewrite length_fmap. destruct occs; [done|]. apply Hlen.
  - intros Hocc. by destruct occs.
Qed.

End WithExternals.

#[local] Existing Instance hi_decoder.

Lemma coerced_text_is_cut_exactly_witness :
  let text :=
    py "Hello" ++ [NL; NL] ++ py "[tool_call] message(" ++ hi_json ++ py ")"
    ++ [NL; NL] ++ py "bye" ++ [NL] in
  text ≠ []
  ∧ ∃ occs,
      Scan text 0 occs
      ∧ length occs = 1%nat
      ∧ text
        = weave (cut_spans text 0 (spans_of occs))
                (occurrence_text text <$> occs)
      ∧ strip (newline_runs_collapsed
                 (mjoin (cut_spans text 0 (spans_of occs))))
        = py "Hello" ++ [NL; NL] ++ py "bye"
      ∧ (_coerce_stream_text_tool_calls (Some text)).1
        = Some (py "Hello" ++ [NL; NL] ++ py "bye").
Proof.
  intros text.
  assert (text ≠ []) as Hne by (vm_compute; discriminate).
  split; [exact Hne|].
  destruct (coerced_text_is_cut_exactly text Hne)
    as (occs & Hscan & Hw & _ & _ & Hlen & Hcontent).
  assert (length occs = 1%nat) as Hone.
  { rewrite length_fmap in Hlen. rewrite <- Hlen. vm_compute. reflexivity. }
  exists occs. split; [exact Hscan|]. split; [exact Hone|].
  split; [exact Hw|].
  assert ((_coerce_stream_text_tool_calls (Some text)).1
          = Some (py "Hello" ++ [NL; NL] ++ py "bye")) as Hreturned
    by (vm_compute; reflexivity).
  split; [|exact Hreturned].
  assert (occs ≠ []) as Hocc by (intros ->; discriminate).
  specialize (Hcontent Hocc). rewrite Hreturned in Hcontent.
  cbv zeta in Hcontent.
  destruct (strip _) as [|c cleaned]; [discriminate|].
  symmetry. exact (Some_inj _ _ Hcontent).
Defined.

End CoerceMoreFacts.

(* ===================================================================== *)
(** ** The logged response summary *)
(* ===================================================================== *)

Module SummaryFacts.
Import PyFacts Provider LogFacts StreamFacts CoerceFacts.

Lemma escape_newlines_no_newline text : NL ∉ escape_newlines text.
Proof.
  unfold escape_newlines. induction text as [|c t IH]; simpl.
  - apply not_elem_of_nil.
  - destruct (N.eqb_spec c NL) as [->|Hc]; simpl.
    + intros Hin. apply elem_of_cons in Hin as [Hin|Hin]; [done|].
      apply elem_of_cons in Hin as [Hin|Hin]; [done|]. by apply IH.
    + intros Hin. apply elem_of_cons in Hin as [Hin|Hin]; [by apply Hc|].
      by apply IH.
Qed.

Lemma take_not_elem_of {A} (x : A) n l : x ∉ l → x ∉ take n l.
Proof.
  intros Hl Hin. apply Hl. rewrite <- (take_drop n l).
  apply elem_of_app. by left.
Qed.

(** X22.  A preview is one line, is never empty, and has at most
    [limit + 14] code points: the [limit] that is kept and the mark
    [...(truncated)]. *)
Theorem preview_text_one_bounded_line (text : option pystr) (limit : nat) :
  (NL ∉ _preview_text text limit)
  ∧ _preview_text text limit ≠ []
  ∧ (length (_preview_text text limit) ≤ limit + 14)%nat.
Proof.
  assert (∀ l : pystr, forallb (λ c, negb (c =? NL)%N) l = true → NL ∉ l)
    as Hlit.
  { intros l Hl Hin. rewrite forallb_forall in Hl.
    apply list_elem_of_In, Hl in Hin. by rewrite N.eqb_refl in Hin. }
  destruct text as [text|]; simpl.
  2:{ split; [by apply Hlit|]. split; [done|].
      change (length (py "<none>")) with 6%nat. lia. }
  pose proof (escape_newlines_no_newline text) as Hnl.
  destruct (strip (escape_newlines text)) as [|c r] eqn:Hs.
  { split; [by apply Hlit|]. split; [done|].
    change (length (py "<blank>")) with 7%nat. lia. }
  destruct (Nat.ltb_spec limit (length (escape_newlines text))) as [Hlt|Hge].
  - split; [|split].
    + intros Hin. apply elem_of_app in Hin as [Hin|Hin].
      * by apply (take_not_elem_of _ limit) in Hnl.
      * revert Hin. by apply Hlit.
    + intros Heq. apply (f_equal length) in Heq.
      rewrite length_app in Heq.
      change (length (py "...(truncated)")) with 14%nat in Heq.
      simpl in Heq. lia.
    + rewrite length_app, length_take.
      change (length (py "...(truncated)")) with 14%nat. lia.
  - split; [done|]. split; [|lia].
    intros Heq. by rewrite Heq in Hs.
Qed.

(** X21.  Logging the summary of a response succeeds exactly when each
    of its first five tool calls has a name; otherwise it raises a
    [TypeError], which [except Exception] catches; a sixth or later call
    without a name goes unnoticed. *)
Theorem log_response_summary_raises_iff (response : LLMResponse) :
  ((∃ line, _log_response_summary response = Returns line)
   ↔ ∀ i tc, (i < 5)%nat → tool_calls response !! i = Some tc →
             is_Some (tc_name tc))
  ∧ (∀ e, _log_response_summary response = Raises e →
          exc_type e = py "TypeError" ∧ exc_is_Exception e = true).
Proof.
  destruct (log_response_summary_cases response) as (Hiff & Hraise).
  split; [|exact Hraise]. rewrite Hiff, Forall_lookup. split.
  - intros Hall i tc Hi Htc. apply (Hall i). by rewrite lookup_take_lt.
  - intros Hall i tc Htc. apply lookup_take_Some in Htc as [Htc Hi].
    by apply (Hall i).
Qed.

Section WithExternals.
Context `{Externals}.

(** No fragment of [F] carries a name that is not empty, and the first
    fragment has a function object whose name is [None]. *)
Definition never_named (F : list ToolCallDelta) : Prop :=
  last_nonempty (fragment_name <$> F) = None ∧ unnamed F = None.

Lemma merged_name_None F :
  e_name (merged F) = None ↔ never_named F.
Proof.
  unfold merged, never_named. simpl.
  destruct (last_nonempty (fragment_name <$> F)); [|by intuition].
  split; [done | by intros [? ?]].
Qed.

(** X20.  [_stream_chat] ends by logging the summary of its response.
    With the indices of the stream's fragments in increasing order, that
    succeeds, and the response is returned, exactly when each of the five
    lowest indices was named by one of its fragments; otherwise the call
    ends in a [TypeError] (which sends [chat] to its other mode).  A stream
    without tool-call fragments always returns. *)
Theorem stream_summary_needs_named_calls (chunks : list Chunk) :
  let fs := fragments chunks in
  ∃ indices,
    StronglySorted Z.lt indices
    ∧ (∀ i, i ∈ indices ↔ ∃ tc, tc ∈ fs ∧ index tc = i)
    ∧ (_stream_chat chunks = Returns (stream_response chunks)
       ↔ ∀ i, i ∈ take 5 indices → ¬ never_named (at_index i fs))
    ∧ (∀ e, _stream_chat chunks = Raises e →
            exc_type e = py "TypeError" ∧ exc_is_Exception e = true).
Proof.
  intros fs.
  pose proof (stream_tool_calls_map stream_start chunks) as Hmap.
  simpl in Hmap. fold fs in Hmap.
  destruct (build_tool_calls_spec fs) as (Hin & Hbuild).
  rewrite <- Hmap in Hin, Hbuild.
  set (indices := merge_sort Z.le
         (elements (dom (tool_calls_map
                           (foldl stream_step stream_start chunks))))) in *.
  exists indices. split; [apply sorted_indices|]. split; [exact Hin|].
  destruct (log_response_summary_cases (stream_response chunks))
    as (Hret & Hraise).
  assert (_stream_chat chunks = Returns (stream_response chunks)
          ↔ ∃ line,
              _log_response_summary (stream_response chunks) = Returns line)
    as Hlogged.
  { unfold _stream_chat, logged.
    destruct (_log_response_summary _); split; eauto; try done.
    by intros [? ?]. }
  split.
  2:{ intros e. unfold _stream_chat, logged.
      destruct (_log_response_summary _) eqn:E; [done|].
      intros [= <-]. by apply Hraise. }
  rewrite Hlogged, Hret. clear Hlogged Hret Hraise.
  assert (tool_calls (stream_response chunks)
          = match indices with
            | [] => (_coerce_stream_text_tool_calls
                       (joined (content_parts
                                  (foldl stream_step stream_start chunks)))).2
            | _ => (λ i, request_of (merged (at_index i fs))) <$> indices
            end) as ->.
  { unfold stream_response. rewrite Hbuild.
    destruct indices as [|i l]; simpl; [|done].
    destruct (_coerce_stream_text_tool_calls _) as [c [|p ps]]; done. }
  destruct indices as [|i0 l] eqn:Hind.
  - split; [|intros _; apply Forall_take, coerced_calls_named].
    intros _ i Hi. rewrite take_nil in Hi. by apply elem_of_nil in Hi.
  - rewrite <- Hind. clear Hind. rewrite <- fmap_take, Forall_fmap.
    rewrite Forall_forall. split.
    + intros Hall i Hi Hnever. apply Hall in Hi as [n Hn].
      change (e_name (merged (at_index i fs)) = Some n) in Hn.
      apply merged_name_None in Hnever. congruence.
    + intros Hall i Hi.
      change (is_Some (e_name (merged (at_index i fs)))).
      destruct (e_name (merged (at_index i fs))) eqn:E; [by eexists|].
      exfalso. apply (Hall i Hi). by apply merged_name_None.
Qed.

(** What one attempt of [chat] builds in one mode, before the summary
    of the response is logged. *)
Definition built (backend : Backend) (stream : bool) : outcome LLMResponse :=
  if stream then
    match acompletion_stream backend with
    | Returns chunks => Returns (stream_response chunks)
    | Raises e => Raises e
    end
  else
    match acompletion_plain backend with
    | Returns response => _parse_response response
    | Raises e => Raises e
    end.

Lemma attempt_built backend stream :
  attempt backend stream
  = match built backend stream with
    | Returns response => logged response
    | Raises e => Raises e
    end.
Proof.
  unfold attempt, built, _stream_chat. destruct stream.
  - by destruct (acompletion_stream backend).
  - destruct (acompletion_plain backend) as [raw|e]; [|done].
    by destruct (_parse_response raw).
Qed.

(** X30.  [chat] and the logging of the summaries.  When the responses
    built by the attempts have names for their first five tool calls, the
    logging changes nothing: [chat] returns what the first attempt built,
    or what the other mode built when the first raised an [Exception], or
    the error response when both did.  When the stream that is tried
    first yields a response with a tool call among its first five that has
    no name, the logging raises, and [chat] asks again without streaming
    and returns that response. *)
Theorem chat_falls_back_on_unnamed_stream_call (backend : Backend) :
  (∀ default_stream,
     (∀ stream response,
        built backend stream = Returns response → named_calls response) →
     chat default_stream backend
     = match built backend default_stream with
       | Returns r => Returns r
       | Raises e =>
           if exc_is_Exception e then
             match built backend (negb default_stream) with
             | Returns r => Returns r
             | Raises fallback_e =>
                 if exc_is_Exception fallback_e then
                   Returns {| content :=
                                Some (py "Error calling LLM: "
                                      ++ _format_exception fallback_e);
                              tool_calls := [];
                              finish_reason := py "error";
                              usage := ∅;
                              reasoning_content := None |}
                 else Raises fallback_e
             end
           else Raises e
       end)
  ∧ (∀ chunks raw response,
       acompletion_stream backend = Returns chunks →
       ¬ named_calls (stream_response chunks) →
       acompletion_plain backend = Returns raw →
       _parse_response raw = Returns response →
       named_calls response →
       chat true backend = Returns response).
Proof.
  split.
  - intros default_stream Hnamed.
    assert (∀ stream, attempt backend stream = built backend stream)
      as Hsame.
    { intros stream. rewrite attempt_built.
      destruct (built backend stream) as [response|e] eqn:E; [|done].
      apply logged_named. by apply (Hnamed stream). }
    unfold chat. by rewrite !Hsame.
  - intros chunks raw response Hstream Hunnamed Hplain Hparse Hnamed.
    unfold chat, attempt, _stream_chat. rewrite Hstream.
    destruct (logged_unnamed _ Hunnamed) as (e & -> & _ & ->).
    cbn [negb]. rewrite Hplain, Hparse. by rewrite logged_named.
Qed.

End WithExternals.

#[local] Existing Instance xy_decoder.

(** The same request without streaming: the call is named. *)
Definition named_raw : RawResponse :=
  {| r_choices :=
       [ {| message :=
              {| m_content := None;
                 m_tool_calls :=
                   [ {| r_id := py "call_1"; r_name := Some (py "message");
                        r_arguments := ArgValue (VDict ∅) |} ];
                 m_reasoning_content := None |};
            rc_finish_reason := Some (py "tool_calls") |} ];
     r_usage := None |}.

Lemma chat_falls_back_on_unnamed_stream_call_witness :
  let backend :=
    {| acompletion_plain := Returns named_raw;
       acompletion_stream := Returns [unnamed_chunk] |} in
  ¬ named_calls (stream_response [unnamed_chunk])
  ∧ ∃ response,
      _parse_response named_raw = Returns response
      ∧ chat true backend = Returns response
      ∧ (tc_name <$> tool_calls response) = [Some (py "message")].
Proof.
  intros backend.
  assert (¬ named_calls (stream_response [unnamed_chunk])) as Hunnamed.
  { intros Hn. unfold named_calls in Hn.
    assert (tool_calls (stream_response [unnamed_chunk])
            = [ {| tc_id := py "call_1"; tc_name := None;
                   tc_arguments := VDict {[ py "raw" := VStr (py "{}") ]} |} ])
      as Htc by (vm_compute; reflexivity).
    rewrite Htc in Hn. apply Forall_cons in Hn as [[n Hn] _]. discriminate. }
  split; [exact Hunnamed|].
  destruct (_parse_response named_raw) as [response|e] eqn:Hparse;
    [|by vm_compute in Hparse].
  exists response. split; [reflexivity|].
  assert ((tc_name <$> tool_calls response) = [Some (py "message")]) as Hnames.
  { vm_compute in Hparse. injection Hparse as <-. reflexivity. }
  split; [|exact Hnames].
  apply (proj2 (chat_falls_back_on_unnamed_stream_call backend)
           [unnamed_chunk] named_raw response eq_refl Hunnamed eq_refl Hparse).
  unfold named_calls. rewrite Forall_forall. intros tc Htc.
  apply elem_of_take in Htc as (i & Htc & _).
  assert (tc_name tc ∈ tc_name <$> tool_calls response) as Hin.
  { apply list_elem_of_fmap. exists tc. split; [done|].
    by eapply list_elem_of_lookup_2. }
  rewrite Hnames in Hin. apply list_elem_of_singleton in Hin. by eexists.
Defined.

End SummaryFacts.

(* ===================================================================== *)
(** ** History clean-up for Gemini proxies *)
(* ===================================================================== *)

Module GeminiProxyFacts.
Import Provider GeminiProxy.

(** A turn of plain text: a role among system, user and assistant, none
    of the tool keys, and for an assistant a content that is neither
    [None] nor a blank text. *)
Definition text_turn (entry : message) : Prop :=
  ∃ role,
    entry !! py "role" = Some (VStr role)
    ∧ role ∈ text_roles
    ∧ entry !! py "tool_calls" = None
    ∧ entry !! py "tool_call_id" = None
    ∧ entry !! py "name" = None
    ∧ (role = py "assistant" →
       ∃ v, entry !! py "content" = Some v ∧ v ≠ VNone
            ∧ ∀ s, v = VStr s → strip s ≠ []).

(** What a kept entry is made from: the message without its tool keys. *)
Definition cleaned_from (msg entry : message) : Prop :=
  entry = without_tool_keys msg.

Lemma without_tool_keys_lookup msg k :
  k ≠ py "tool_calls" → k ≠ py "tool_call_id" → k ≠ py "name" →
  without_tool_keys msg !! k = msg !! k.
Proof.
  intros H1 H2 H3. unfold without_tool_keys.
  by rewrite !lookup_delete_ne.
Qed.

Lemma without_tool_keys_absent msg :
  without_tool_keys msg !! py "tool_calls" = None
  ∧ without_tool_keys msg !! py "tool_call_id" = None
  ∧ without_tool_keys msg !! py "name" = None.
Proof.
  unfold without_tool_keys. split; [|split].
  - rewrite !lookup_delete_ne by (by vm_compute). apply lookup_delete_eq.
  - rewrite lookup_delete_ne by (by vm_compute). apply lookup_delete_eq.
  - apply lookup_delete_eq.
Qed.

Lemma without_tool_keys_id entry :
  entry !! py "tool_calls" = None → entry !! py "tool_call_id" = None →
  entry !! py "name" = None → without_tool_keys entry = entry.
Proof.
  intros H1 H2 H3. unfold without_tool_keys.
  rewrite (delete_id entry (py "tool_calls")) by done.
  rewrite (delete_id entry (py "tool_call_id")) by done.
  by rewrite delete_id.
Qed.

Lemma normalize_message_kept msg entry :
  normalize_message msg = Returns (Some entry) →
  entry = without_tool_keys msg ∧ text_turn entry.
Proof.
  unfold normalize_message.
  destruct (msg !! py "role") as [[| | | |role| |]|] eqn:Hrole; try done.
  case_bool_decide as Hin; [|done].
  destruct (without_tool_keys_absent msg) as (Ha & Hb & Hc).
  assert (without_tool_keys msg !! py "role" = Some (VStr role)) as Hr.
  { rewrite without_tool_keys_lookup by (by vm_compute). done. }
  case_bool_decide as Hass.
  - destruct (without_tool_keys msg !! py "content") as [v|] eqn:Hv; [|done].
    assert (v ≠ VNone ∧ (∀ s, v = VStr s → strip s ≠ []) →
            text_turn (without_tool_keys msg)) as Hturn.
    { intros [Hn Hs]. exists role. repeat (split; [done|]).
      intros _. exists v. done. }
    destruct v as [| | | |s| |]; try done;
      try (intros [= <-]; split; [done|]; apply Hturn; split; [done|];
           intros s' Hs'; discriminate).
    destruct (strip s) eqn:Hs; [done|]. intros [= <-]. split; [done|].
    apply Hturn. split; [done|]. intros s' [= <-]. by rewrite Hs.
  - intros [= <-]. split; [done|]. exists role. repeat (split; [done|]).
    done.
Qed.

Lemma normalize_message_text_turn entry :
  text_turn entry → normalize_message entry = Returns (Some entry).
Proof.
  intros (role & Hrole & Hin & Ha & Hb & Hc & Hcontent).
  unfold normalize_message. rewrite Hrole.
  rewrite bool_decide_eq_true_2 by done.
  rewrite (without_tool_keys_id entry) by done.
  case_bool_decide as Hass; [|done].
  destruct (Hcontent Hass) as (v & -> & Hn & Hs).
  destruct v as [| | | |s| |]; try done.
  destruct (strip s) eqn:E; [|done]. by destruct (Hs s eq_refl).
Qed.

Lemma normalize_kept messages normalized :
  normalize messages = Returns normalized →
  Forall text_turn normalized
  ∧ ∃ kept, sublist kept messages ∧ normalized = without_tool_keys <$> kept.
Proof.
  revert normalized. induction messages as [|msg rest IH]; intros normalized.
  - intros [= <-]. split; [constructor|]. by exists [].
  - simpl. destruct (normalize_message msg) as [entry|] eqn:Hm; [|done].
    destruct (normalize rest) as [l|] eqn:Hr; [|done].
    intros [= <-]. destruct (IH l eq_refl) as (Hall & kept & Hsub & ->).
    destruct entry as [entry|]; simpl.
    + apply normalize_message_kept in Hm as [-> Hturn].
      split; [by constructor|]. exists (msg :: kept).
      split; [by constructor | done].
    + split; [done|]. exists kept. split; [by constructor | done].
Qed.

Lemma normalize_text_turns entries :
  Forall text_turn entries → normalize entries = Returns entries.
Proof.
  induction 1 as [|entry entries Hturn _ IH]; [done|].
  simpl. by rewrite (normalize_message_text_turn _ Hturn), IH.
Qed.

Section WithLower.
Variable lower : pystr → pystr.

(** X24.  Cleaning is idempotent and never empties the request: what
    it returns is returned unchanged when cleaned again, and it is empty
    only if the messages given were. *)
Theorem gemini_proxy_cleanup_idempotent
    (messages result : list message) (model : pystr)
    (api_base : option pystr) :
  _prepare_messages_for_gemini_stream_proxy lower messages model api_base
  = Returns result →
  _prepare_messages_for_gemini_stream_proxy lower result model api_base
  = Returns result
  ∧ (result = [] → messages = []).
Proof.
  unfold _prepare_messages_for_gemini_stream_proxy.
  destruct (_is_custom_gemini_proxy lower model api_base); simpl.
  2:{ by intros [= <-]. }
  destruct (normalize messages) as [[|entry l]|] eqn:Hn; [| |done].
  - intros [= <-]. by rewrite Hn.
  - intros [= <-]. apply normalize_kept in Hn as [Hall _].
    by rewrite (normalize_text_turns _ Hall).
Qed.

(** X25.  Through a custom Gemini proxy the request keeps, in order,
    the messages that are plain text turns, each without its tool keys;
    when no message is kept, the messages are passed on as they were,
    tool history included.  For any other model or endpoint the messages
    are passed on as they were. *)
Theorem gemini_proxy_cleanup_keeps_text_turns
    (messages result : list message) (model : pystr)
    (api_base : option pystr) :
  _prepare_messages_for_gemini_stream_proxy lower messages model api_base
  = Returns result →
  if _is_custom_gemini_proxy lower model api_base then
    (result = messages ∧ normalize messages = Returns [])
    ∨ (result ≠ []
       ∧ Forall text_turn result
       ∧ ∃ kept, sublist kept messages
                 ∧ result = without_tool_keys <$> kept)
  else result = messages.
Proof.
  unfold _prepare_messages_for_gemini_stream_proxy.
  destruct (_is_custom_gemini_proxy lower model api_base); simpl.
  2:{ by intros [= <-]. }
  destruct (normalize messages) as [[|entry l]|] eqn:Hn; [| |done].
  - intros [= <-]. by left.
  - intros [= <-]. right. split; [done|]. by apply normalize_kept.
Qed.

End WithLower.

(** A tool exchange between two text turns. *)
Definition turn (role text : string) : message :=
  {[ py "role" := VStr (py role); py "content" := VStr (py text) ]}.

Definition tool_history : list message :=
  [ turn "user" "weather?";
    <[py "tool_calls" := VList [VStr (py "call_1")]]>
      ({[ py "role" := VStr (py "assistant"); py "content" := VNone ]});
    <[py "tool_call_id" := VStr (py "call_1")]> (turn "tool" "sunny");
    turn "assistant" "It is sunny." ].

Lemma gemini_proxy_cleanup_idempotent_witness :
  let cleaned := [turn "user" "weather?"; turn "assistant" "It is sunny."] in
  _prepare_messages_for_gemini_stream_proxy id tool_history
    (py "gemini/gemini-pro") (Some (py "https://proxy.example/v1"))
  = Returns cleaned
  ∧ _prepare_messages_for_gemini_stream_proxy id cleaned
      (py "gemini/gemini-pro") (Some (py "https://proxy.example/v1"))
    = Returns cleaned.
Proof.
  intros cleaned.
  assert (_prepare_messages_for_gemini_stream_proxy id tool_history
            (py "gemini/gemini-pro") (Some (py "https://proxy.example/v1"))
          = Returns cleaned) as Hrun by (vm_compute; reflexivity).
  split; [exact Hrun|].
  exact (proj1 (gemini_proxy_cleanup_idempotent id _ _ _ _ Hrun)).
Defined.

Lemma gemini_proxy_cleanup_keeps_text_turns_witness :
  let tools_only :=
    [<[py "tool_call_id" := VStr (py "call_1")]> (turn "tool" "sunny")] in
  _prepare_messages_for_gemini_stream_proxy id tools_only
    (py "gemini/gemini-pro") (Some (py "https://proxy.example/v1"))
  = Returns tools_only
  ∧ normalize tools_only = Returns [].
Proof.
  intros tools_only.
  assert (_prepare_messages_for_gemini_stream_proxy id tools_only
            (py "gemini/gemini-pro") (Some (py "https://proxy.example/v1"))
          = Returns tools_only) as Hrun by (vm_compute; reflexivity).
  split; [exact Hrun|].
  pose proof (gemini_proxy_cleanup_keeps_text_turns id _ _ _ _ Hrun) as Hk.
  assert (_is_custom_gemini_proxy id (py "gemini/gemini-pro")
            (Some (py "https://proxy.example/v1")) = true) as Hp
    by (vm_compute; reflexivity).
  rewrite Hp in Hk. destruct Hk as [[_ Hn]|[_ [Hall _]]]; [exact Hn|].
  exfalso. apply Forall_cons in Hall as [(role & Hrole & Hin & _) _].
  vm_compute in Hrole. injection Hrole as <-.
  repeat (apply elem_of_cons in Hin as [Hin|Hin]; [by vm_compute in Hin|]).
  by apply elem_of_nil in Hin.
Defined.

End GeminiProxyFacts.

(* ===================================================================== *)
(** ** More on the tool-calling loop: final content and the tool log *)
(* ===================================================================== *)

Module LoopMoreFacts.
Import PyFacts Silent SilentFacts Provider Loop Reply.
Local Open Scope Z_scope.

Lemma elem_of_drop_while {A} (p : A → bool) (l : list A) x :
  x ∈ l → p x = false → x ∈ drop_while p l.
Proof.
  intros Hin Hp. induction l as [|y l IH]; simpl; [done|].
  destruct (p y) eqn:Hy; [|done].
  apply elem_of_cons in Hin as [->|Hin]; [congruence | by apply IH].
Qed.

Lemma elem_of_rev {A} (x : A) (l : list A) : x ∈ rev l ↔ x ∈ l.
Proof. rewrite !list_elem_of_In. symmetry. apply in_rev. Qed.

(** A text with a code point that is not white space is not blank. *)
Lemma strip_nonempty (s : pystr) c :
  c ∈ s → isspace c = false → strip s ≠ [].
Proof.
  intros Hin Hc. unfold strip, rstrip, lstrip.
  assert (c ∈ rev (drop_while isspace (rev (drop_while isspace s)))) as H.
  { rewrite elem_of_rev. apply elem_of_drop_while; [|done].
    rewrite elem_of_rev. by apply elem_of_drop_while. }
  intros Heq. rewrite Heq in H. by apply elem_of_nil in H.
Qed.

Lemma blank_false (s : pystr) c :
  c ∈ s → isspace c = false → blank (Some s) = false.
Proof.
  intros Hin Hc. unfold blank.
  pose proof (strip_nonempty s c Hin Hc). by destruct (strip s).
Qed.

Lemma blank_nil_or (s : pystr) : blank (Some s) = false → s ≠ [].
Proof. by intros Hb ->. Qed.

Lemma empty_response_text_not_blank self last_finish_reason iteration :
  blank (Some (empty_response_text self last_finish_reason iteration)) = false.
Proof.
  apply (blank_false _ 73%N); [|done].
  unfold empty_response_text. apply elem_of_app. left.
  assert (∃ r, py "I could not produce a final response because the model returned empty/blank content "
               = 73%N :: r) as [r ->] by (eexists; vm_compute; reflexivity).
  left.
Qed.

Lemma iteration_limit_text_not_blank self last_finish_reason :
  blank (Some (iteration_limit_text self last_finish_reason)) = false.
Proof.
  apply (blank_false _ 73%N); [|done].
  unfold iteration_limit_text. apply elem_of_app. left.
  assert (∃ r, py "I stopped before a final response because the tool-call loop hit the iteration limit "
               = 73%N :: r) as [r ->] by (eexists; vm_compute; reflexivity).
  left.
Qed.

(** The message tool was called. *)
Definition sent_message (tool_use_log : list log_entry) : bool :=
  existsb (λ '(name, _, _), bool_decide (name = Some (py "message")))
          tool_use_log.

(** The bounds of a log entry: the arguments are cut to 100 code points
    and the result to 200, each with its mark. *)
Definition bounded_entry (entry : log_entry) : Prop :=
  let '(_, args, result) := entry in
  (length args ≤ 103)%nat ∧ (length result ≤ 214)%nat.

Section WithTools.
Context `{Tools}.

Lemma run_tool_call_bounded acc tool_call :
  Forall bounded_entry acc.2 →
  Forall bounded_entry (run_tool_call acc tool_call).2.
Proof.
  destruct acc as [messages log]. simpl. intros Hall.
  apply Forall_app. split; [done|]. constructor; [|constructor].
  split.
  - destruct (Nat.ltb 100 _); rewrite length_app, length_take;
      [change (length (py "...")) with 3%nat
      |change (length (@nil N)) with 0%nat]; lia.
  - destruct (Nat.ltb_spec 200 (length (execute messages (tc_name tool_call)
                                          (tc_arguments tool_call))))
      as [Hlt|Hge]; [|lia].
    rewrite length_app, length_take.
    change (length (py "...(truncated)")) with 14%nat. lia.
Qed.

Lemma run_tool_calls_bounded acc tool_calls :
  Forall bounded_entry acc.2 →
  Forall bounded_entry (foldl run_tool_call acc tool_calls).2.
Proof.
  revert acc. induction tool_calls as [|tc tcs IH]; intros acc Hall; [done|].
  simpl. apply IH. by apply run_tool_call_bounded.
Qed.

Lemma run_tool_calls_length acc tool_calls :
  length (foldl run_tool_call acc tool_calls).2
  = (length acc.2 + length tool_calls)%nat.
Proof.
  revert acc. induction tool_calls as [|tc tcs IH]; intros acc; simpl; [lia|].
  rewrite IH. destruct acc as [messages log]. simpl.
  rewrite length_app. simpl. lia.
Qed.

(** What the rounds give: the log stays bounded, and a final content
    that is blank is the empty text chosen because the message tool was
    called. *)
Lemma iterations_result self remaining iteration messages last_finish_reason
    tool_use_log stashed_content final last log :
  Forall bounded_entry tool_use_log →
  (stashed_content = None ∨ blank stashed_content = false) →
  iterations self remaining iteration messages last_finish_reason
             tool_use_log stashed_content
  = Returns (final, last, log) →
  Forall bounded_entry log
  ∧ ∀ text, final = Some text → blank (Some text) = true →
            text = [] ∧ sent_message log = true.
Proof.
  revert iteration messages last_finish_reason tool_use_log stashed_content.
  induction remaining as [|remaining IH];
    intros iteration messages last_finish_reason tool_use_log stashed_content
           Hlog Hstash.
  - simpl. intros [= <- <- <-]. split; [done|]. by intros text [=].
  - cbn [iterations].
    destruct (chat (iteration + 1) messages) as [response|] eqn:Hchat; [|done].
    destruct (has_tool_calls response).
    + destruct (foldl run_tool_call _ _) as [messages' log'] eqn:Hfold.
      apply IH.
      * pose proof (run_tool_calls_bounded
                      (add_assistant_message messages
                         (Provider.content response)
                         ((λ tc, {| d_id := tc_id tc; d_name := tc_name tc;
                                    d_arguments :=
                                      json_dumps true (tc_arguments tc) |})
                            <$> tool_calls response)
                         (reasoning_content response), tool_use_log)
                      (tool_calls response) Hlog) as Hb.
        by rewrite Hfold in Hb.
      * destruct (blank (Provider.content response)) eqn:Hb; simpl; [done|].
        by right.
    + intros [= <- <- <-]. split; [done|]. intros text [= <-].
      destruct (blank (Provider.content response)) eqn:Hb.
      * fold (sent_message tool_use_log).
        destruct (sent_message tool_use_log) eqn:Hsent; [done|].
        destruct (truthy stashed_content) eqn:Ht.
        -- destruct stashed_content as [[|c r]|]; try done.
           change (default [] (Some (c :: r))) with (c :: r).
           destruct Hstash as [|Hs]; [done|]. congruence.
        -- by rewrite empty_response_text_not_blank.
      * destruct (Provider.content response) as [s|]; [|done].
        change (default [] (Some s)) with s. congruence.
Qed.

Lemma run_agent_loop_result
    self initial_messages final_content last_finish_reason tool_use_log :
  _run_agent_loop self initial_messages
  = Returns (final_content, last_finish_reason, tool_use_log) →
  Forall bounded_entry tool_use_log
  ∧ (blank (Some final_content) = true →
     final_content = [] ∧ sent_message tool_use_log = true).
Proof.
  unfold _run_agent_loop.
  destruct (iterations _ _ _ _ _ _ _) as [[[final last] log]|] eqn:Hrun;
    [|done].
  intros [= <- <- <-].
  apply iterations_result in Hrun as [Hlog Hfinal]; [|constructor|by left].
  split; [done|]. intros Hblank.
  destruct final as [text|]; [by apply Hfinal|].
  by rewrite iteration_limit_text_not_blank in Hblank.
Qed.

(** X9.  The final content of [_run_agent_loop] is blank only when it
    is the empty text, and that only after the message tool was called: a
    turn that did not send a message itself always ends with a text that
    is not blank. *)
Theorem run_agent_loop_blank_only_after_message
    self initial_messages final_content last_finish_reason tool_use_log :
  _run_agent_loop self initial_messages
  = Returns (final_content, last_finish_reason, tool_use_log) →
  blank (Some final_content) = true →
  final_content = [] ∧ sent_message tool_use_log = true.
Proof.
  unfold _run_agent_loop.
  destruct (iterations _ _ _ _ _ _ _) as [[[final last] log]|] eqn:Hrun;
    [|done].
  intros [= <- <- <-] Hblank.
  apply iterations_result in Hrun as [_ Hfinal]; [|constructor|by left].
  destruct final as [text|]; [by apply Hfinal|].
  by rewrite iteration_limit_text_not_blank in Hblank.
Qed.

(** X10.  Every entry of the tool log is bounded, whatever the tools
    were given and returned: at most 103 code points of arguments and 214
    of result. *)
Theorem run_agent_loop_log_bounded
    self initial_messages final_content last_finish_reason tool_use_log :
  _run_agent_loop self initial_messages
  = Returns (final_content, last_finish_reason, tool_use_log) →
  Forall bounded_entry tool_use_log.
Proof.
  unfold _run_agent_loop.
  destruct (iterations _ _ _ _ _ _ _) as [[[final last] log]|] eqn:Hrun;
    [|done].
  intros [= <- <- <-].
  by apply iterations_result in Hrun as [Hlog _]; [|constructor|by left].
Qed.

(** X12.  What the user gets for a chat message: no reply only if the
    message tool was called, the silent reply only if the final content
    ends in the sentinel, and otherwise the final content itself, which is
    not blank; what is stored in the session never ends in the
    sentinel. *)
Theorem process_message_reply_cases
    self initial_messages final_content last_finish_reason tool_use_log :
  _run_agent_loop self initial_messages
  = Returns (final_content, last_finish_reason, tool_use_log) →
  let '(stored, reply) := process_message_reply final_content in
  _contains_silent_marker (Some stored) = false
  ∧ match reply with
    | NoReply => final_content = [] ∧ sent_message tool_use_log = true
    | SilentReply => ends_with_sentinel final_content
    | TextReply content =>
        content = final_content ∧ blank (Some content) = false
    end.
Proof.
  intros Hrun. unfold process_message_reply.
  assert (_contains_silent_marker
            (Some (default (py "I've completed processing but have no response to give.")
                           (_strip_silent_marker (Some final_content))))
          = false) as Hstored.
  { destruct (_strip_silent_marker (Some final_content)) as [r|] eqn:E;
      [|done]. simpl.
    apply strip_result_no_sentinel in E. unfold _contains_silent_marker.
    rewrite E. rewrite bool_decide_eq_false_2 by (by intros [? ?]).
    by destruct (truthy _). }
  split; [exact Hstored|].
  destruct (_contains_silent_marker (Some final_content)) eqn:Hsilent.
  - unfold _contains_silent_marker in Hsilent.
    apply andb_true_iff in Hsilent as [_ Hs].
    apply bool_decide_eq_true in Hs. by apply search_is_Some.
  - assert (search final_content = None) as Hnone.
    { unfold _contains_silent_marker in Hsilent.
      destruct final_content as [|c r]; [done|]. simpl in Hsilent.
      apply bool_decide_eq_false in Hsilent.
      destruct (search (c :: r)) eqn:E; [|done]. by destruct Hsilent. }
    rewrite (strip_no_sentinel _ Hnone). simpl.
    destruct (blank (Some final_content)) eqn:Hblank.
    + apply run_agent_loop_result in Hrun as [_ Hrun].
      destruct (Hrun Hblank) as [-> Hsent]. done.
    + destruct final_content as [|c r]; [done|]. done.
Qed.

Lemma sent_message_app l1 l2 :
  sent_message (l1 ++ l2) = sent_message l1 || sent_message l2.
Proof. apply existsb_app. Qed.

Lemma run_tool_call_sent acc tool_call :
  sent_message acc.2 = true
  ∨ tc_name tool_call = Some (py "message") →
  sent_message (run_tool_call acc tool_call).2 = true.
Proof.
  destruct acc as [messages log]. intros Hs.
  unfold run_tool_call. cbn [snd] in *. rewrite sent_message_app.
  destruct Hs as [Hs|Hn]; [by rewrite Hs|].
  rewrite Hn. unfold sent_message at 2. cbn [existsb].
  rewrite bool_decide_eq_true_2 by done. by rewrite !orb_true_r.
Qed.

Lemma run_tool_calls_sent acc tool_calls :
  sent_message acc.2 = true
  ∨ (∃ tc, tc ∈ tool_calls ∧ tc_name tc = Some (py "message")) →
  sent_message (foldl run_tool_call acc tool_calls).2 = true.
Proof.
  revert acc. induction tool_calls as [|tc tcs IH]; intros acc Hsent.
  - destruct Hsent as [?|(tc & Hin & _)]; [done|]. by apply elem_of_nil in Hin.
  - simpl. apply IH. destruct Hsent as [Hacc|(tc' & Hin & Hname)].
    + left. apply run_tool_call_sent. by left.
    + apply elem_of_cons in Hin as [->|Hin].
      * left. apply run_tool_call_sent. by right.
      * right. by exists tc'.
Qed.

(** X11.  A turn in which the model called the message tool and then
    ended without text has the empty final content, so that nothing more
    is sent to the user, whatever the tool returned: also when the message
    tool reported that it could not send. *)
Theorem message_tool_call_silences_turn
    self initial_messages (first second : LLMResponse) :
  2 ≤ max_iterations self →
  (∀ messages, chat 1 messages = Returns first) →
  (∃ tc, tc ∈ tool_calls first ∧ tc_name tc = Some (py "message")) →
  (∀ messages, chat 2 messages = Returns second) →
  tool_calls second = [] → blank (Provider.content second) = true →
  ∃ log,
    _run_agent_loop self initial_messages
    = Returns ([], or_unknown (finish_reason second), log)
    ∧ length log = length (tool_calls first)
    ∧ process_message_reply [] = ([], NoReply).
Proof.
  intros Hmax Hfirst Hcall Hsecond Hnone Hblank.
  unfold _run_agent_loop.
  destruct (Z.to_nat (max_iterations self)) as [|[|n]] eqn:Hn; [lia|lia|].
  cbn [iterations]. change (0 + 1) with 1. rewrite Hfirst.
  assert (has_tool_calls first = true) as ->.
  { unfold has_tool_calls. destruct Hcall as (tc & Hin & _).
    destruct (tool_calls first); [by apply elem_of_nil in Hin | done]. }
  match goal with
  | |- context [foldl run_tool_call ?acc (tool_calls first)] =>
      pose proof (run_tool_calls_sent acc (tool_calls first) (or_intror Hcall))
        as Hsent;
      pose proof (run_tool_calls_length acc (tool_calls first)) as Hlen;
      destruct (foldl run_tool_call acc (tool_calls first))
        as [messages' log']
  end.
  simpl in Hsent, Hlen. change (1 + 1) with 2. rewrite Hsecond.
  assert (has_tool_calls second = false) as ->
    by (unfold has_tool_calls; by rewrite Hnone).
  rewrite Hblank. fold (sent_message log'). rewrite Hsent.
  exists log'. split; [done|]. split; [lia | done].
Qed.

End WithTools.

(** The scenario of a model that answers through the message tool and
    then ends the turn without text. *)
Definition sends_a_message : LLMResponse :=
  {| Provider.content := None;
     tool_calls := [ {| tc_id := py "call_1"; tc_name := Some (py "message");
                        tc_arguments := VDict ∅ |} ];
     finish_reason := py "tool_calls";
     usage := ∅;
     reasoning_content := None |}.

Definition ends_without_text : LLMResponse :=
  {| Provider.content := None;
     tool_calls := [];
     finish_reason := py "stop";
     usage := ∅;
     reasoning_content := None |}.

#[local] Instance messenger_tools : Tools := {|
  chat i _ := Returns (if i =? 1 then sends_a_message else ends_without_text);
  execute _ _ _ := py "Message sent to telegram:42";
  json_dumps _ _ := py "{}";
|}.

Definition messenger_log : list log_entry :=
  [(Some (py "message"), py "{}", py "Message sent to telegram:42")].

Lemma messenger_run :
  _run_agent_loop (new_agent 5 50 12) []
  = Returns ([], py "stop", messenger_log).
Proof. vm_compute. reflexivity. Qed.

Lemma run_agent_loop_blank_only_after_message_witness :
  blank (Some []) = true
  ∧ _run_agent_loop (new_agent 5 50 12) []
    = Returns ([], py "stop", messenger_log)
  ∧ sent_message messenger_log = true.
Proof.
  split; [reflexivity|]. split; [exact messenger_run|].
  exact (proj2 (run_agent_loop_blank_only_after_message
                  (new_agent 5 50 12) [] [] (py "stop") messenger_log
                  messenger_run eq_refl)).
Defined.

Lemma run_agent_loop_log_bounded_witness :
  _run_agent_loop (new_agent 5 50 12) []
  = Returns ([], py "stop", messenger_log)
  ∧ Forall bounded_entry messenger_log.
Proof.
  split; [exact messenger_run|].
  exact (run_agent_loop_log_bounded (new_agent 5 50 12) [] [] (py "stop")
           messenger_log messenger_run).
Defined.

Lemma process_message_reply_cases_witness :
  _run_agent_loop (new_agent 5 50 12) []
  = Returns ([], py "stop", messenger_log)
  ∧ process_message_reply [] = ([], NoReply)
  ∧ sent_message messenger_log = true.
Proof.
  split; [exact messenger_run|]. split; [reflexivity|].
  pose proof (process_message_reply_cases (new_agent 5 50 12) [] []
                (py "stop") messenger_log messenger_run) as Hcases.
  change (process_message_reply []) with (@nil N, NoReply) in Hcases.
  exact (proj2 (proj2 Hcases)).
Defined.

(** The message tool reports a failure. *)
#[local] Instance failing_messenger : Tools := {|
  chat i _ := Returns (if i =? 1 then sends_a_message else ends_without_text);
  execute _ _ _ := py "Error sending message: chat not found";
  json_dumps _ _ := py "{}";
|}.

Lemma message_tool_call_silences_turn_witness :
  2 ≤ max_iterations (new_agent 5 50 12)
  ∧ ∃ log,
      @_run_agent_loop failing_messenger (new_agent 5 50 12) []
      = Returns ([], py "stop", log)
      ∧ length log = 1%nat.
Proof.
  assert (2 ≤ max_iterations (new_agent 5 50 12)) as Hmax by (simpl; lia).
  split; [exact Hmax|].
  destruct (@message_tool_call_silences_turn failing_messenger
              (new_agent 5 50 12) [] sends_a_message ends_without_text Hmax
              (λ _, eq_refl)
              (ex_intro _ _ (conj (list_elem_of_here _ _) eq_refl))
              (λ _, eq_refl) eq_refl eq_refl)
    as (log & Hrun & Hlen & _).
  exists log. split; [exact Hrun | exact Hlen].
Defined.

End LoopMoreFacts.

(* ===================================================================== *)
(** ** More on memory consolidation: the trigger and the files *)
(* ===================================================================== *)

Module ConsolidationMoreFacts.
Import Provider Loop TriggerFacts ConsolidationFacts.
Local Open Scope Z_scope.

Lemma slice_list_nonempty {A} (a b : Z) (l : list A) :
  0 ≤ a < b → b ≤ Z.of_nat (length l) → slice_list a b l ≠ [].
Proof.
  intros Hab Hb. unfold slice_list, slice_index.
  destruct (Z.ltb_spec a 0); [lia|]. destruct (Z.ltb_spec b 0); [lia|].
  intros Hnil. apply (f_equal length) in Hnil.
  rewrite length_take, length_drop in Hnil. simpl in Hnil. lia.
Qed.

Section WithClock.
Context `{Clock}.

Lemma apply_result_not_early env session memory archive_all persist_session
    current_memory next now_iso result :
  run_ending (apply_result env session memory archive_all persist_session
                current_memory next now_iso result) ≠ NothingToConsolidate.
Proof.
  destruct (apply_result_spec env session memory archive_all persist_session
              current_memory next now_iso result) as (_ & Hw).
  intros Hend.
  destruct Hw as [(_ & _ & [(e & [?|?])|(e & [?|?])])
                 |(_ & [?|(e & [?|?])])]; congruence.
Qed.

(** X13.  When the trigger says that consolidation is due, a run for
    the session finds messages to consolidate: it does not end at once
    with nothing done. *)
Theorem scheduled_consolidation_has_work self env memory session
    (persist_session : bool) :
  0 ≤ last_consolidated session →
  _should_schedule_consolidation self session = true →
  run_ending (_consolidate_memory self env memory session false
                persist_session) ≠ NothingToConsolidate.
Proof.
  intros Hlc. unfold _should_schedule_consolidation, _consolidate_memory.
  set (total := Z.of_nat (length (messages session))).
  set (keep := _compression_keep_count self).
  assert (1 ≤ keep) as Hkeep by (unfold keep, _compression_keep_count; lia).
  destruct (Z.leb_spec total keep); [done|].
  destruct (Z.leb_spec (total - keep - last_consolidated session) 0); [done|].
  intros _.
  pose proof (slice_list_nonempty (last_consolidated session) (total - keep)
                (messages session) ltac:(lia) ltac:(unfold total; lia)) as Hne.
  destruct (slice_list _ _ _) as [|m old]; [done|].
  destruct (read_error env); [done|].
  destruct (provider_chat env _ _) as [response|e].
  2:{ unfold on_exception. simpl. by destruct (exc_is_Exception e). }
  destruct (strip (default [] (Provider.content response))) as [|c r]; [done|].
  destruct (json_repair_loads env _) as [v|e].
  2:{ unfold on_exception. simpl. by destruct (exc_is_Exception e). }
  destruct v; try done. apply apply_result_not_early.
Qed.

(** X14.  After a run that is not an archive-all run ended well the
    trigger is off: consolidation is due again only when the session has
    grown. *)
Theorem completed_consolidation_resets_trigger self env memory session
    (persist_session : bool) :
  let run := _consolidate_memory self env memory session false
               persist_session in
  run_ending run = Done →
  _should_schedule_consolidation self (run_session run) = false.
Proof.
  intros run Hdone.
  destruct (consolidate_memory_spec self env memory session false
              persist_session) as (Hm & Hw).
  fold run in Hm, Hw.
  destruct Hw as [(_ & ? & _)|(Hw & _ & _)]; [done|].
  unfold watermarks in Hw. injection Hw as Hlc _.
  unfold _should_schedule_consolidation. rewrite Hm, Hlc.
  destruct (Z.leb_spec (Z.of_nat (length (messages session)))
                       (_compression_keep_count self)); [done|].
  by rewrite Z.sub_diag.
Qed.

(** What a run does to the two files, from the parsed result on. *)
Lemma apply_result_files env session memory archive_all persist_session
    current_memory next now_iso result :
  let run := apply_result env session memory archive_all persist_session
               current_memory next now_iso result in
  (∃ suffix, default [] (history_file (run_memory run))
             = default [] (history_file memory) ++ suffix)
  ∧ (run_ending run = Done ∨ stopped_at run HistoryWrite
     ∨ stopped_at run MemoryWrite ∨ stopped_at run SessionSave)
  ∧ (stopped_at run HistoryWrite →
     memory_file (run_memory run) = memory_file memory)
  ∧ (stopped_at run MemoryWrite →
     memory_file (run_memory run) = memory_file memory
     ∨ ∃ x written, write_error env = Some (WriteRaises x written)
                    ∧ memory_file (run_memory run) = Some written).
Proof.
  simpl.
  unfold apply_result, append_history, write_long_term,
    append_history_failed, write_long_term_failed, append_text, raised.
  repeat (case_match; simplify_eq); simpl;
    (split; [first [by exists []; rewrite app_nil_r | by eexists]|]);
    unfold stopped_at, on_exception; simpl;
    repeat match goal with
           | |- context [exc_is_Exception ?e] => destruct (exc_is_Exception e)
           end;
    (split; [eauto 10|]);
    split; intros (e' & [?|?]); simplify_eq; eauto 10.
Qed.

(** X15.  [HISTORY.md] is only appended to, and the two files are as
    they were unless the run got as far as the writes: a run that finds
    nothing to consolidate, gets an empty or unexpected answer, or fails at
    the reading of the memory, the call of the model or the parsing leaves
    both untouched.  A run that fails at the write of [HISTORY.md] leaves
    [MEMORY.md] as it was; a run that fails at the write of [MEMORY.md]
    leaves it as it was, or, when the write failed after the file was
    opened, with only what had been written by then. *)
Theorem consolidation_touches_files_late self env memory session
    (archive_all persist_session : bool) :
  let run := _consolidate_memory self env memory session archive_all
               persist_session in
  (∃ suffix, default [] (history_file (run_memory run))
             = default [] (history_file memory) ++ suffix)
  ∧ (run_memory run = memory
     ∨ run_ending run = Done ∨ stopped_at run HistoryWrite
     ∨ stopped_at run MemoryWrite ∨ stopped_at run SessionSave)
  ∧ (stopped_at run HistoryWrite →
     memory_file (run_memory run) = memory_file memory)
  ∧ (stopped_at run MemoryWrite →
     memory_file (run_memory run) = memory_file memory
     ∨ ∃ x written, write_error env = Some (WriteRaises x written)
                    ∧ memory_file (run_memory run) = Some written).
Proof.
  simpl. unfold _consolidate_memory.
  assert (∀ run : Run,
            run_memory run = memory →
            (∃ suffix, default [] (history_file (run_memory run))
                       = default [] (history_file memory) ++ suffix)
            ∧ (run_memory run = memory
               ∨ run_ending run = Done ∨ stopped_at run HistoryWrite
               ∨ stopped_at run MemoryWrite ∨ stopped_at run SessionSave)
            ∧ (stopped_at run HistoryWrite →
               memory_file (run_memory run) = memory_file memory)
            ∧ (stopped_at run MemoryWrite →
               memory_file (run_memory run) = memory_file memory
               ∨ ∃ x written, write_error env = Some (WriteRaises x written)
                              ∧ memory_file (run_memory run) = Some written))
    as Hsame.
  { intros run Hrun. rewrite Hrun. split; [exists []; by rewrite app_nil_r|].
    split; [by left|]. split; [done|]. by left. }
  repeat (case_match; simplify_eq);
    first [by apply Hsame
          | match goal with
            | |- context [apply_result ?a ?b ?c ?d ?e ?f ?g ?h ?i] =>
                destruct (apply_result_files a b c d e f g h i)
                  as (Hh & Hend & Hhw & Hmw)
            end;
            split; [exact Hh|]; split; [by right|];
            split; [exact Hhw | exact Hmw] ].
Qed.

(** X16.  A run whose parsed result holds a history entry and a new
    memory text, and whose write of [MEMORY.md] fails, has already appended
    the entry to [HISTORY.md], and the watermarks stay as they were: the
    next run consolidates the same messages again.  [MEMORY.md] is as it
    was when the file could not be opened; when the write failed after the
    file was opened, the old memory is gone and the file holds only what
    had been written by then. *)
Theorem memory_write_failure_keeps_history_entry
    env session memory (archive_all persist_session : bool)
    current_memory next now_iso result entry update failure :
  result !! py "history_entry" = Some (VStr entry) → entry ≠ [] →
  result !! py "memory_update" = Some (VStr update) → update ≠ [] →
  update ≠ current_memory →
  append_error env = None → write_error env = Some failure →
  let run := apply_result env session memory archive_all persist_session
               current_memory next now_iso result in
  stopped_at run MemoryWrite
  ∧ history_file (run_memory run)
    = Some (default [] (history_file memory) ++ rstrip entry ++ [NL; NL])
  ∧ memory_file (run_memory run)
    = match failure with
      | OpenRaises _ => memory_file memory
      | WriteRaises _ written => Some written
      end
  ∧ watermarks (run_session run) = watermarks session.
Proof.
  intros Hentry Hne Hupdate Hnu Hdiff Happend Hwrite. simpl.
  unfold apply_result. rewrite Hentry, Hupdate, Happend, Hwrite.
  destruct entry as [|c r]; [done|]. destruct update as [|c' r']; [done|].
  simpl. rewrite bool_decide_eq_true_2 by done.
  split; [|by destruct failure]. unfold stopped_at, on_exception. simpl.
  destruct (exc_is_Exception (raised failure)); eauto.
Qed.

End WithClock.

#[local] Existing Instance noon.

Definition thirty_messages : Session :=
  {| key := py "telegram:c1"; messages := replicate 30 (said "hello");
     last_consolidated := 2; last_consolidated_at := None |}.

Lemma scheduled_consolidation_has_work_witness :
  let self := new_agent 50 10 2 in
  0 ≤ last_consolidated thirty_messages
  ∧ _should_schedule_consolidation self thirty_messages = true
  ∧ run_ending (_consolidate_memory self quiet_env no_memory thirty_messages
                  false true) ≠ NothingToConsolidate.
Proof.
  intros self.
  assert (0 ≤ last_consolidated thirty_messages) as Hlc by (simpl; lia).
  assert (_should_schedule_consolidation self thirty_messages = true) as Hs
    by (vm_compute; reflexivity).
  split; [exact Hlc|]. split; [exact Hs|].
  exact (scheduled_consolidation_has_work self quiet_env no_memory
           thirty_messages true Hlc Hs).
Defined.

Lemma completed_consolidation_resets_trigger_witness :
  let self := new_agent 50 10 2 in
  let run := _consolidate_memory self quiet_env no_memory thirty_messages
               false true in
  run_ending run = Done
  ∧ _should_schedule_consolidation self thirty_messages = true
  ∧ _should_schedule_consolidation self (run_session run) = false.
Proof.
  intros self run.
  assert (run_ending run = Done) as Hd by (vm_compute; reflexivity).
  split; [exact Hd|]. split; [vm_compute; reflexivity|].
  exact (completed_consolidation_resets_trigger self quiet_env no_memory
           thirty_messages true Hd).
Defined.

(** The disk is full when [MEMORY.md] is written: the file is opened,
    and nothing of the new text reaches it. *)
Definition disk_full : Env :=
  {| provider_chat _ _ := Returns empty_object;
     json_repair_loads _ := Returns (VDict ∅);
     read_error := None; append_error := None;
     write_error :=
       Some (WriteRaises
               {| exc_type := py "OSError";
                  exc_str := py "[Errno 28] No space left on device";
                  exc_is_Exception := true |} []);
     save_error := None |}.

Definition entry_and_update : gmap pystr pyval :=
  {[ py "history_entry" := VStr (py "[2026-02-18 12:00] Greetings.");
     py "memory_update" := VStr (py "The user says hello.") ]}.

Definition paris_memory : MemoryStore :=
  {| memory_file := Some (py "The user lives in Paris.");
     history_file := None |}.

Lemma memory_write_failure_keeps_history_entry_witness :
  let run := apply_result disk_full thirty_messages paris_memory false true
               (py "The user lives in Paris.") 5 (py "2026-02-18T12:00:00")
               entry_and_update in
  history_file (run_memory run)
  = Some (py "[2026-02-18 12:00] Greetings." ++ [NL; NL])
  ∧ memory_file (run_memory run) = Some []
  ∧ last_consolidated (run_session run) = 2.
Proof.
  intros run.
  assert (entry_and_update !! py "history_entry"
          = Some (VStr (py "[2026-02-18 12:00] Greetings."))) as H1
    by (vm_compute; reflexivity).
  assert (entry_and_update !! py "memory_update"
          = Some (VStr (py "The user says hello."))) as H2
    by (vm_compute; reflexivity).
  assert (py "[2026-02-18 12:00] Greetings." ≠ []) as H3
    by (vm_compute; discriminate).
  assert (py "The user says hello." ≠ []) as H4
    by (vm_compute; discriminate).
  assert (py "The user says hello." ≠ py "The user lives in Paris.") as H5
    by (vm_compute; discriminate).
  destruct (memory_write_failure_keeps_history_entry disk_full
              thirty_messages paris_memory false true
              (py "The user lives in Paris.") 5
              (py "2026-02-18T12:00:00") entry_and_update
              (py "[2026-02-18 12:00] Greetings.")
              (py "The user says hello.") _
              H1 H3 H2 H4 H5 eq_refl eq_refl)
    as (_ & Hh & Hm & Hw).
  fold run in Hh, Hm, Hw. split; [|split].
  - rewrite Hh. vm_compute. reflexivity.
  - exact Hm.
  - exact (f_equal fst Hw).
Defined.

End ConsolidationMoreFacts.

(* ===================================================================== *)
(** ** Scheduling consolidation runs: one task per session *)
(* ===================================================================== *)

Module ScheduleFacts.
Import Schedule.

Set Warnings "-clear-no-such-hyp".

(** Each live task is the only one of its session, the running keys are
    the keys of the live tasks, and a pending key is a running key. *)
Definition single_flight (self : Scheduler) : Prop :=
  NoDup (tasks self)
  ∧ (∀ key, key ∈ tasks self ↔ key ∈ _consolidation_running_keys self)
  ∧ _consolidation_pending_keys self ⊆ _consolidation_running_keys self.

Lemma remove_first_NoDup key l :
  NoDup l →
  NoDup (remove_first key l)
  ∧ ∀ k, k ∈ remove_first key l ↔ k ∈ l ∧ k ≠ key.
Proof.
  induction 1 as [|x l Hx Hnd IH]; simpl.
  - split; [constructor|]. intros k. split; [by intros ?%elem_of_nil|].
    by intros [?%elem_of_nil _].
  - destruct IH as [IHnd IHin]. case_bool_decide as Hk.
    + subst x. split; [done|]. intros k. rewrite elem_of_cons.
      split; [|by intros [[?|?] ?]].
      intros Hin. split; [by right|]. by intros ->.
    + split.
      * constructor; [|done]. rewrite IHin. by intros [? _].
      * intros k. rewrite !elem_of_cons, IHin.
        split; [|by intuition]. intros [->|[? ?]]; by intuition.
Qed.

Lemma schedule_single_flight key self :
  single_flight self → single_flight (_schedule_consolidation key self).
Proof.
  intros (Hnd & Hin & Hsub). unfold _schedule_consolidation, single_flight.
  case_bool_decide as Hrun; simpl.
  - split; [done|]. split; [done|]. set_solver.
  - split; [|split].
    + apply NoDup_app. split; [done|]. split; [|apply NoDup_singleton].
      intros k Hk ->%list_elem_of_singleton. apply Hrun. by apply Hin.
    + intros k. rewrite elem_of_app, list_elem_of_singleton, Hin. set_solver.
    + set_solver.
Qed.

Lemma step_single_flight self ev :
  single_flight self → single_flight (step self ev).
Proof.
  intros Hinv. destruct ev as [key|key should]; simpl.
  { by apply schedule_single_flight. }
  case_bool_decide as Hlive; [|done].
  destruct Hinv as (Hnd & Hin & Hsub).
  destruct (remove_first_NoDup key _ Hnd) as [Hnd' Hin'].
  unfold _run_for_session_finally. simpl.
  assert (∀ pending,
            pending ⊆ _consolidation_running_keys self ∖ {[key]} →
            single_flight
              {| _consolidation_running_keys :=
                   _consolidation_running_keys self ∖ {[key]};
                 _consolidation_pending_keys := pending;
                 tasks := remove_first key (tasks self) |}) as Hrest.
  { intros pending Hp. split; [done|]. split; [|done].
    intros k. simpl. rewrite Hin', Hin. set_solver. }
  case_bool_decide as Hpend.
  - destruct should.
    + apply schedule_single_flight. apply Hrest. set_solver.
    + apply Hrest. set_solver.
  - apply Hrest. set_solver.
Qed.

Lemma consolidation_single_flight_from_start (events : list event) :
  single_flight (foldl step new_scheduler events).
Proof.
  assert (single_flight new_scheduler) as Hinit.
  { split; [constructor|]. split; [|done]. intros key. simpl.
    split; [by intros ?%elem_of_nil | set_solver]. }
  revert Hinit. generalize new_scheduler.
  induction events as [|ev events IH]; intros self Hinv; [done|].
  simpl. apply IH. by apply step_single_flight.
Qed.

(** X17.  Whatever requests arrive and whenever tasks end, there is at
    most one consolidation task per session: the live tasks have distinct
    keys, which are just the running keys, and every pending key is a
    running key. *)
Theorem consolidation_is_single_flight (events : list event) :
  let self := foldl step new_scheduler events in
  NoDup (tasks self)
  ∧ (∀ key, key ∈ tasks self ↔ key ∈ _consolidation_running_keys self)
  ∧ _consolidation_pending_keys self ⊆ _consolidation_running_keys self.
Proof.
  assert (single_flight new_scheduler) as Hinit.
  { split; [constructor|]. split; [|done]. intros key. simpl.
    split; [by intros ?%elem_of_nil | set_solver]. }
  revert Hinit. generalize new_scheduler.
  induction events as [|ev events IH]; intros self Hinv; [exact Hinv|].
  simpl. apply IH. by apply step_single_flight.
Qed.

Lemma schedule_while_running key self :
  key ∈ _consolidation_running_keys self →
  _schedule_consolidation key self
  = {| _consolidation_running_keys := _consolidation_running_keys self;
       _consolidation_pending_keys :=
         {[key]} ∪ _consolidation_pending_keys self;
       tasks := tasks self |}.
Proof.
  intros Hrun. unfold _schedule_consolidation.
  by rewrite bool_decide_eq_true_2.
Qed.

(** X18.  Requests that arrive while the task of a session is live
    start no task; they are remembered as one, and when the task ends a
    single new task starts if consolidation is still due, and none
    otherwise. *)
Theorem pending_requests_collapse (self : Scheduler) (key : pystr)
    (n : nat) (should : bool) :
  single_flight self →
  key ∈ tasks self →
  let busy := foldl step self (replicate (S n) (Request key)) in
  tasks busy = tasks self
  ∧ tasks (step busy (TaskEnds key should))
    = remove_first key (tasks self) ++ (if should then [key] else [])
  ∧ key ∉ _consolidation_pending_keys (step busy (TaskEnds key should)).
Proof.
  intros (Hnd & Hin & Hsub) Hlive.
  assert (key ∈ _consolidation_running_keys self) as Hrun by by apply Hin.
  assert (∀ m st,
            key ∈ _consolidation_running_keys st →
            let st' := foldl step st (replicate m (Request key)) in
            tasks st' = tasks st
            ∧ _consolidation_running_keys st' = _consolidation_running_keys st
            ∧ _consolidation_pending_keys st'
              = (if m is O then ∅ else {[key]})
                ∪ _consolidation_pending_keys st) as Hreq.
  { induction m as [|m IH]; intros st Hst.
    - simpl. split; [done|]. split; [done|]. set_solver.
    - cbn [replicate foldl step]. rewrite (schedule_while_running key st Hst).
      edestruct (IH {| _consolidation_running_keys :=
                         _consolidation_running_keys st;
                       _consolidation_pending_keys :=
                         {[key]} ∪ _consolidation_pending_keys st;
                       tasks := tasks st |}) as (-> & -> & ->); [done|].
      simpl. split; [done|]. split; [done|]. destruct m; set_solver. }
  intros busy. destruct (Hreq (S n) self Hrun) as (Ht & Hr & Hp).
  fold busy in Ht, Hr, Hp. split; [done|].
  assert (key ∈ _consolidation_pending_keys busy) as Hpend
    by (rewrite Hp; set_solver).
  unfold step. rewrite bool_decide_eq_true_2 by (by rewrite Ht).
  unfold _run_for_session_finally. simpl.
  rewrite bool_decide_eq_true_2 by done.
  destruct should; simpl.
  - unfold _schedule_consolidation. simpl.
    rewrite bool_decide_eq_false_2 by set_solver. simpl.
    rewrite Ht. split; [done|]. set_solver.
  - rewrite Ht, app_nil_r. split; [done|]. set_solver.
Qed.

Lemma pending_requests_collapse_witness :
  let self := step new_scheduler (Request (py "telegram:42")) in
  let busy :=
    foldl step self (replicate 3 (Request (py "telegram:42"))) in
  single_flight self
  ∧ py "telegram:42" ∈ tasks self
  ∧ tasks busy = [py "telegram:42"]
  ∧ tasks (step busy (TaskEnds (py "telegram:42") true))
    = [py "telegram:42"].
Proof.
  intros self busy.
  assert (single_flight self) as Hinv
    by exact (consolidation_single_flight_from_start [Request (py "telegram:42")]).
  assert (py "telegram:42" ∈ tasks self) as Hlive by (vm_compute; left).
  destruct (pending_requests_collapse self (py "telegram:42") 2 true
              Hinv Hlive) as (Ht & Hend & _).
  split; [exact Hinv|]. split; [exact Hlive|].
  split; [exact Ht | exact Hend].
Defined.

End ScheduleFacts.

(* ===================================================================== *)
(** ** Sending with an acknowledgement: no waiter is left behind *)
(* ===================================================================== *)

Module AckFacts.
Import Bus Provider Ack BusMoreFacts.

(** While the call waits: the waiter [fut] created for [rid] is in the
    store, and as long as it is registered it is registered under [rid]
    and pending. *)
Definition waiting (rid : pystr) (fut : nat) (bus : MessageBus) : Prop :=
  registry_ok bus
  ∧ fut < length (futures bus)
  ∧ ∀ k, _outbound_waiters bus !! k = Some fut →
         k = rid ∧ futures bus !! fut = Some Pending.

Lemma guarded_set_result_other (fs : list future) old a success error :
  old ≠ a →
  (if pending_at fs old then set_result old success error fs else fs) !! a
  = fs !! a.
Proof.
  intros Hne. destruct (pending_at fs old); [|done].
  by apply set_result_other.
Qed.

Lemma waiting_run_op rid fut bus op :
  waiting rid fut bus → waiting rid fut (run_op bus op).
Proof.
  intros (Hok & Hlt & Hreg).
  split; [by apply registry_ok_run_op|].
  destruct op as [msg| |msg|k'|k' success error|k']; simpl.
  - unfold publish_inbound. by destruct (is_active _ _).
  - unfold consume_inbound. by destruct (inbound bus).
  - unfold complete_inbound_turn. case_bool_decide; [done|]. simpl.
    by destruct (_merge_buffered_messages _).
  - assert (∀ fs', length fs' = S (length (futures bus)) →
              fs' !! fut = (futures bus ++ [Pending]) !! fut ∨
              _outbound_waiters bus !! k' = Some fut →
              fut < length fs'
              ∧ ∀ k, <[k' := length (futures bus)]>
                       (delete k' (_outbound_waiters bus)) !! k = Some fut →
                     k = rid ∧ (fs' !! fut = Some Pending
                                ∨ _outbound_waiters bus !! k' = Some fut))
      as Hgen.
    { intros fs' Hlen Hsame. split; [lia|]. intros k.
      destruct (decide (k = k')) as [->|Hne].
      - rewrite lookup_insert_eq. intros [= Heq]. lia.
      - rewrite lookup_insert_ne, lookup_delete_ne by done. intros Hk.
        destruct (Hreg k Hk) as [-> Hp]. split; [done|].
        destruct Hsame as [->|?]; [|by right]. left.
        by rewrite lookup_app_l. }
    destruct (_outbound_waiters bus !! k') as [old|] eqn:Hold.
    + destruct (decide (old = fut)) as [->|Hne].
      * destruct (Hreg k' Hold) as [-> _]. split.
        { rewrite guarded_set_result_length, length_app. simpl. lia. }
        intros k. destruct (decide (k = rid)) as [->|Hk].
        -- rewrite lookup_insert_eq. intros [= Heq]. lia.
        -- rewrite lookup_insert_ne, lookup_delete_ne by done. intros Hk'.
           by destruct (Hreg k Hk') as [-> _].
      * destruct (Hgen (if pending_at (futures bus ++ [Pending]) old
                        then set_result old false (Some superseded)
                               (futures bus ++ [Pending])
                        else futures bus ++ [Pending])) as [Hl Hk].
        { rewrite guarded_set_result_length, length_app. simpl. lia. }
        { left. by apply guarded_set_result_other. }
        split; [done|]. intros k Hin. destruct (Hk k Hin) as [-> [?|Hc]];
          [done|congruence].
    + destruct (Hgen (futures bus ++ [Pending])) as [Hl Hk].
      { rewrite length_app. simpl. lia. }
      { by left. }
      split; [done|]. intros k Hin. destruct (Hk k Hin) as [-> [?|Hc]];
        [done|congruence].
  - unfold resolve_outbound_waiter.
    destruct k' as [[|c r]|]; [done| |done]. simpl.
    destruct (_outbound_waiters bus !! (c :: r)) as [old|] eqn:Hold.
    + split; [by rewrite guarded_set_result_length|]. intros k Hk.
      apply lookup_delete_Some in Hk as [Hne Hk].
      destruct (Hreg k Hk) as [-> Hp]. split; [done|].
      rewrite guarded_set_result_other; [done|]. intros ->.
      by destruct (Hreg _ Hold) as [? _].
    + split; [done|]. intros k Hk.
      apply lookup_delete_Some in Hk as [Hne Hk]. by apply Hreg.
  - unfold discard_outbound_waiter.
    destruct k' as [[|c r]|]; [done| |done]. simpl.
    split; [done|]. intros k Hk.
    apply lookup_delete_Some in Hk as [Hne Hk]. by apply Hreg.
Qed.

Lemma waiting_run_ops rid fut bus (ops : list bus_op) :
  waiting rid fut bus → waiting rid fut (foldl run_op bus ops).
Proof.
  revert bus. induction ops as [|op ops IH]; intros bus Hw; [done|].
  simpl. apply IH. by apply waiting_run_op.
Qed.

(** X6.  However a send with acknowledgement ends, with the ack, with
    a failure reported by the channel, superseded, or on the timeout, its
    waiter is not registered any more and is done; the call returns
    exactly when the waiter was resolved with success. *)
Theorem publish_with_ack_leaves_no_waiter
    (bus : MessageBus) (msg_request_id : option pystr) (uuid4_hex : pystr)
    (during : list bus_op) :
  registry_ok bus →
  let waiter := length (futures bus) in
  let '(out, bus') :=
    _publish_outbound_with_ack msg_request_id uuid4_hex during bus in
  (∀ k, _outbound_waiters bus' !! k ≠ Some waiter)
  ∧ (∃ st, futures bus' !! waiter = Some st ∧ done st = true)
  ∧ (out = Returns () ↔
     ∃ error, futures bus' !! waiter = Some (Result true error)).
Proof.
  intros Hok waiter. unfold _publish_outbound_with_ack.
  set (rid := if truthy msg_request_id then default [] msg_request_id
              else py "out_" ++ take 12 uuid4_hex).
  assert (rid ≠ []) as Hrid.
  { unfold rid. destruct msg_request_id as [[|c r]|]; simpl; try done.
    all: assert (∃ t, py "out_" = 111%N :: t) as [t ->]
           by (eexists; vm_compute; reflexivity); done. }
  destruct (create_lookup bus rid Hok) as (_ & Hw & Hp).
  set (bus1 := (create_outbound_waiter rid bus).2) in *.
  change ((create_outbound_waiter rid bus).1) with waiter in Hw, Hp.
  change (create_outbound_waiter rid bus) with (waiter, bus1).
  cbv beta iota zeta.
  assert (waiting rid waiter bus1) as Hwait.
  { split; [exact (registry_ok_run_op bus (CreateWaiter rid) Hok)|].
    split; [by eapply lookup_lt_Some|].
    intros k Hk. split; [|done].
    destruct (decide (k = rid)) as [|Hne]; [done|]. exfalso.
    unfold bus1 in Hk. simpl in Hk.
    rewrite lookup_insert_ne, lookup_delete_ne in Hk by done.
    apply Hok in Hk. unfold waiter in Hk. lia. }
  apply (waiting_run_ops _ _ _ during) in Hwait.
  set (bus2 := foldl run_op bus1 during) in *.
  destruct Hwait as (Hok2 & Hlt & Hreg).
  destruct (futures bus2 !! waiter) as [st|] eqn:Hst.
  2:{ apply lookup_ge_None in Hst. lia. }
  destruct st as [|success error|].
  - (* still pending: the timeout *)
    destruct rid as [|c r] eqn:Erid; [done|]. simpl.
    unfold cancel. rewrite (pending_at_done _ _ _ Hst). simpl.
    split; [|split].
    + intros k Hk. apply lookup_delete_Some in Hk as [Hne Hk].
      by destruct (Hreg k Hk) as [-> _].
    + exists Cancelled. split; [|done].
      by apply list_lookup_insert_eq.
    + rewrite list_lookup_insert_eq by done. split; [done|].
      by intros [? ?].
  - (* resolved *)
    assert (∀ k, _outbound_waiters bus2 !! k ≠ Some waiter) as Hgone.
    { intros k Hk. destruct (Hreg k Hk) as [_ Hp']. congruence. }
    destruct success; simpl; rewrite Hst.
    + split; [done|]. split; [by eexists|]. split; [by eauto | done].
    + split; [done|]. split; [by eexists|]. split; [done|].
      by intros [? ?].
  - (* cancelled by someone else *)
    simpl. rewrite Hst. split.
    + intros k Hk. destruct (Hreg k Hk) as [_ Hp']. congruence.
    + split; [by eexists|]. split; [done | by intros [? ?]].
Qed.

Lemma publish_with_ack_leaves_no_waiter_witness :
  let late := [ResolveWaiter (Some (py "out_0123456789ab")) true None] in
  registry_ok new_bus
  ∧ (_publish_outbound_with_ack None (py "0123456789abcdef") late new_bus).1
    = Returns ()
  ∧ (_publish_outbound_with_ack None (py "0123456789abcdef") [] new_bus).1
    = Raises {| exc_type := py "RuntimeError";
                exc_str :=
                  py "Message delivery acknowledgement timeout after 15s";
                exc_is_Exception := true |}
  ∧ ∀ k, _outbound_waiters
           (_publish_outbound_with_ack None (py "0123456789abcdef") []
              new_bus).2 !! k ≠ Some 0%nat.
Proof.
  intros late. split; [exact registry_ok_new_bus|].
  split; [vm_compute; reflexivity|]. split; [vm_compute; reflexivity|].
  pose proof (publish_with_ack_leaves_no_waiter new_bus None
                (py "0123456789abcdef") [] registry_ok_new_bus) as Hthm.
  simpl in Hthm.
  destruct (_publish_outbound_with_ack None (py "0123456789abcdef") []
              new_bus) as [out bus'].
  exact (proj1 Hthm).
Defined.

End AckFacts.

(* ===================================================================== *)
(** ** Splitting long Telegram messages *)
(* ===================================================================== *)

Module TelegramFacts.
Import PyFacts Telegram.

Lemma rfind_Some c s i :
  rfind c s = Some i → (i < length s)%nat ∧ s !! i = Some c.
Proof.
  revert i. induction s as [|x t IH]; intros i; simpl; [done|].
  destruct (rfind c t) as [j|].
  - intros [= <-]. destruct (IH j eq_refl). split; [lia | done].
  - destruct (N.eqb_spec x c) as [->|]; [|done]. intros [= <-].
    split; [lia | done].
Qed.

Lemma cut_position_le max_len content :
  (cut_position max_len content ≤ max_len)%nat.
Proof.
  unfold cut_position.
  destruct (rfind NL _) as [p|] eqn:E.
  { apply rfind_Some in E as [E _]. rewrite length_take in E. lia. }
  destruct (rfind 32 _) as [p|] eqn:E'; [|lia].
  apply rfind_Some in E' as [E' _]. rewrite length_take in E'. lia.
Qed.

(** The cut is at a newline or a space, or after [max_len] code
    points. *)
Lemma cut_position_cases max_len content :
  let pos := cut_position max_len content in
  (pos < max_len ∧ (content !! pos = Some NL ∨ content !! pos = Some 32%N))%nat
  ∨ pos = max_len.
Proof.
  simpl. unfold cut_position.
  destruct (rfind NL _) as [p|] eqn:E.
  { apply rfind_Some in E as [E1 E2]. rewrite length_take in E1.
    rewrite lookup_take_lt in E2 by lia. left. split; [lia | by left]. }
  destruct (rfind 32 _) as [p|] eqn:E'; [|by right].
  apply rfind_Some in E' as [E1 E2]. rewrite length_take in E1.
  rewrite lookup_take_lt in E2 by lia. left. split; [lia | by right].
Qed.

Lemma lstrip_length_le s : (length (lstrip s) ≤ length s)%nat.
Proof.
  unfold lstrip. induction s as [|c s IH]; simpl; [done|].
  destruct (isspace c); simpl; lia.
Qed.

Lemma lstrip_space c s : isspace c = true → lstrip (c :: s) = lstrip s.
Proof. unfold lstrip. simpl. by intros ->. Qed.

(** A round shortens the text. *)
Lemma round_shortens max_len content :
  (1 ≤ max_len)%nat → (max_len < length content)%nat →
  (length (lstrip (drop (cut_position max_len content) content))
   < length content)%nat.
Proof.
  intros Hmax Hlen.
  destruct (cut_position_cases max_len content) as [[Hlt Hat]| ->].
  - set (pos := cut_position max_len content) in *.
    destruct (drop pos content) as [|c rest] eqn:Hd.
    { apply (f_equal length) in Hd. rewrite length_drop in Hd. simpl in *. lia. }
    assert (content !! pos = Some c) as Hc.
    { pose proof (lookup_drop content pos 0) as Hl.
      by rewrite Hd, Nat.add_0_r in Hl. }
    assert (isspace c = true) as Hsp.
    { destruct Hat as [Hat|Hat]; rewrite Hat in Hc;
        injection Hc as <-; reflexivity. }
    rewrite lstrip_space by done.
    pose proof (lstrip_length_le rest) as Hle.
    apply (f_equal length) in Hd. rewrite length_drop in Hd. simpl in Hd. lia.
  - pose proof (lstrip_length_le (drop max_len content)) as Hle.
    rewrite length_drop in Hle. lia.
Qed.

Lemma split_loop_fuel f1 f2 max_len content chunks :
  (1 ≤ max_len)%nat → (length content ≤ f1)%nat → (length content ≤ f2)%nat →
  split_loop f1 max_len content chunks = split_loop f2 max_len content chunks.
Proof.
  intros Hmax. revert f2 content chunks.
  induction f1 as [|f1 IH]; intros f2 content chunks H1 H2.
  - destruct content; [|simpl in H1; lia]. by destruct f2.
  - destruct content as [|c r]; [by destruct f2|].
    destruct f2 as [|f2]; [simpl in H2; lia|].
    cbn [split_loop].
    destruct (Nat.leb_spec (length (c :: r)) max_len) as [|Hlong]; [done|].
    pose proof (round_shortens max_len (c :: r) Hmax Hlong) as Hshort.
    apply IH; lia.
Qed.

(** The code points that are not white space. *)
Definition ink (s : pystr) : pystr := filter (λ c, isspace c = false) s.

Lemma ink_lstrip s : ink (lstrip s) = ink s.
Proof.
  unfold ink, lstrip. induction s as [|c s IH]; simpl; [done|].
  destruct (isspace c) eqn:Hc; [|done].
  rewrite filter_cons_False by (by rewrite Hc). done.
Qed.

Lemma ink_app s t : ink (s ++ t) = ink s ++ ink t.
Proof. apply filter_app. Qed.

(** What the loop keeps, whatever the fuel: the chunks are within
    [max_len], and the code points that are not white space are those of
    the chunks so far and of the rest of the text, in order. *)
Lemma split_loop_spec fuel max_len content chunks :
  (1 ≤ max_len)%nat → (length content ≤ fuel)%nat →
  Forall (λ chunk, (length chunk ≤ max_len)%nat) chunks →
  let result := split_loop fuel max_len content chunks in
  Forall (λ chunk, (length chunk ≤ max_len)%nat) result
  ∧ ink (mjoin result) = ink (mjoin chunks ++ content).
Proof.
  intros Hmax. revert content chunks.
  induction fuel as [|fuel IH]; intros content chunks Hfuel Hall.
  - destruct content; [|simpl in Hfuel; lia]. simpl.
    by rewrite app_nil_r.
  - destruct content as [|c r]; [simpl; by rewrite app_nil_r|].
    cbn [split_loop].
    destruct (Nat.leb_spec (length (c :: r)) max_len) as [Hshort|Hlong].
    + split.
      * apply Forall_app. split; [done|]. by constructor.
      * rewrite join_app. simpl. by rewrite app_nil_r.
    + pose proof (round_shortens max_len (c :: r) Hmax Hlong) as Hround.
      pose proof (cut_position_le max_len (c :: r)) as Hpos.
      set (pos := cut_position max_len (c :: r)) in *.
      destruct (IH (lstrip (drop pos (c :: r)))
                   (chunks ++ [take pos (c :: r)])) as [IH1 IH2].
      * lia.
      * apply Forall_app. split; [done|]. constructor; [|done].
        rewrite length_take. lia.
      * split; [done|]. rewrite IH2, join_app. simpl.
        rewrite app_nil_r, <- !app_assoc, !ink_app, ink_lstrip.
        by rewrite <- (ink_app (take pos _)), take_drop.
Qed.

(** X26.  For [max_len >= 1] the chunks are all within [max_len], and
    they hold the code points of the text that are not white space, all
    of them and in order: splitting only drops white space, at the
    cuts. *)
Theorem split_message_bounded_and_complete (content : pystr) (max_len : nat) :
  (1 ≤ max_len)%nat →
  Forall (λ chunk, (length chunk ≤ max_len)%nat)
         (_split_message content max_len)
  ∧ ink (mjoin (_split_message content max_len)) = ink content.
Proof.
  intros Hmax. unfold _split_message.
  destruct (Nat.leb_spec (length content) max_len) as [Hshort|Hlong].
  - split; [by constructor|]. simpl. by rewrite app_nil_r.
  - by apply (split_loop_spec (length content) max_len content []).
Qed.

Lemma split_message_bounded_and_complete_witness :
  let text := py "one two" ++ [NL] ++ py "three four" in
  (1 ≤ 9)%nat
  ∧ _split_message text 9 = [py "one two"; py "three"; py "four"]
  ∧ ink (mjoin (_split_message text 9)) = py "onetwothreefour".
Proof.
  intros text. split; [lia|]. split; [vm_compute; reflexivity|].
  rewrite (proj2 (split_message_bounded_and_complete text 9 ltac:(lia))).
  vm_compute. reflexivity.
Defined.

(** The text does not begin with a newline or a space. *)
Definition starts_with_ink (content : pystr) : Prop :=
  ∃ c r, content = c :: r ∧ c ≠ NL ∧ c ≠ 32%N.

Lemma lstrip_starts_with_ink s : lstrip s ≠ [] → starts_with_ink (lstrip s).
Proof.
  unfold lstrip. induction s as [|c s IH]; simpl; [done|].
  destruct (isspace c) eqn:Hc; [done|]. intros _.
  exists c, s. split; [done|]. split; intros ->; by vm_compute in Hc.
Qed.

Lemma split_loop_nonempty fuel max_len content chunks :
  (1 ≤ max_len)%nat →
  content = [] ∨ starts_with_ink content →
  Forall (λ chunk, chunk ≠ []) chunks →
  Forall (λ chunk, chunk ≠ []) (split_loop fuel max_len content chunks).
Proof.
  intros Hmax. revert content chunks.
  induction fuel as [|fuel IH]; intros content chunks Hstart Hall.
  - destruct content as [|c r]; [done|]. cbn [split_loop].
    destruct (Nat.leb _ _); [|done].
    apply Forall_app. split; [done|]. by constructor.
  - destruct content as [|c r]; [done|]. cbn [split_loop].
    destruct (Nat.leb_spec (length (c :: r)) max_len) as [Hshort|Hlong].
    { apply Forall_app. split; [done|]. by constructor. }
    apply IH.
    + destruct (lstrip _) eqn:E; [by left|]. right. rewrite <- E.
      apply lstrip_starts_with_ink. by rewrite E.
    + apply Forall_app. split; [done|]. constructor; [|done].
      destruct Hstart as [|(c' & r' & [= <- <-] & Hnl & Hsp)]; [done|].
      destruct (cut_position_cases max_len (c :: r)) as [[Hlt Hat]|Heq].
      * destruct (cut_position max_len (c :: r)) as [|p] eqn:Hp.
        { simpl in Hat. destruct Hat as [[= ?]|[= ?]]; congruence. }
        done.
      * rewrite Heq. destruct max_len; [lia | done].
Qed.

(** X27.  For [max_len >= 1], a text that is not empty and does not
    begin with a newline or a space is split into chunks none of which is
    empty. *)
Theorem split_message_chunks_nonempty (content : pystr) (max_len : nat) :
  (1 ≤ max_len)%nat → starts_with_ink content →
  Forall (λ chunk, chunk ≠ []) (_split_message content max_len).
Proof.
  intros Hmax Hstart. unfold _split_message.
  destruct (length content <=? max_len)%nat.
  - constructor; [|done]. by destruct Hstart as (c & r & -> & _).
  - apply split_loop_nonempty; [done | by right | done].
Qed.

Lemma split_message_chunks_nonempty_witness :
  let text := py "one two" ++ [NL] ++ py "three four" in
  (1 ≤ 9)%nat ∧ starts_with_ink text
  ∧ Forall (λ chunk, chunk ≠ []) (_split_message text 9).
Proof.
  intros text.
  assert (starts_with_ink text) as Hstart.
  { eexists _, _. split; [vm_compute; reflexivity|]. split; discriminate. }
  split; [lia|]. split; [exact Hstart|].
  exact (split_message_chunks_nonempty text 9 ltac:(lia) Hstart).
Defined.

(** X28.  A text longer than [max_len] that begins with a newline, with
    no other newline among its first [max_len] code points, gets an empty
    first chunk. *)
Theorem split_message_leading_newline (rest : pystr) (max_len : nat) :
  (max_len ≤ length rest)%nat →
  rfind NL (take (max_len - 1) rest) = None →
  (1 ≤ max_len)%nat →
  ∃ chunks, _split_message (NL :: rest) max_len = [] :: chunks.
Proof.
  intros Hlen Hnone Hmax. unfold _split_message.
  destruct (Nat.leb_spec (length (NL :: rest)) max_len) as [Hshort|Hlong].
  { simpl in Hshort. lia. }
  assert (cut_position max_len (NL :: rest) = 0%nat) as Hpos.
  { unfold cut_position. destruct max_len as [|m]; [lia|].
    replace (S m - 1)%nat with m in Hnone by lia.
    change (take (S m) (NL :: rest)) with (NL :: take m rest).
    cbn [rfind]. by rewrite Hnone, N.eqb_refl. }
  cbn [length split_loop]. 
  destruct (Nat.leb_spec (S (length rest)) max_len) as [|_]; [lia|].
  rewrite Hpos. simpl take. rewrite app_nil_l.
  assert (∀ fuel content chunk chunks,
            ∃ more, split_loop fuel max_len content (chunk :: chunks)
                    = chunk :: more) as Hhead.
  { induction fuel as [|fuel IH]; intros content chunk chunks.
    - destruct content as [|c r]; cbn [split_loop]; [by eexists|].
      destruct (Nat.leb _ _); by eexists.
    - destruct content as [|c r]; [by eexists|]. cbn [split_loop].
      destruct (Nat.leb _ _); [by eexists|]. apply IH. }
  apply Hhead.
Qed.

Lemma split_message_leading_newline_witness :
  (3 ≤ length (py "abcdef"))%nat
  ∧ rfind NL (take (3 - 1) (py "abcdef")) = None
  ∧ _split_message (NL :: py "abcdef") 3 = [[]; py "abc"; py "def"].
Proof.
  assert (3 ≤ length (py "abcdef"))%nat as Hlen by (vm_compute; lia).
  assert (rfind NL (take (3 - 1) (py "abcdef")) = None) as Hnone
    by (vm_compute; reflexivity).
  split; [exact Hlen|]. split; [exact Hnone|].
  destruct (split_message_leading_newline (py "abcdef") 3 Hlen Hnone
              ltac:(lia)) as [chunks Hchunks].
  vm_compute. reflexivity.
Defined.

End TelegramFacts.

(* ===================================================================== *)
(** ** The message tool: what is sent *)
(* ===================================================================== *)

Module MessageToolFacts.
Import MessageTool.
Local Open Scope Z_scope.

Lemma stripped_or_none_Some value s :
  stripped_or_none value = Some s → s ≠ [] ∧ truthy (Some s) = true.
Proof.
  unfold stripped_or_none. destruct (strip _) as [|c r]; [done|].
  by intros [= <-].
Qed.

Lemma stripped_or_none_truthy value :
  truthy (stripped_or_none value) = true ↔ is_Some (stripped_or_none value).
Proof.
  split.
  - by destruct (stripped_or_none value).
  - intros [s Hs]. rewrite Hs. by apply stripped_or_none_Some in Hs as [_ ?].
Qed.

(** What a message handed to the callback satisfies. *)
Definition deliverable (msg : OutboundMessage) : Prop :=
  channel msg ≠ [] ∧ chat_id msg ≠ []
  ∧ (content msg ≠ [] ∨ media msg ≠ [] ∨ is_Some (sticker_id msg)
     ∨ is_Some (reaction msg))
  ∧ (is_Some (sticker_id msg) ∨ is_Some (reaction msg) →
     channel msg = py "telegram")
  ∧ (∀ r, reaction msg = Some r →
       r ≠ []
       ∧ ∃ z, reaction_message_id msg = Some z ∧ z ≠ 0
              ∧ metadata msg !! py "reaction" = Some (VStr r)
              ∧ metadata msg !! py "reaction_message_id" = Some (VInt z)).

Section WithPaths.
Variable expanduser : pystr → Provider.outcome pystr.

Lemma expand_all_Returns paths expanded :
  expand_all expanduser paths = Provider.Returns expanded →
  Forall2 (λ p q, expanduser p = Provider.Returns q) paths expanded.
Proof.
  revert expanded. induction paths as [|p rest IH]; intros expanded; simpl.
  - intros [= <-]. constructor.
  - destruct (expanduser p) as [q|e] eqn:Hp; [|done].
    destruct (expand_all expanduser rest) as [qs|e]; [|done].
    intros [= <-]. constructor; [done | by apply IH].
Qed.

Lemma expand_all_Raises paths e :
  expand_all expanduser paths = Provider.Raises e →
  ∃ p, p ∈ paths ∧ expanduser p = Provider.Raises e.
Proof.
  induction paths as [|p rest IH]; simpl; [done|].
  destruct (expanduser p) as [q|e'] eqn:Hp.
  - destruct (expand_all expanduser rest) as [qs|e']; [done|].
    intros [= ->]. destruct (IH eq_refl) as (p' & Hin & Hraise).
    exists p'. split; [by right | done].
  - intros [= ->]. exists p. split; [by left | done].
Qed.

(** X29.  The message tool hands a message to the callback only after
    all its checks passed: the message has a channel and a chat, carries a
    text, an attachment, a sticker or a reaction, carries a sticker or a
    reaction only on the telegram channel, and a reaction only with a
    message id other than 0, which the metadata repeat; its attachments
    are the expanded paths.  A call that sends nothing returns a text that
    begins with [Error: ], or ends in the exception raised by the
    expansion of one of its paths, which is not caught.  No other
    exception that derives from [Exception] leaves the tool. *)
Theorem message_tool_sends_only_valid
    (self : MessageTool) (content channel chat_id : option pystr)
    (media : option (list pystr)) (sticker_id reaction : option pystr)
    (message_id : option Z) :
  let '(sent, result) :=
    execute expanduser self content channel chat_id media sticker_id
            reaction message_id in
  match sent with
  | Some msg =>
      deliverable msg
      ∧ Forall2 (λ p q, expanduser p = Provider.Returns q)
                (default [] media) (MessageTool.media msg)
  | None =>
      (∃ text, result = Provider.Returns (py "Error: " ++ text))
      ∨ (∃ paths p e, media = Some paths ∧ p ∈ paths
                      ∧ expanduser p = Provider.Raises e
                      ∧ result = Provider.Raises e)
  end
  ∧ ∀ e, result = Provider.Raises e →
         Provider.exc_is_Exception e = false
         ∨ (sent = None
            ∧ ∃ paths p, media = Some paths ∧ p ∈ paths
                         ∧ expanduser p = Provider.Raises e).
Proof.
  unfold execute.
  set (ch := or_else channel (_default_channel self)).
  set (chat := or_else chat_id (_default_chat_id self)).
  set (text := or_else content []).
  assert (truthy (Some ch) = false ∨ truthy (Some chat) = false
          ∨ ch ≠ [] ∧ chat ≠ []
            ∧ negb (truthy (Some ch)) || negb (truthy (Some chat)) = false)
    as [Hch|[Hchat|(Hch & Hchat & Hboth)]].
  { destruct ch; [by left|]. destruct chat; [by right; left|].
    right. right. done. }
  { rewrite Hch. cbn [negb orb]. split; [left; by eexists | done]. }
  { rewrite Hchat, orb_true_r. split; [left; by eexists | done]. }
  rewrite Hboth.
  destruct (_send_callback self) as [send|].
  2:{ split; [left; by eexists | done]. }
  destruct (negb (truthy (Some text)) && negb (truthy_list media)
            && negb (truthy (stripped_or_none sticker_id))
            && negb (truthy (stripped_or_none reaction))) eqn:Hany.
  { split; [left; by eexists | done]. }
  destruct (truthy (stripped_or_none sticker_id)
            && bool_decide (ch ≠ py "telegram")) eqn:Hsticker.
  { split; [left; by eexists | done]. }
  destruct (truthy (stripped_or_none reaction)
            && negb (truthy_int message_id)) eqn:Hid.
  { split; [left; by eexists | done]. }
  destruct (truthy (stripped_or_none reaction)
            && bool_decide (ch ≠ py "telegram")) eqn:Hreact.
  { split; [left; by eexists | done]. }
  destruct (if truthy_list media
            then expand_all expanduser (default [] media)
            else Provider.Returns []) as [expanded|e] eqn:Hexpand.
  2:{ assert (∃ paths p, media = Some paths ∧ p ∈ paths
                         ∧ expanduser p = Provider.Raises e)
        as (paths & p & Hmedia & Hin & Hraise).
      { destruct media as [[|p0 ps]|]; [done| |done].
        cbn [truthy_list default] in Hexpand.
        apply expand_all_Raises in Hexpand as (p & Hin & Hraise).
        by exists (p0 :: ps), p. }
      split.
      - right. by exists paths, p, e.
      - intros e' [= <-]. right. split; [done|]. by exists paths, p. }
  assert (Forall2 (λ p q, expanduser p = Provider.Returns q)
                  (default [] media) expanded
          ∧ (truthy_list media = true → expanded ≠ []))
    as (Hpaths & Hsome).
  { destruct media as [[|p0 ps]|].
    - injection Hexpand as <-. split; [constructor | done].
    - cbn [truthy_list default] in Hexpand.
      apply expand_all_Returns in Hexpand. split; [done|].
      intros _ ->. by inversion Hexpand.
    - injection Hexpand as <-. split; [constructor | done]. }
  match goal with
  | |- context [send ?m] => set (msg := m)
  end.
  assert (deliverable msg) as Hmsg.
  { unfold deliverable, msg. simpl.
    split; [done|]. split; [done|]. split; [|split].
    - destruct text; [|by left].
      destruct (truthy_list media) eqn:Hmedia;
        [right; left; by apply Hsome|].
      simpl in Hany.
      destruct (stripped_or_none sticker_id); [by right; right; left|].
      destruct (stripped_or_none reaction) as [r|] eqn:Hr;
        [by right; right; right|].
      by simpl in Hany.
    - intros [Hs|Hr].
      + apply stripped_or_none_truthy in Hs. rewrite Hs in Hsticker.
        simpl in Hsticker. apply bool_decide_eq_false in Hsticker.
        by apply dec_stable in Hsticker.
      + apply stripped_or_none_truthy in Hr. rewrite Hr in Hreact.
        simpl in Hreact. apply bool_decide_eq_false in Hreact.
        by apply dec_stable in Hreact.
    - intros r Hr. pose proof Hr as [Hne Htr]%stripped_or_none_Some.
      rewrite Hr, Htr in *. simpl in Hid. split; [done|].
      destruct message_id as [z|]; [|done]. simpl in Hid.
      exists z. split; [done|]. split; [by destruct (Z.eqb_spec z 0)|].
      split; [|by rewrite lookup_insert_eq].
      rewrite lookup_insert_ne by (by vm_compute). by rewrite lookup_insert_eq. }
  destruct (send msg) as [[]|e].
  - split; [done|]. done.
  - destruct (Provider.exc_is_Exception e) eqn:He.
    + split; [done|]. done.
    + split; [done|]. intros e' [= <-]. by left.
Qed.

End WithPaths.

(** A home directory that cannot be determined: [~nosuchuser/x.png]. *)
Definition no_home : Provider.exn :=
  {| Provider.exc_type := py "RuntimeError";
     Provider.exc_str := py "Could not determine home directory.";
     Provider.exc_is_Exception := true |}.

Definition expand_home (path : pystr) : Provider.outcome pystr :=
  match strip_prefix (py "~nosuchuser") path with
  | Some _ => Provider.Raises no_home
  | None => Provider.Returns path
  end.

Definition telegram_tool : MessageTool :=
  {| _send_callback := Some (λ _, Provider.Returns ());
     _default_channel := py "telegram";
     _default_chat_id := py "42";
     _default_metadata := ∅ |}.

Lemma message_tool_sends_only_valid_witness :
  execute expand_home telegram_tool (Some (py "a photo")) None None
          (Some [py "/tmp/a.png"; py "~nosuchuser/x.png"]) None None None
  = (None, Provider.Raises no_home)
  ∧ Provider.exc_is_Exception no_home = true
  ∧ (∃ paths p, Some [py "/tmp/a.png"; py "~nosuchuser/x.png"] = Some paths
                ∧ p ∈ paths ∧ expand_home p = Provider.Raises no_home)
  ∧ ∃ msg,
      execute expand_home telegram_tool (Some (py "a photo")) None None
              (Some [py "/tmp/a.png"]) None None None
      = (Some msg,
         Provider.Returns
           (py "Message delivered to telegram:42 with 1 attachment(s)"))
      ∧ MessageTool.media msg = [py "/tmp/a.png"]
      ∧ deliverable msg.
Proof.
  pose proof (message_tool_sends_only_valid expand_home telegram_tool
                (Some (py "a photo")) None None
                (Some [py "/tmp/a.png"; py "~nosuchuser/x.png"])
                None None None) as Hraises.
  pose proof (message_tool_sends_only_valid expand_home telegram_tool
                (Some (py "a photo")) None None
                (Some [py "/tmp/a.png"]) None None None) as Hsends.
  assert (execute expand_home telegram_tool (Some (py "a photo")) None None
            (Some [py "/tmp/a.png"; py "~nosuchuser/x.png"]) None None None
          = (None, Provider.Raises no_home)) as E1
    by (vm_compute; reflexivity).
  rewrite E1 in Hraises. destruct Hraises as [_ Hraises].
  split; [reflexivity|]. split; [reflexivity|].
  split.
  { destruct (Hraises no_home eq_refl) as [Hfalse|[_ Hpath]];
      [discriminate | exact Hpath]. }
  destruct (execute expand_home telegram_tool (Some (py "a photo")) None None
              (Some [py "/tmp/a.png"]) None None None)
    as [sent result] eqn:E2.
  assert (sent = Some {| channel := py "telegram"; chat_id := py "42";
                         content := py "a photo";
                         media := [py "/tmp/a.png"];
                         sticker_id := None; reaction := None;
                         reaction_message_id := None; metadata := ∅ |}
          ∧ result = Provider.Returns
              (py "Message delivered to telegram:42 with 1 attachment(s)"))
    as [-> ->].
  { vm_compute in E2. injection E2 as <- <-. split; reflexivity. }
  eexists. split; [reflexivity|]. split; [reflexivity|].
  exact (proj1 (proj1 Hsends)).
Defined.

End MessageToolFacts.

(* ===================================================================== *)
(** ** The rounds of [AgentLoop.run]: follow-up messages *)
(* ===================================================================== *)

Module RunLoopFacts.
Import Bus BusFacts RunLoop.

(** The messages published by the events. *)
Definition arrivals (events : list inbound_event) : list InboundMessage :=
  omap (λ ev, match ev with Arrives msg => Some msg | Round => None end)
       events.

(** Every message that arrives belongs to the session [K]. *)
Definition all_of_session (K : pystr) (events : list inbound_event) : Prop :=
  Forall (λ msg, session_key msg = K) (arrivals events).

Lemma rounds_during_turn bus turn processed (events : list inbound_event) :
  _active_inbound_session bus = Some (session_key turn) →
  inbound bus = [] →
  all_of_session (session_key turn) events →
  let state := foldl run_step (bus, processed) events in
  state.2 = processed
  ∧ inbound state.1 = []
  ∧ _active_inbound_session state.1 = Some (session_key turn)
  ∧ buffer_of state.1 (session_key turn)
    = buffer_of bus (session_key turn) ++ arrivals events.
Proof.
  simpl. revert bus. induction events as [|ev events IH];
    intros bus Ha Hq Hall.
  - simpl. by rewrite app_nil_r.
  - destruct ev as [msg|]; simpl.
    + apply Forall_cons in Hall as [Hk Hall].
      rewrite (publish_same_session _ turn) by done.
      edestruct IH as (-> & -> & -> & ->); [done|done|exact Hall|].
      unfold buffer_of at 1. simpl. rewrite lookup_insert_eq. simpl.
      by rewrite <- app_assoc.
    + unfold consume_inbound. rewrite Hq. by apply IH.
Qed.

(** X5.  [run] never completes a turn.  On a bus that is idle, after
    a first message was consumed, the messages that arrive for its session
    are buffered and stay buffered: however many rounds the loop makes,
    the first message is the only one processed and the queue is empty. *)
Theorem run_strands_followups bus first (events : list inbound_event) :
  _active_inbound_session bus = None →
  inbound bus = [] →
  all_of_session (session_key first) events →
  let state := foldl run_step (bus, []) (Arrives first :: Round :: events) in
  state.2 = [first]
  ∧ inbound state.1 = []
  ∧ buffer_of state.1 (session_key first)
    = buffer_of bus (session_key first) ++ arrivals events.
Proof.
  intros Ha Hq Hall. cbn [foldl run_step run_round fst snd].
  assert (publish_inbound first bus = with_inbound [first] bus) as ->.
  { unfold publish_inbound, is_active. by rewrite Ha, Hq. }
  cbn [consume_inbound inbound with_inbound app].
  destruct (rounds_during_turn
              (with_active (Some (session_key first)) (with_inbound [] (with_inbound [first] bus)))
              first [first] events)
    as (Hp & Hi & _ & Hb); [done|done|done|].
  done.
Qed.

Lemma run_strands_followups_witness :
  let first := telegram "u0" "c1" "current" in
  let one := telegram "alice" "c1" "one" in
  let two := telegram "bob" "c1" "two" in
  let state :=
    foldl run_step (new_bus, [])
          [Arrives first; Round; Arrives one; Arrives two; Round; Round] in
  all_of_session (session_key first) [Arrives one; Arrives two; Round; Round]
  ∧ state.2 = [first]
  ∧ buffer_of state.1 (session_key first) = [one; two].
Proof.
  intros first one two state.
  assert (all_of_session (session_key first)
            [Arrives one; Arrives two; Round; Round]) as Hall.
  { repeat constructor. }
  destruct (run_strands_followups new_bus first
              [Arrives one; Arrives two; Round; Round] eq_refl eq_refl Hall)
    as (Hp & _ & Hb).
  split; [exact Hall|]. split; [exact Hp | exact Hb].
Defined.

End RunLoopFacts.
